(** * Kyber KEM visualizer: the core functions of [app.py]

    [app.py] simulates a key encapsulation mechanism and charts statistics
    of the shared secret.  This development embeds its core functions
    ([kyber_keygen], [derive_shared_secret], [kyber_encapsulate],
    [kyber_decapsulate], [calculate_entropy]) and the data preparation of
    the charts (heatmap grid, 3D byte triplets, byte frequency table), and
    proves the properties the specification states about them.

    Conventions of the embedding:
    - a Python [bytes] value is a [list byte];
    - a Python [str] is the list of its Unicode code points ([Z]);
    - Python integers are [Z]; fixed-width words of the hash are [Z] with the
      reduction modulo [2^32] written out;
    - Python floats are IEEE 754 doubles, the primitive floats of Rocq;
      [math.log2], the builtin [sum] over floats and [round] are parameters
      of [calculate_entropy], since their results are fixed by the C library
      and the interpreter, not by the program;
    - a Python exception is a value of [exn] carried by [result];
    - [os.urandom] reads an explicit entropy tape that is threaded through
      the functions calling it.

    What the specification names without the code (a value in base 16,
    UTF-8, SHA-256, the lowercase hexadecimal form) is defined a second time
    from positional notation and from the text of RFC 3629 and FIPS 180-4,
    and the embedding of [int], [str.encode], [hashlib.sha256] and
    [bytes.hex] is proved to agree with these definitions. *)

From Stdlib Require Import Ascii String.
From Stdlib.Strings Require Import Byte.
From Stdlib Require Import ZArith List Lia Bool.
From Stdlib Require Import Permutation.
From Stdlib Require Import PrimFloat SpecFloat FloatOps FloatAxioms.
Import ListNotations.

Local Open Scope Z_scope.

(* ================================================================== *)
(** * Exceptions and results *)

(** The exceptions the modelled code can raise. *)
Inductive exn : Type :=
| UnicodeEncodeError   (* str.encode on a lone surrogate *)
| ZeroDivisionError    (* int / int with a zero divisor *)
| ValueError.          (* int(text, 16), math.log2, ndarray.reshape *)

Inductive result (A : Type) : Type :=
| Ok (a : A)
| Raise (e : exn).
Arguments Ok {A} a.
Arguments Raise {A} e.

Definition bind {A B : Type} (r : result A) (k : A -> result B) : result B :=
  match r with
  | Ok a => k a
  | Raise e => Raise e
  end.

Declare Scope result_scope.
Delimit Scope result_scope with result.
Notation "x <- r ;; k" := (bind r (fun x => k))
  (at level 61, r at next level, right associativity) : result_scope.

(** A list comprehension whose element expression can raise: elements are
    evaluated left to right and the first exception aborts the rest. *)
Fixpoint mapM {A B : Type} (f : A -> result B) (l : list A) : result (list B) :=
  match l with
  | [] => Ok []
  | a :: l' =>
      (b <- f a ;;
       bs <- mapM f l' ;;
       Ok (b :: bs))%result
  end.

(* ================================================================== *)
(** * Bytes and text *)

Definition bytes := list byte.

Definition Z_of_byte (b : byte) : Z := Z.of_N (Byte.to_N b).

Definition byte_of_Z (z : Z) : byte :=
  match Byte.of_N (Z.to_N (z mod 256)) with
  | Some b => b
  | None => x00
  end.

(** A [str] is the sequence of its code points.  Python keeps every code
    point within [0, 0x10FFFF]. *)
Definition str := list Z.

(** String literals of the development: every character of a Rocq string
    stands for the code point of the same number. *)
Fixpoint py (s : string) : str :=
  match s with
  | EmptyString => []
  | String c s' => Z.of_N (N_of_ascii c) :: py s'
  end.

(** [str.encode()] with its defaults: UTF-8, errors='strict'.  A surrogate
    code point (U+D800..U+DFFF) has no UTF-8 form and raises
    UnicodeEncodeError; so does, in this embedding, a number that is no code
    point at all. *)
Definition encode_codepoint (c : Z) : result bytes :=
  if c <? 0 then Raise UnicodeEncodeError
  else if c <? 0x80 then Ok [byte_of_Z c]
  else if c <? 0x800 then
    Ok [byte_of_Z (Z.lor 0xC0 (Z.shiftr c 6));
        byte_of_Z (Z.lor 0x80 (Z.land c 0x3F))]
  else if (0xD800 <=? c) && (c <=? 0xDFFF) then Raise UnicodeEncodeError
  else if c <? 0x10000 then
    Ok [byte_of_Z (Z.lor 0xE0 (Z.shiftr c 12));
        byte_of_Z (Z.lor 0x80 (Z.land (Z.shiftr c 6) 0x3F));
        byte_of_Z (Z.lor 0x80 (Z.land c 0x3F))]
  else if c <? 0x110000 then
    Ok [byte_of_Z (Z.lor 0xF0 (Z.shiftr c 18));
        byte_of_Z (Z.lor 0x80 (Z.land (Z.shiftr c 12) 0x3F));
        byte_of_Z (Z.lor 0x80 (Z.land (Z.shiftr c 6) 0x3F));
        byte_of_Z (Z.lor 0x80 (Z.land c 0x3F))]
  else Raise UnicodeEncodeError.

Definition encode (s : str) : result bytes :=
  (chunks <- mapM encode_codepoint s ;; Ok (concat chunks))%result.

(** The strings [encode] accepts: Unicode scalar values only. *)
Definition scalar_value (c : Z) : Prop :=
  0 <= c <= 0x10FFFF /\ ~ (0xD800 <= c <= 0xDFFF).

(** [bytes.hex()]: two lowercase hexadecimal digits per byte. *)
Definition hex_digit (n : Z) : Z :=
  if n <? 10 then 48 + n else 87 + n.

Definition hex (bs : bytes) : str :=
  flat_map (fun b => [hex_digit (Z.shiftr (Z_of_byte b) 4);
                      hex_digit (Z.land (Z_of_byte b) 15)]) bs.

(** The characters of [0-9a-f]. *)
Definition lower_hex_char (c : Z) : Prop :=
  48 <= c <= 57 \/ 97 <= c <= 102.

(* ================================================================== *)
(** * hashlib.sha256 *)

Module hashlib.

(** SHA-256 as [hashlib] computes it (FIPS 180-4).  Words are integers in
    [0, 2^32). *)

Definition wrap (x : Z) : Z := x mod 2 ^ 32.
Definition add32 (x y : Z) : Z := wrap (x + y).
Definition rotr (n x : Z) : Z :=
  Z.lor (Z.shiftr x n) (wrap (Z.shiftl x (32 - n))).

Definition Ch (x y z : Z) : Z :=
  Z.lxor (Z.land x y) (Z.land (Z.lxor x 0xFFFFFFFF) z).
Definition Maj (x y z : Z) : Z :=
  Z.lxor (Z.lxor (Z.land x y) (Z.land x z)) (Z.land y z).
Definition Sigma0 (x : Z) : Z :=
  Z.lxor (Z.lxor (rotr 2 x) (rotr 13 x)) (rotr 22 x).
Definition Sigma1 (x : Z) : Z :=
  Z.lxor (Z.lxor (rotr 6 x) (rotr 11 x)) (rotr 25 x).
Definition sigma0 (x : Z) : Z :=
  Z.lxor (Z.lxor (rotr 7 x) (rotr 18 x)) (Z.shiftr x 3).
Definition sigma1 (x : Z) : Z :=
  Z.lxor (Z.lxor (rotr 17 x) (rotr 19 x)) (Z.shiftr x 10).

(** The constants of FIPS 180-4, section 4.2.2 and 5.3.3, from their
    definition: the first 32 bits of the fractional parts of the cube roots
    (round constants) and of the square roots (initial chaining value) of
    the first primes. *)
Definition is_prime (n : nat) : bool :=
  forallb (fun d => negb (n mod d =? 0)%nat) (seq 2 (n - 2)).

Definition primes : list Z :=
  map Z.of_nat (filter is_prime (seq 2 310)).

Fixpoint cube_root_bits (i : nat) (n r : Z) : Z :=
  match i with
  | O => r
  | S j =>
      let r' := r + 2 ^ Z.of_nat j in
      cube_root_bits j n (if r' * r' * r' <=? n then r' else r)
  end.

Definition K : list Z :=
  Eval vm_compute in
    map (fun p => wrap (cube_root_bits 36 (p * 2 ^ 96) 0)) primes.

(** The eight working variables, also the chaining value. *)
Record state : Type := mkState {
  ha : Z; hb : Z; hc : Z; hd : Z; he : Z; hf : Z; hg : Z; hh : Z
}.

Definition H0 : state :=
  Eval vm_compute in
    match map (fun p => wrap (Z.sqrt (p * 2 ^ 64))) primes with
    | a :: b :: c :: d :: e :: f :: g :: h :: _ => mkState a b c d e f g h
    | _ => mkState 0 0 0 0 0 0 0 0
    end.

(** Padding: the bit 1, zero bits up to 56 modulo 64 bytes, and the bit
    length of the message as a 64-bit big-endian integer. *)
Definition be_bytes (n : nat) (x : Z) : list Z :=
  map (fun i => Z.land (Z.shiftr x (8 * Z.of_nat i)) 255) (rev (seq 0 n)).

Definition pad (msg : list Z) : list Z :=
  let len := Z.of_nat (length msg) in
  let zeros := Z.to_nat ((55 - len) mod 64) in
  msg ++ [0x80] ++ repeat 0 zeros ++ be_bytes 8 ((8 * len) mod 2 ^ 64).

Fixpoint blocks (fuel : nat) (l : list Z) : list (list Z) :=
  match fuel with
  | O => []
  | S fuel' =>
      match l with
      | [] => []
      | _ => firstn 64 l :: blocks fuel' (skipn 64 l)
      end
  end.

Fixpoint be_words (fuel : nat) (l : list Z) : list Z :=
  match fuel with
  | O => []
  | S fuel' =>
      match l with
      | b0 :: b1 :: b2 :: b3 :: l' =>
          (b0 * 2 ^ 24 + b1 * 2 ^ 16 + b2 * 2 ^ 8 + b3) :: be_words fuel' l'
      | _ => []
      end
  end.

(** Message schedule: sixteen words of the block, then forty-eight derived
    ones.  [w] holds the words made so far, most recent first. *)
Fixpoint extend (n : nat) (w : list Z) : list Z :=
  match n with
  | O => w
  | S n' =>
      let x := add32 (add32 (add32 (sigma1 (nth 1 w 0)) (nth 6 w 0))
                            (sigma0 (nth 14 w 0))) (nth 15 w 0) in
      extend n' (x :: w)
  end.

Definition schedule (block : list Z) : list Z :=
  rev (extend 48 (rev (be_words 16 block))).

Definition round (s : state) (kw : Z * Z) : state :=
  let (k, w) := kw in
  let t1 := add32 (add32 (add32 (add32 (hh s) (Sigma1 (he s)))
                                (Ch (he s) (hf s) (hg s))) k) w in
  let t2 := add32 (Sigma0 (ha s)) (Maj (ha s) (hb s) (hc s)) in
  mkState (add32 t1 t2) (ha s) (hb s) (hc s)
          (add32 (hd s) t1) (he s) (hf s) (hg s).

Definition compress (h : state) (block : list Z) : state :=
  let s := fold_left round (combine K (schedule block)) h in
  mkState (add32 (ha h) (ha s)) (add32 (hb h) (hb s))
          (add32 (hc h) (hc s)) (add32 (hd h) (hd s))
          (add32 (he h) (he s)) (add32 (hf h) (hf s))
          (add32 (hg h) (hg s)) (add32 (hh h) (hh s)).

Definition state_bytes (s : state) : bytes :=
  map byte_of_Z
      (flat_map (be_bytes 4)
         [ha s; hb s; hc s; hd s; he s; hf s; hg s; hh s]).

(** A hash object: [hashlib.sha256(data)] absorbs [data]; [digest] pads
    and compresses what was absorbed. *)
Record hash : Type := mkHash { absorbed : bytes }.

Definition sha256 (data : bytes) : hash := mkHash data.

Definition digest (h : hash) : bytes :=
  let padded := pad (map Z_of_byte (absorbed h)) in
  state_bytes (fold_left compress (blocks (length padded) padded) H0).

Definition hexdigest (h : hash) : str := hex (digest h).

End hashlib.

(* ================================================================== *)
(** * os.urandom *)

Module os.

(** The operating system's entropy source: an unbounded tape of bytes and
    the number of bytes already handed out. *)
Record entropy : Type := mkEntropy { tape : nat -> byte; pos : nat }.

(** [os.urandom(n)] hands out the next [n] bytes of the tape. *)
Definition urandom (n : nat) (w : entropy) : bytes * entropy :=
  (map (tape w) (seq (pos w) n), mkEntropy (tape w) (pos w + n)).

End os.

(** Code that draws random bytes and can raise: the entropy source is
    threaded through, and an exception keeps the bytes already drawn as
    drawn. *)
Definition prog (A : Type) : Type := os.entropy -> result A * os.entropy.

Definition ret {A : Type} (a : A) : prog A := fun w => (Ok a, w).

Definition seqp {A B : Type} (p : prog A) (k : A -> prog B) : prog B :=
  fun w =>
    match p w with
    | (Ok a, w') => k a w'
    | (Raise e, w') => (Raise e, w')
    end.

Definition draw (n : nat) : prog bytes :=
  fun w => let (bs, w') := os.urandom n w in (Ok bs, w').

Definition lift {A : Type} (r : result A) : prog A := fun w => (r, w).

Declare Scope prog_scope.
Delimit Scope prog_scope with prog.
Notation "x <~ p ;; k" := (seqp p (fun x => k))
  (at level 61, p at next level, right associativity) : prog_scope.

(* ================================================================== *)
(** * Core functions *)

Definition kyber_keygen : prog (bytes * bytes) :=
  (public_key <~ draw 32 ;;
   secret_key <~ draw 32 ;;
   ret (public_key, secret_key))%prog.

Definition derive_shared_secret (message : str) (public_key : bytes)
  : result str :=
  (encoded <- encode message ;;
   let combined := encoded ++ public_key in
   Ok (hashlib.hexdigest (hashlib.sha256 combined)))%result.

Definition kyber_encapsulate (public_key : bytes) (message : str)
  : prog (bytes * str) :=
  (ciphertext <~ draw 64 ;;
   shared_secret <~ lift (derive_shared_secret message public_key) ;;
   ret (ciphertext, shared_secret))%prog.

Definition kyber_decapsulate (ciphertext secret_key : bytes) (message : str)
           (public_key : bytes) : result str :=
  derive_shared_secret message public_key.

(* ================================================================== *)
(** * collections.Counter *)

(** A [Counter] is a dict from element to count; iteration follows the
    order in which the keys were first inserted.  Keys here are code points
    (characters of a [str]) or integers. *)
Definition counter := list (Z * Z).

Fixpoint incr (x : Z) (c : counter) : counter :=
  match c with
  | [] => [(x, 1)]
  | (y, n) :: c' => if x =? y then (y, n + 1) :: c' else (y, n) :: incr x c'
  end.

Definition Counter (data : list Z) : counter :=
  fold_left (fun c x => incr x c) data [].

Definition values (c : counter) : list Z := map snd c.
Definition keys (c : counter) : list Z := map fst c.

(* ================================================================== *)
(** * calculate_entropy *)

(** Python numbers as [calculate_entropy] meets them: [sum] of no terms is
    the integer 0, any other sum is a float. *)
Inductive number : Type :=
| Int (z : Z)
| Float (f : float).

Fixpoint float_of_positive (p : positive) : float :=
  match p with
  | xH => 1
  | xO q => 2 * float_of_positive q
  | xI q => 2 * float_of_positive q + 1
  end%float.

(** Conversion of an integer operand to a double; exact up to [2^53], which
    the counts and lengths of the strings a machine holds stay below.  A
    larger integer is rounded at each step of the conversion, where Python
    rounds the quotient of the two integers once. *)
Definition float_of_Z (z : Z) : float :=
  match z with
  | Z0 => 0%float
  | Zpos p => float_of_positive p
  | Zneg p => (- float_of_positive p)%float
  end.

(** [a / b] on integers: true division, ZeroDivisionError on [b = 0]. *)
Definition truediv (a b : Z) : result float :=
  if b =? 0 then Raise ZeroDivisionError
  else Ok (float_of_Z a / float_of_Z b)%float.

Section Entropy.

(** Routines of the C library and of the interpreter whose results are
    not fixed by IEEE 754: the binary logarithm on positive doubles, the
    builtin [sum] over a non-empty sequence of floats (a plain
    left-to-right sum before Python 3.12, a compensated one since) and
    [round(x, ndigits)] on a float. *)
Variable libm_log2 : float -> float.
Variable float_sum : list float -> float.
Variable float_round : float -> Z -> float.

(** [math.log2]: the logarithm of a positive double, NaN for NaN, and
    ValueError (math domain error) otherwise. *)
Definition math_log2 (x : float) : result float :=
  if (0 <? x)%float then Ok (libm_log2 x)
  else if is_nan x then Ok x
  else Raise ValueError.

Definition sum (terms : list float) : number :=
  match terms with
  | [] => Int 0
  | _ => Float (float_sum terms)
  end.

Definition neg (x : number) : number :=
  match x with
  | Int z => Int (- z)
  | Float f => Float (- f)%float
  end.

Definition round (x : number) (ndigits : Z) : number :=
  match x with
  | Int z => Int z
  | Float f => Float (float_round f ndigits)
  end.

(** One term of the generator expression:
    [(count / total) * math.log2(count / total)]. *)
Definition term (total count : Z) : result float :=
  (p <- truediv count total ;;
   q <- truediv count total ;;
   l <- math_log2 q ;;
   Ok (p * l)%float)%result.

Definition calculate_entropy (data : str) : result number :=
  let counter := Counter data in
  let total := Z.of_nat (length data) in
  (terms <- mapM (term total) (values counter) ;;
   Ok (round (neg (sum terms)) 2))%result.

End Entropy.

(* ================================================================== *)
(** * Data of the charts *)

(** Value of a hexadecimal digit, in either case. *)
Definition digit16 (c : Z) : option Z :=
  if (48 <=? c) && (c <=? 57) then Some (c - 48)
  else if (97 <=? c) && (c <=? 102) then Some (c - 87)
  else if (65 <=? c) && (c <=? 70) then Some (c - 55)
  else None.

Fixpoint digits16 (acc : Z) (text : str) : result Z :=
  match text with
  | [] => Ok acc
  | c :: text' =>
      match digit16 c with
      | Some d => digits16 (16 * acc + d) text'
      | None => Raise ValueError
      end
  end.

(** [int(text, 16)] on the texts the charts pass to it, runs of one or two
    characters cut from the secret: a non-empty run of hexadecimal digits is
    its value in base 16.  Python's [int] also accepts surrounding
    whitespace, a sign, a [0x] prefix, underscores between digits and
    non-ASCII decimal digits; those forms are not embedded and read as
    ValueError here, like every other text.  None of them consists of
    hexadecimal digits only. *)
Definition int16 (text : str) : result Z :=
  match text with
  | [] => Raise ValueError
  | _ => digits16 0 text
  end.

(** [l[i:j]] for indices [0 <= i], [0 <= j]: out-of-range indices are
    clamped to the length. *)
Definition slice {A : Type} (l : list A) (i j : nat) : list A :=
  firstn (j - i) (skipn i l).

(** [range(start, stop, step)] for a positive step. *)
Definition range (start stop step : nat) : list nat :=
  map (fun k => start + k * step)%nat
      (seq 0 ((stop - start + (step - 1)) / step)).

(** Rows of a two-dimensional array, cut from the flat data in row-major
    order. *)
Fixpoint rows_of (nrows ncols : nat) (flat : list Z) : list (list Z) :=
  match nrows with
  | O => []
  | S n => firstn ncols flat :: rows_of n ncols (skipn ncols flat)
  end.

(** [np.array(flat).reshape(nrows, ncols)]: ValueError unless the sizes
    agree. *)
Definition reshape (nrows ncols : nat) (flat : list Z)
  : result (list (list Z)) :=
  if (length flat =? nrows * ncols)%nat then Ok (rows_of nrows ncols flat)
  else Raise ValueError.

(** [a.reshape(-1, ncols)] for [ncols > 0]: the number of rows is
    inferred; ValueError unless [ncols] divides the size. *)
Definition reshape_rows (ncols : nat) (flat : list Z)
  : result (list (list Z)) :=
  if (length flat mod ncols =? 0)%nat
  then Ok (rows_of (length flat / ncols) ncols flat)
  else Raise ValueError.

(** Heatmap: [[int(c, 16) for c in ss_sender[:64]]], then [reshape(8, 8)]. *)
Definition byte_values (ss_sender : str) : result (list Z) :=
  mapM (fun c => int16 [c]) (slice ss_sender 0 64).

Definition grid (ss_sender : str) : result (list (list Z)) :=
  (parsed <- byte_values ss_sender ;; reshape 8 8 parsed)%result.

(** 3D plot: pairs of characters from the first 60, parsed, cut down to a
    multiple of three and reshaped to rows of three. *)
Definition hex_pairs (ss_sender : str) : list str :=
  map (fun i => slice ss_sender i (i + 2))
      (range 0 (Nat.min (length ss_sender) 60) 2).

Definition byte_values_3d (ss_sender : str) : result (list (list Z)) :=
  (parsed <- mapM int16 (hex_pairs ss_sender) ;;
   let n := length parsed in
   reshape_rows 3 (slice parsed 0 (n - n mod 3)))%result.

(** Bar graph: [Counter([int(c, 16) for c in ss_sender[:64]])]. *)
Definition byte_counter (ss_sender : str) : result counter :=
  (parsed <- byte_values ss_sender ;; Ok (Counter parsed))%result.

(* ================================================================== *)
(** * Vocabulary of the specification *)

(** A hexadecimal character, in either case: what [int(c, 16)] reads as one
    digit. *)
Definition hex_char (c : Z) : Prop :=
  48 <= c <= 57 \/ 97 <= c <= 102 \/ 65 <= c <= 70.

Definition hex_charb (c : Z) : bool :=
  match digit16 c with
  | Some _ => true
  | None => false
  end.

(** Base 16 as the specification means it, written from positional
    notation and not from the parser of the charts: the value of a digit is
    its place in the alphabet [0123456789abcdef], a capital letter standing
    for its small one, and a text of [n] digits is worth the sum of its
    digits' values, the first one weighted by [16^(n-1)] and the last one by
    1.  Nothing but a non-empty text of digits has a value. *)
Definition hex_alphabet : str := py "0123456789abcdef".

Fixpoint position (c : Z) (alphabet : list Z) : option Z :=
  match alphabet with
  | [] => None
  | a :: rest =>
      if c =? a then Some 0
      else match position c rest with
           | Some i => Some (i + 1)
           | None => None
           end
  end.

Definition small_letter (c : Z) : Z :=
  if (65 <=? c) && (c <=? 90) then c + 32 else c.

Definition digit_value (c : Z) : option Z :=
  position (small_letter c) hex_alphabet.

Fixpoint weighted_sum (text : str) : option Z :=
  match text with
  | [] => Some 0
  | c :: rest =>
      match digit_value c, weighted_sum rest with
      | Some d, Some v => Some (d * 16 ^ Z.of_nat (length rest) + v)
      | _, _ => None
      end
  end.

Definition base16 (text : str) : option Z :=
  match text with
  | [] => None
  | _ => weighted_sum text
  end.

(** The groups of two characters of a text, numbered from 0: group [k]
    holds the characters at places [2k] and [2k + 1].  The last group of a
    text of odd length holds one character; beyond the text there is no
    group. *)
Definition group (k : nat) (text : str) : option str :=
  match nth_error text (2 * k), nth_error text (2 * k + 1) with
  | Some a, Some b => Some [a; b]
  | Some a, None => Some [a]
  | None, _ => None
  end.

(** The value of group [k], read in base 16. *)
Definition group_value (k : nat) (text : str) : option Z :=
  match group k text with
  | Some g => base16 g
  | None => None
  end.

(* ================================================================== *)
(** * The standards

    What the specification names, UTF-8, SHA-256 and lowercase hexadecimal,
    defined a second time from the text of the standards: octets and words
    are integers, fields are cut with quotients and remainders, the words
    of a block and of its schedule are found by their index, and the
    constants are the printed ones.  Nothing here uses the embedding of the
    code; the two are compared in the properties. *)

Module RFC3629.

(** UTF-8, RFC 3629 section 3.  The range of the character number gives
    the number of octets; the bits of the number fill the free places [x]
    of [0xxxxxxx], [110xxxxx 10xxxxxx], [1110xxxx 10xxxxxx 10xxxxxx] or
    [11110xxx 10xxxxxx 10xxxxxx 10xxxxxx], six to each continuation octet
    from the lowest bits up.  The surrogates D800 to DFFF and the numbers
    above 10FFFF have no encoding. *)
Definition octets (c : Z) : option (list Z) :=
  if (0 <=? c) && (c <=? 127) then Some [c]
  else if (128 <=? c) && (c <=? 2047) then
    Some [192 + c / 64; 128 + c mod 64]
  else if (2048 <=? c) && (c <=? 55295) || (57344 <=? c) && (c <=? 65535) then
    Some [224 + c / 4096; 128 + c / 64 mod 64; 128 + c mod 64]
  else if (65536 <=? c) && (c <=? 1114111) then
    Some [240 + c / 262144; 128 + c / 4096 mod 64; 128 + c / 64 mod 64;
          128 + c mod 64]
  else None.

Fixpoint utf8 (s : str) : option (list Z) :=
  match s with
  | [] => Some []
  | c :: s' =>
      match octets c, utf8 s' with
      | Some o, Some rest => Some (o ++ rest)
      | _, _ => None
      end
  end.

End RFC3629.

(** Lowercase hexadecimal: two digits of the alphabet to an octet, the
    sixteens first. *)
Definition hexadecimal (octets : list Z) : str :=
  flat_map (fun o => [nth (Z.to_nat (o / 16)) hex_alphabet 0;
                      nth (Z.to_nat (o mod 16)) hex_alphabet 0]) octets.

Module FIPS180.

(** SHA-256, FIPS 180-4.  Section 2.2.2 and 3.2: words of 32 bits,
    addition modulo [2^32], the right shift and the rotation to the right,
    in which the [n] low bits of the word move to its top. *)
Definition plus (x y : Z) : Z := (x + y) mod 2 ^ 32.
Definition SHR (n x : Z) : Z := x / 2 ^ n.
Definition ROTR (n x : Z) : Z := x / 2 ^ n + x mod 2 ^ n * 2 ^ (32 - n).

(** Section 4.1.2: the six logical functions. *)
Definition Ch (x y z : Z) : Z :=
  Z.lxor (Z.land x y) (Z.land (Z.lnot x) z).
Definition Maj (x y z : Z) : Z :=
  Z.lxor (Z.lxor (Z.land x y) (Z.land x z)) (Z.land y z).
Definition Sigma0 (x : Z) : Z :=
  Z.lxor (Z.lxor (ROTR 2 x) (ROTR 13 x)) (ROTR 22 x).
Definition Sigma1 (x : Z) : Z :=
  Z.lxor (Z.lxor (ROTR 6 x) (ROTR 11 x)) (ROTR 25 x).
Definition sigma0 (x : Z) : Z :=
  Z.lxor (Z.lxor (ROTR 7 x) (ROTR 18 x)) (SHR 3 x).
Definition sigma1 (x : Z) : Z :=
  Z.lxor (Z.lxor (ROTR 17 x) (ROTR 19 x)) (SHR 10 x).

(** Words printed in hexadecimal and separated by spaces. *)
Fixpoint printed_words (current : str) (text : str) : list Z :=
  match text with
  | [] =>
      match base16 current with
      | Some v => [v]
      | None => []
      end
  | c :: text' =>
      if c =? 32 then
        match base16 current with
        | Some v => v :: printed_words [] text'
        | None => printed_words [] text'
        end
      else printed_words (current ++ [c]) text'
  end.

(** Section 4.2.2: the sixty-four constants, as printed. *)
Definition K : list Z :=
  printed_words []
    (py "428a2f98 71374491 b5c0fbcf e9b5dba5 3956c25b 59f111f1 923f82a4 ab1c5ed5 d807aa98 12835b01 243185be 550c7dc3 72be5d74 80deb1fe 9bdc06a7 c19bf174 e49b69c1 efbe4786 0fc19dc6 240ca1cc 2de92c6f 4a7484aa 5cb0a9dc 76f988da 983e5152 a831c66d b00327c8 bf597fc7 c6e00bf3 d5a79147 06ca6351 14292967 27b70a85 2e1b2138 4d2c6dfc 53380d13 650a7354 766a0abb 81c2c92e 92722c85 a2bfe8a1 a81a664b c24b8b70 c76c51a3 d192e819 d6990624 f40e3585 106aa070 19a4c116 1e376c08 2748774c 34b0bcb5 391c0cb3 4ed8aa4a 5b9cca4f 682e6ff3 748f82ee 78a5636f 84c87814 8cc70208 90befffa a4506ceb bef9a3f7 c67178f2").

(** The eight working variables [a] to [h], also a hash value [H(i)]. *)
Definition vars : Type := (Z * Z * Z * Z * Z * Z * Z * Z)%type.

(** Section 5.3.3: the initial hash value, as printed. *)
Definition H0 : vars :=
  match printed_words []
          (py "6a09e667 bb67ae85 3c6ef372 a54ff53a 510e527f 9b05688c 1f83d9ab 5be0cd19")
  with
  | [a; b; c; d; e; f; g; h] => (a, b, c, d, e, f, g, h)
  | _ => (0, 0, 0, 0, 0, 0, 0, 0)
  end.

(** Section 5.1.1: padding.  The message of [l] bits is followed by the
    bit 1, by [k] zero bits where [k] is the smallest non-negative solution
    of [l + 1 + k = 448 mod 512], and by [l] written on 64 bits.  For a
    message of octets: the octet 128, then the smallest number of zero
    octets that brings the length to 56 modulo 64, then eight octets. *)
Definition zero_octets (len : nat) : nat :=
  match find (fun k => ((len + 1 + k) mod 64 =? 56)%nat) (seq 0 64) with
  | Some k => k
  | None => 0%nat
  end.

Definition length_field (bits : Z) : list Z :=
  map (fun i => bits / 256 ^ (7 - Z.of_nat i) mod 256) (seq 0 8).

Definition padded (M : list Z) : list Z :=
  M ++ [128] ++ repeat 0 (zero_octets (length M))
    ++ length_field (8 * Z.of_nat (length M)).

(** Section 5.2.1: parsing.  Word [t] of block [i] of the padded message,
    both counted from 0, is made of the four octets from place
    [64 i + 4 t] on, the first one the most significant. *)
Definition M (P : list Z) (i t : nat) : Z :=
  nth (64 * i + 4 * t) P 0 * 256 ^ 3
  + nth (64 * i + 4 * t + 1) P 0 * 256 ^ 2
  + nth (64 * i + 4 * t + 2) P 0 * 256
  + nth (64 * i + 4 * t + 3) P 0.

(** Section 6.2.2, step 1: the message schedule of block [i], here its
    first [t] words [W_0] to [W_(t-1)]. *)
Fixpoint W (P : list Z) (i t : nat) : list Z :=
  match t with
  | O => []
  | S t' =>
      let W' := W P i t' in
      W' ++ [if (t' <? 16)%nat then M P i t'
             else plus (plus (plus (sigma1 (nth (t' - 2) W' 0))
                                   (nth (t' - 7) W' 0))
                             (sigma0 (nth (t' - 15) W' 0)))
                       (nth (t' - 16) W' 0)]
  end.

(** Step 3: one round on the working variables. *)
Definition step (v : vars) (Kt Wt : Z) : vars :=
  let '(a, b, c, d, e, f, g, h) := v in
  let T1 := plus (plus (plus (plus h (Sigma1 e)) (Ch e f g)) Kt) Wt in
  let T2 := plus (Sigma0 a) (Maj a b c) in
  (plus T1 T2, a, b, c, plus d T1, e, f, g).

(** The working variables after [t] rounds. *)
Fixpoint rounds (t : nat) (schedule : list Z) (v : vars) : vars :=
  match t with
  | O => v
  | S t' => step (rounds t' schedule v) (nth t' K 0) (nth t' schedule 0)
  end.

(** Step 4: the next hash value. *)
Definition next (H : vars) (schedule : list Z) : vars :=
  let '(a, b, c, d, e, f, g, h) := rounds 64 schedule H in
  let '(H0, H1, H2, H3, H4, H5, H6, H7) := H in
  (plus a H0, plus b H1, plus c H2, plus d H3,
   plus e H4, plus f H5, plus g H6, plus h H7).

(** The hash value [H(i)] after [i] blocks. *)
Fixpoint H (P : list Z) (i : nat) : vars :=
  match i with
  | O => H0
  | S j => next (H P j) (W P j 64)
  end.

Definition word_octets (x : Z) : list Z :=
  [x / 256 ^ 3 mod 256; x / 256 ^ 2 mod 256; x / 256 mod 256; x mod 256].

(** The message digest: the eight words of the last hash value. *)
Definition SHA256 (message : list Z) : list Z :=
  let P := padded message in
  let '(a, b, c, d, e, f, g, h) := H P (length P / 64) in
  word_octets a ++ word_octets b ++ word_octets c ++ word_octets d
  ++ word_octets e ++ word_octets f ++ word_octets g ++ word_octets h.

End FIPS180.

(** The specification's deriver, in the words of the standards: the
    lowercase hexadecimal form of the SHA-256 digest of the UTF-8 encoding
    of the message followed by the octets of the public key; nothing for a
    message that has no UTF-8 encoding. *)
Definition hex_sha256_of_utf8 (message : str) (public_key : list Z)
  : option str :=
  match RFC3629.utf8 message with
  | Some encoded => Some (hexadecimal (FIPS180.SHA256 (encoded ++ public_key)))
  | None => None
  end.

(** Words of 32 bits and octets, as integers. *)
Definition word (x : Z) : Prop := 0 <= x < 2 ^ 32.

Definition octet (b : Z) : Prop := 0 <= b < 256.

(** The chaining value of the embedded [hashlib], read as the eight
    working variables of the standard. *)
Definition vars_of (s : hashlib.state) : FIPS180.vars :=
  (hashlib.ha s, hashlib.hb s, hashlib.hc s, hashlib.hd s,
   hashlib.he s, hashlib.hf s, hashlib.hg s, hashlib.hh s).

Definition words (s : hashlib.state) : Prop :=
  Forall word [hashlib.ha s; hashlib.hb s; hashlib.hc s; hashlib.hd s;
               hashlib.he s; hashlib.hf s; hashlib.hg s; hashlib.hh s].

(** An evaluation that stopped in a division by zero. *)
Definition divides_by_zero {A : Type} (r : result A) : bool :=
  match r with
  | Raise ZeroDivisionError => true
  | _ => false
  end.

(** [c[k]]: the count stored for key [k], 0 for a missing key. *)
Fixpoint get (c : counter) (k : Z) : Z :=
  match c with
  | [] => 0
  | (y, n) :: c' => if k =? y then n else get c' k
  end.

(** Number of occurrences of [k] in [data]. *)
Fixpoint occurrences (k : Z) (data : list Z) : Z :=
  match data with
  | [] => 0
  | x :: data' => (if k =? x then 1 else 0) + occurrences k data'
  end.

(** Tables as [Counter] builds them: no key twice, no count below 1. *)
Definition well_formed (c : counter) : Prop :=
  NoDup (keys c) /\ Forall (fun kn => 0 < snd kn) c.

(** Sum of the counts of a frequency table. *)
Definition total_count (c : counter) : Z := fold_right Z.add 0 (values c).

(** Sample values the statements are tried on. *)
Definition sample_entropy : os.entropy :=
  os.mkEntropy (fun i => byte_of_Z (37 * Z.of_nat i + 11)) 0.

Definition sample_public_key : bytes := fst (os.urandom 32 sample_entropy).

Definition sample_secret_key : bytes :=
  fst (os.urandom 32 (snd (os.urandom 32 sample_entropy))).

(** The entropy source once [kyber_keygen] has drawn the two keys. *)
Definition entropy_after_keygen : os.entropy :=
  snd (kyber_keygen sample_entropy).

Definition sample_secret : str :=
  py "ba7816bf8f01cfea414140de5dae2223b00361a396177a9cb410ff61f20015ad".

(* ================================================================== *)
(** * The script

    The statements of [app.py] below its functions, run again from the top
    on every interaction.  [st.session_state] is a dict that outlives the
    runs; what the script shows is kept as the list of its display calls
    that carry computed values ([st.code], [st.success], [st.error],
    [st.pyplot]).  Calls showing fixed text only (title, headers, captions,
    the page style) neither read nor change any value and are left out. *)

(** [a == b] on two [str]. *)
Fixpoint str_eqb (a b : str) : bool :=
  match a, b with
  | [], [] => true
  | x :: a', y :: b' => (x =? y) && str_eqb a' b'
  | _, _ => false
  end.

(** [st.session_state]: a dict from key to bytes. *)
Definition session_state := list (string * bytes).

Fixpoint dict_get (key : string) (d : session_state) : option bytes :=
  match d with
  | [] => None
  | (k, v) :: d' => if String.eqb key k then Some v else dict_get key d'
  end.

Fixpoint dict_set (key : string) (v : bytes) (d : session_state)
  : session_state :=
  match d with
  | [] => [(key, v)]
  | (k, x) :: d' =>
      if String.eqb key k then (k, v) :: d' else (k, x) :: dict_set key v d'
  end.

Definition dict_contains (key : string) (d : session_state) : bool :=
  match dict_get key d with
  | Some _ => true
  | None => false
  end.

(** What a figure is drawn from. *)
Inductive figure : Type :=
| Barh (value : number)              (* ax1.barh(["Shared Secret"], [entropy]) *)
| Heatmap (cells : list (list Z))    (* sns.heatmap(grid, ...) *)
| Pie (sizes : list Z)               (* ax3.pie(sizes, ...) *)
| Scatter3D (xs ys zs : list Z)      (* ax4.scatter(a[:, 0], a[:, 1], a[:, 2]) *)
| Bar (labels counts : list Z).      (* ax5.bar(byte_labels, byte_counts) *)

Inductive event : Type :=
| Code (text : str)
| Success (text : str)
| Error (text : str)
| Pyplot (fig : figure).

Definition is_error (ev : event) : bool :=
  match ev with
  | Error _ => true
  | _ => false
  end.

(** Exceptions that end a run of the script: a missing key of the session
    dict, or an exception of the functions it calls. *)
Inductive script_exn : Type :=
| KeyError (key : string)
| Uncaught (e : exn).

Record world : Type := mkWorld {
  session : session_state;
  randomness : os.entropy;
  shown : list event
}.

Definition script (A : Type) : Type := world -> (A + script_exn) * world.

Definition pass {A : Type} (a : A) : script A := fun w => (inl a, w).

Definition and_then {A B : Type} (s : script A) (k : A -> script B)
  : script B :=
  fun w =>
    match s w with
    | (inl a, w') => k a w'
    | (inr e, w') => (inr e, w')
    end.

Declare Scope script_scope.
Delimit Scope script_scope with script.
Notation "x <- s ;; k" := (and_then s (fun x => k))
  (at level 61, s at next level, right associativity) : script_scope.
Notation "s ;;; k" := (and_then s (fun _ => k))
  (at level 61, right associativity) : script_scope.

Definition emit (ev : event) : script unit :=
  fun w => (inl tt, mkWorld (session w) (randomness w) (shown w ++ [ev])).

Definition contains (key : string) : script bool :=
  fun w => (inl (dict_contains key (session w)), w).

Definition getitem (key : string) : script bytes :=
  fun w =>
    match dict_get key (session w) with
    | Some v => (inl v, w)
    | None => (inr (KeyError key), w)
    end.

Definition setitem (key : string) (v : bytes) : script unit :=
  fun w =>
    (inl tt, mkWorld (dict_set key v (session w)) (randomness w) (shown w)).

(** A call of a function that draws random bytes. *)
Definition call {A : Type} (p : prog A) : script A :=
  fun w =>
    match p (randomness w) with
    | (Ok a, r) => (inl a, mkWorld (session w) r (shown w))
    | (Raise e, r) => (inr (Uncaught e), mkWorld (session w) r (shown w))
    end.

(** A call of a function that can only return or raise. *)
Definition eval {A : Type} (r : result A) : script A :=
  fun w =>
    match r with
    | Ok a => (inl a, w)
    | Raise e => (inr (Uncaught e), w)
    end.

(** [byte_labels, byte_counts = zip] of the unpacked [byte_counter.items()]:
    the keys and the counts; with no item there is nothing to unpack, a
    ValueError. *)
Definition unzip_items (c : counter) : result (list Z * list Z) :=
  match c with
  | [] => Raise ValueError
  | _ => Ok (keys c, values c)
  end.

(** [a[:, j]] on the rows of a two-dimensional array with more than [j]
    columns. *)
Definition column (j : nat) (rows : list (list Z)) : list Z :=
  map (fun row => nth j row 0) rows.

Section Script.

Variable libm_log2 : float -> float.
Variable float_sum : list float -> float.
Variable float_round : float -> Z -> float.

(** Step 1: the button draws a key pair and stores both keys. *)
Definition step1 (pressed : bool) : script unit :=
  if pressed then
    (pair <- call kyber_keygen ;;
     setitem "pk" (fst pair) ;;;
     setitem "sk" (snd pair) ;;;
     emit (Success (py "Key pair generated!")))%script
  else pass tt.

Definition show_keys : script unit :=
  (present <- contains "pk" ;;
   if present then
     pk <- getitem "pk" ;;
     emit (Code (py "Public Key: " ++ hex pk)) ;;;
     sk <- getitem "sk" ;;
     emit (Code (py "Secret Key: " ++ hex sk))
   else pass tt)%script.

(** The body of [if message and 'pk' in st.session_state:]. *)
Definition exchange_and_charts (message : str) : script unit :=
  (pk <- getitem "pk" ;;
   sent <- call (kyber_encapsulate pk message) ;;
   let ct := fst sent in
   let ss_sender := snd sent in
   sk <- getitem "sk" ;;
   pk' <- getitem "pk" ;;
   ss_receiver <- eval (kyber_decapsulate ct sk message pk') ;;
   emit (Code (py "Ciphertext (truncated): "
               ++ slice (hex ct) 0 64 ++ py "...")) ;;;
   emit (Code (py "Shared Secret (Sender): " ++ ss_sender)) ;;;
   emit (Code (py "Shared Secret (Receiver): " ++ ss_receiver)) ;;;
   (if str_eqb ss_sender ss_receiver
    then emit (Success (0x2705 :: py " Shared secrets match!"))
    else emit (Error (0x274C :: py " Shared secrets do not match!"))) ;;;
   entropy <- eval (calculate_entropy libm_log2 float_sum float_round
                      ss_sender) ;;
   emit (Pyplot (Barh entropy)) ;;;
   cells <- eval (grid ss_sender) ;;
   emit (Pyplot (Heatmap cells)) ;;;
   emit (Pyplot (Pie [Z.of_nat (length ct); Z.of_nat (length ss_sender)])) ;;;
   points <- eval (byte_values_3d ss_sender) ;;
   emit (Pyplot (Scatter3D (column 0 points) (column 1 points)
                           (column 2 points))) ;;;
   table <- eval (byte_counter ss_sender) ;;
   bars <- eval (unzip_items table) ;;
   emit (Pyplot (Bar (fst bars) (snd bars))))%script.

(** Step 3 runs for a non-empty message once a public key is stored; the
    test of the dict is not evaluated for an empty message. *)
Definition step3 (message : str) : script unit :=
  match message with
  | [] => pass tt
  | _ =>
      (present <- contains "pk" ;;
       if present then exchange_and_charts message else pass tt)%script
  end.

(** One run of the script, from an empty page. *)
Definition app (pressed : bool) (message : str) : script unit :=
  (step1 pressed ;;; show_keys ;;; step3 message)%script.

Definition rerun (pressed : bool) (message : str) (w : world)
  : (unit + script_exn) * world :=
  app pressed message (mkWorld (session w) (randomness w) []).

(** A sequence of interactions, each given by the state of the button and
    of the text input; the session dict and the entropy source carry over. *)
Fixpoint interact (inputs : list (bool * str)) (w : world) : world :=
  match inputs with
  | [] => w
  | (pressed, message) :: rest =>
      interact rest (snd (rerun pressed message w))
  end.

End Script.

(** The session dict of a browser session that has just started. *)
Definition fresh (r : os.entropy) : world := mkWorld [] r [].

(** Both keys are stored, or neither. *)
Definition paired (d : session_state) : bool :=
  Bool.eqb (dict_contains "pk" d) (dict_contains "sk" d).

Definition is_key_error {A : Type} (r : A + script_exn) : bool :=
  match r with
  | inr (KeyError _) => true
  | _ => false
  end.

(** The distinct elements of a list, in the order of first occurrence. *)
Fixpoint first_seen (seen data : list Z) : list Z :=
  match data with
  | [] => []
  | x :: data' =>
      if existsb (Z.eqb x) seen then first_seen seen data'
      else x :: first_seen (x :: seen) data'
  end.

(** The exception an evaluation stopped in, if any. *)
Definition raised {A : Type} (r : result A) : option exn :=
  match r with
  | Ok _ => None
  | Raise e => Some e
  end.

(** Decidable form of [scalar_value], and the strings made of scalar
    values. *)
Definition scalar_valueb (c : Z) : bool :=
  (0 <=? c) && (c <=? 0x10FFFF) && negb ((0xD800 <=? c) && (c <=? 0xDFFF)).

Definition encodable (s : str) : bool := forallb scalar_valueb s.

(** The entropy source after [n] more bytes were handed out. *)
Definition advance (n : nat) (w : os.entropy) : os.entropy :=
  os.mkEntropy (os.tape w) (os.pos w + n).

(** The bytes at positions [pos w .. pos w + n - 1] of the tape. *)
Definition upcoming (n : nat) (w : os.entropy) : bytes :=
  map (os.tape w) (seq (os.pos w) n).

(** The two 4-bit halves of each byte, high half first. *)
Definition nibbles (bs : bytes) : list Z :=
  flat_map (fun b => [Z_of_byte b / 16; Z_of_byte b mod 16]) bs.

(** One summand of the entropy, from the count of a character and the
    length of the string. *)
Definition summand (libm_log2 : float -> float) (total count : Z) : float :=
  (float_of_Z count / float_of_Z total
   * libm_log2 (float_of_Z count / float_of_Z total))%float.

(** The quotient of a count by a length is a positive double. *)
Definition ratio_positive (total count : nat) : bool :=
  (0 <? float_of_Z (Z.of_nat count) / float_of_Z (Z.of_nat total))%float.

(** The largest length of a Python sequence, [sys.maxsize] on a 64-bit
    platform: no [str] holds more characters. *)
Definition sys_maxsize : Z := 2 ^ 63 - 1.

(** A positive normal double of magnitude [D], in the terms of IEEE 754 as
    the library of primitive floats spells them: a mantissa of 53 binary
    digits with the exponent [D - 53], that is a value of
    [[2^(D-1), 2^D)]. *)
Definition normal (D : Z) (x : spec_float) : Prop :=
  exists m : positive,
    x = S754_finite false m (D - 53) /\ 2 ^ 52 <= Zpos m < 2 ^ 53.

(** No [st.error] among the display calls. *)
Definition no_error (events : list event) : bool :=
  forallb (fun ev => negb (is_error ev)) events.

(** A statement of the script run on a session dict [d] that it leaves as
    it is: it keeps the page free of [st.error], returns values satisfying
    [Q] and stops only in exceptions satisfying [E]. *)
Definition keeps {A : Type} (d : session_state) (s : script A)
           (Q : A -> Prop) (E : script_exn -> Prop) : Prop :=
  forall w : world,
    session w = d -> no_error (shown w) = true ->
    session (snd (s w)) = d
    /\ no_error (shown (snd (s w))) = true
    /\ match fst (s w) with
       | inl a => Q a
       | inr e => E e
       end.

Definition not_key_error (e : script_exn) : Prop :=
  match e with
  | KeyError _ => False
  | Uncaught _ => True
  end.

(** A session in which the button has been pressed once, with stand-ins
    for the library routines. *)
Definition sample_world : world :=
  snd (rerun (fun x => x) (fun _ => 0%float) (fun x _ => x) true []
         (fresh sample_entropy)).

(* ================================================================== *)
(** * Properties *)

(** C3. [kyber_decapsulate] ignores its ciphertext and secret key: any two
    choices of them give the same result, the one of
    [derive_shared_secret] on the message and the public key. *)
Theorem decapsulate_ignores_ciphertext_and_secret_key :
  forall (message : str) (public_key ct1 sk1 ct2 sk2 : bytes),
    kyber_decapsulate ct1 sk1 message public_key
      = kyber_decapsulate ct2 sk2 message public_key
    /\ kyber_decapsulate ct1 sk1 message public_key
      = derive_shared_secret message public_key
    /\ kyber_decapsulate ct2 sk2 message public_key
      = derive_shared_secret message public_key.
Proof.
  intros; unfold kyber_decapsulate; repeat split.
Qed.

(* ------------------------------------------------------------------ *)
(** ** Results and list comprehensions *)

Lemma mapM_defined {A B : Type} (f : A -> result B) (l : list A) :
  Forall (fun a => exists b, f a = Ok b) l ->
  exists bs, mapM f l = Ok bs.
Proof.
  induction 1 as [|a l [b Hb] _ [bs Hbs]]; simpl.
  - now exists [].
  - rewrite Hb, Hbs; simpl. now exists (b :: bs).
Qed.

Lemma mapM_Forall2 {A B : Type} (f : A -> result B) (l : list A) (bs : list B) :
  mapM f l = Ok bs -> Forall2 (fun a b => f a = Ok b) l bs.
Proof.
  revert bs; induction l as [|a l IH]; simpl; intros bs H.
  - injection H as <-. constructor.
  - destruct (f a) as [b|] eqn:Hb; simpl in H; [|discriminate].
    destruct (mapM f l) as [bs'|]; simpl in H; [|discriminate].
    injection H as <-. constructor; auto.
Qed.

Lemma mapM_raises {A B : Type} (f : A -> result B) (l : list A) (e : exn) :
  mapM f l = Raise e -> exists a, In a l /\ f a = Raise e.
Proof.
  induction l as [|a l IH]; simpl; [discriminate|].
  destruct (f a) as [b|e'] eqn:Hb; simpl.
  - destruct (mapM f l) as [bs|e'']; simpl; [discriminate|].
    intros H; injection H as ->.
    destruct IH as [a' [Hin Ha']]; [reflexivity|]. exists a'; auto.
  - intros H; injection H as ->. exists a; auto.
Qed.

(* ------------------------------------------------------------------ *)
(** ** Text encoding *)

Lemma encode_codepoint_scalar (c : Z) :
  scalar_value c -> exists bs, encode_codepoint c = Ok bs.
Proof.
  intros [Hrange Hsurr]; unfold encode_codepoint.
  destruct (c <? 0) eqn:H0; [lia|].
  destruct (c <? 0x80); [eauto|].
  destruct (c <? 0x800); [eauto|].
  destruct ((0xD800 <=? c) && (c <=? 0xDFFF)) eqn:H1.
  - apply andb_true_iff in H1 as [H1 H2]. lia.
  - destruct (c <? 0x10000); [eauto|].
    destruct (c <? 0x110000) eqn:H2; [eauto|lia].
Qed.

Lemma encode_codepoint_defined (c : Z) (bs : bytes) :
  encode_codepoint c = Ok bs -> scalar_value c.
Proof.
  unfold encode_codepoint, scalar_value.
  destruct (c <? 0) eqn:H0; [discriminate|].
  destruct (c <? 0x80) eqn:H1; [lia|].
  destruct (c <? 0x800) eqn:H2; [lia|].
  destruct ((0xD800 <=? c) && (c <=? 0xDFFF)) eqn:H3; [discriminate|].
  apply andb_false_iff in H3.
  destruct (c <? 0x10000) eqn:H4; [lia|].
  destruct (c <? 0x110000) eqn:H5; [lia|discriminate].
Qed.

(** [encode] returns exactly on the strings of scalar values. *)
Lemma encode_defined_iff (s : str) :
  (exists bs, encode s = Ok bs) <-> Forall scalar_value s.
Proof.
  unfold encode; split.
  - intros [bs H].
    destruct (mapM encode_codepoint s) as [chunks|] eqn:Hm; [|discriminate].
    apply mapM_Forall2 in Hm. clear H.
    induction Hm; constructor; eauto using encode_codepoint_defined.
  - intros H.
    destruct (mapM_defined encode_codepoint s) as [chunks ->].
    + eapply Forall_impl; [|exact H]. apply encode_codepoint_scalar.
    + simpl; eauto.
Qed.

(* ------------------------------------------------------------------ *)
(** ** Shape of a hexadecimal digest *)

Lemma Z_of_byte_range (b : byte) : 0 <= Z_of_byte b < 256.
Proof. destruct b; vm_compute; split; congruence. Qed.

Lemma hex_digit_lower (n : Z) : 0 <= n < 16 -> lower_hex_char (hex_digit n).
Proof.
  intros H; unfold hex_digit, lower_hex_char.
  destruct (n <? 10) eqn:E; lia.
Qed.

Lemma hex_length (bs : bytes) : length (hex bs) = (2 * length bs)%nat.
Proof.
  unfold hex; induction bs as [|b bs IH]; simpl; [reflexivity|].
  rewrite IH; lia.
Qed.

Lemma hex_lower (bs : bytes) : Forall lower_hex_char (hex bs).
Proof.
  unfold hex; induction bs as [|b bs IH]; simpl; [constructor|].
  pose proof (Z_of_byte_range b) as Hb.
  constructor; [|constructor; [|exact IH]]; apply hex_digit_lower.
  - rewrite Z.shiftr_div_pow2 by lia.
    change (2 ^ 4) with 16.
    split; [apply Z.div_pos; lia | apply Z.div_lt_upper_bound; lia].
  - change 15 with (Z.ones 4). rewrite Z.land_ones by lia.
    change (2 ^ 4) with 16. apply Z.mod_pos_bound; lia.
Qed.

(** A digest is 256 bits long, whatever was absorbed. *)
Lemma digest_length (h : hashlib.hash) : length (hashlib.digest h) = 32%nat.
Proof. reflexivity. Qed.

Lemma hexdigest_length (h : hashlib.hash) :
  length (hashlib.hexdigest h) = 64%nat.
Proof. unfold hashlib.hexdigest. now rewrite hex_length, digest_length. Qed.

(* ------------------------------------------------------------------ *)
(** ** The exchange *)

(** Key pairs are two runs of 32 bytes and a ciphertext is 64 bytes,
    whatever the entropy source holds. *)
Lemma urandom_length (n : nat) (w : os.entropy) :
  length (fst (os.urandom n w)) = n.
Proof. unfold os.urandom; simpl. now rewrite length_map, length_seq. Qed.

Lemma kyber_keygen_lengths (w : os.entropy) :
  exists public_key secret_key w',
    kyber_keygen w = (Ok (public_key, secret_key), w')
    /\ length public_key = 32%nat /\ length secret_key = 32%nat.
Proof.
  unfold kyber_keygen, seqp, draw, ret.
  destruct (os.urandom 32 w) as [pk w1] eqn:E1.
  destruct (os.urandom 32 w1) as [sk w2] eqn:E2.
  exists pk, sk, w2. split; [reflexivity|].
  pose proof (urandom_length 32 w) as H1. rewrite E1 in H1.
  pose proof (urandom_length 32 w1) as H2. rewrite E2 in H2.
  auto.
Qed.

(** C1. Whenever [kyber_encapsulate] returns a ciphertext and the sender's
    secret, [kyber_decapsulate] on that ciphertext, any secret key, and the
    same message and public key returns the same secret. *)
Theorem shared_secrets_match :
  forall (public_key secret_key : bytes) (message : str)
         (w w' : os.entropy) (ciphertext : bytes) (sender_secret : str),
    kyber_encapsulate public_key message w
      = (Ok (ciphertext, sender_secret), w') ->
    kyber_decapsulate ciphertext secret_key message public_key
      = Ok sender_secret.
Proof.
  intros pk sk m w w' ct ss H.
  unfold kyber_encapsulate, seqp, draw, lift, ret in H.
  unfold kyber_decapsulate.
  destruct (os.urandom 64 w) as [bs w1].
  destruct (derive_shared_secret m pk) as [s|e]; [|discriminate].
  now injection H as _ <- _.
Qed.

Lemma shared_secrets_match_witness :
  kyber_encapsulate sample_public_key (py "hello") entropy_after_keygen
    = (Ok (fst (os.urandom 64 entropy_after_keygen),
           py "bb88150b11e2d397d1807bb44785661951f5c9f0135f93ece9399df38df132b3"),
       snd (os.urandom 64 entropy_after_keygen))
  /\ kyber_decapsulate (fst (os.urandom 64 entropy_after_keygen))
       sample_secret_key (py "hello") sample_public_key
     = Ok (py "bb88150b11e2d397d1807bb44785661951f5c9f0135f93ece9399df38df132b3").
Proof.
  assert (H : kyber_encapsulate sample_public_key (py "hello")
                entropy_after_keygen
    = (Ok (fst (os.urandom 64 entropy_after_keygen),
           py "bb88150b11e2d397d1807bb44785661951f5c9f0135f93ece9399df38df132b3"),
       snd (os.urandom 64 entropy_after_keygen))) by (vm_compute; reflexivity).
  split; [exact H|].
  exact (shared_secrets_match sample_public_key sample_secret_key (py "hello")
           entropy_after_keygen _ _ _ H).
Defined.

(* ------------------------------------------------------------------ *)
(** ** The deriver *)

(** [derive_shared_secret] returns exactly when [encode] does. *)
Lemma derive_shared_secret_unfold (message : str) (public_key : bytes) :
  derive_shared_secret message public_key
  = match encode message with
    | Ok utf8 =>
        Ok (hashlib.hexdigest (hashlib.sha256 (utf8 ++ public_key)))
    | Raise e => Raise e
    end.
Proof. unfold derive_shared_secret, bind. now destruct (encode message). Qed.

(** C2, as stated, fails: the one-character message made of the lone
    surrogate U+D800 is a [str], [encode] raises UnicodeEncodeError on it,
    and [derive_shared_secret] returns no string at all. *)
Lemma derive_shared_secret_lone_surrogate :
  derive_shared_secret [0xD800] [] = Raise UnicodeEncodeError
  /\ ~ (exists secret : str,
          derive_shared_secret [0xD800] [] = Ok secret
          /\ length secret = 64%nat
          /\ Forall lower_hex_char secret).
Proof.
  split; [reflexivity|].
  intros [secret [H _]]. discriminate H.
Qed.

(** C2, amended. For every message made of Unicode scalar values (no
    surrogate code point), the empty one included, and every public key,
    [derive_shared_secret] returns a string of exactly 64 characters, all in
    [0-9a-f]: the lowercase hexadecimal form of the 32-byte digest of the
    UTF-8 encoding of the message followed by the bytes of the key. *)
Theorem derive_shared_secret_shape :
  forall (message : str) (public_key : bytes),
    Forall scalar_value message ->
    exists (secret : str) (utf8 digest : bytes),
      derive_shared_secret message public_key = Ok secret
      /\ length secret = 64%nat
      /\ Forall lower_hex_char secret
      /\ encode message = Ok utf8
      /\ digest = hashlib.digest (hashlib.sha256 (utf8 ++ public_key))
      /\ length digest = 32%nat
      /\ secret = hex digest.
Proof.
  intros m pk Hm.
  apply encode_defined_iff in Hm as [utf8 Hutf8].
  exists (hashlib.hexdigest (hashlib.sha256 (utf8 ++ pk))), utf8,
         (hashlib.digest (hashlib.sha256 (utf8 ++ pk))).
  rewrite derive_shared_secret_unfold, Hutf8.
  split; [reflexivity|].
  split; [apply hexdigest_length|].
  split; [apply hex_lower|].
  split; [reflexivity|].
  split; [reflexivity|].
  split; [apply digest_length|reflexivity].
Qed.

Lemma derive_shared_secret_shape_witness :
  Forall scalar_value [104; 233; 0x20AC; 0x1F510]
  /\ exists (secret : str) (utf8 digest : bytes),
      derive_shared_secret [104; 233; 0x20AC; 0x1F510] sample_public_key
        = Ok secret
      /\ length secret = 64%nat
      /\ Forall lower_hex_char secret
      /\ encode [104; 233; 0x20AC; 0x1F510] = Ok utf8
      /\ digest = hashlib.digest (hashlib.sha256 (utf8 ++ sample_public_key))
      /\ length digest = 32%nat
      /\ secret = hex digest.
Proof.
  assert (H : Forall scalar_value [104; 233; 0x20AC; 0x1F510])
    by (repeat (apply Forall_cons; [unfold scalar_value; lia|]);
        apply Forall_nil).
  split; [exact H|].
  exact (derive_shared_secret_shape [104; 233; 0x20AC; 0x1F510]
           sample_public_key H).
Defined.

(* ------------------------------------------------------------------ *)
(** ** The embedding and the standards

    [str.encode], [hashlib.sha256] and [bytes.hex] as they are embedded
    above compute what RFC 3629, FIPS 180-4 and positional notation define,
    on every input. *)

(** ** Words *)

Lemma lor_disjoint (a b k : Z) :
  0 <= k -> 0 <= a < 2 ^ k -> Z.lor a (b * 2 ^ k) = a + b * 2 ^ k.
Proof.
  intros Hk Ha.
  assert (E : Z.land a (b * 2 ^ k) = 0).
  { apply Z.bits_inj'; intros i Hi.
    rewrite Z.land_spec, Z.bits_0.
    destruct (Z_lt_le_dec i k) as [Hlt|Hge].
    - rewrite Z.mul_pow2_bits_low by lia. apply andb_false_r.
    - destruct (Z.eq_dec a 0) as [->|Hne]; [now rewrite Z.bits_0|].
      rewrite (Z.bits_above_log2 a i); [reflexivity|lia|].
      apply Z.log2_lt_pow2; [lia|].
      apply Z.lt_le_trans with (2 ^ k); [lia|].
      apply Z.pow_le_mono_r; lia. }
  rewrite <- Z.lxor_lor by exact E.
  symmetry. now apply Z.add_nocarry_lxor.
Qed.

Lemma rotr_ROTR (n x : Z) :
  0 < n < 32 -> word x -> hashlib.rotr n x = FIPS180.ROTR n x.
Proof.
  intros Hn Hx. unfold hashlib.rotr, FIPS180.ROTR, hashlib.wrap, word in *.
  rewrite Z.shiftr_div_pow2, Z.shiftl_mul_pow2 by lia.
  assert (E32 : 2 ^ 32 = 2 ^ n * 2 ^ (32 - n))
    by (rewrite <- Z.pow_add_r by lia; f_equal; lia).
  assert (Hp : 0 < 2 ^ n) by (apply Z.pow_pos_nonneg; lia).
  assert (Hq : 0 < 2 ^ (32 - n)) by (apply Z.pow_pos_nonneg; lia).
  rewrite E32 at 1. rewrite Z.mul_mod_distr_r by lia.
  apply lor_disjoint; [lia|]. split.
  - apply Z.div_pos; lia.
  - apply Z.div_lt_upper_bound; [lia|]. lia.
Qed.

Lemma Ch_Ch (x y z : Z) : word z -> hashlib.Ch x y z = FIPS180.Ch x y z.
Proof.
  intros Hz. unfold hashlib.Ch, FIPS180.Ch. f_equal.
  apply Z.bits_inj'; intros i Hi.
  rewrite !Z.land_spec, Z.lxor_spec, Z.lnot_spec by lia.
  change 0xFFFFFFFF with (Z.ones 32).
  destruct (Z_lt_le_dec i 32) as [Hlt|Hge].
  - rewrite Z.ones_spec_low by lia. now rewrite xorb_true_r.
  - destruct (Z.eq_dec z 0) as [->|Hne]; [now rewrite Z.bits_0, !andb_false_r|].
    rewrite (Z.bits_above_log2 z i); [now rewrite !andb_false_r|unfold word in Hz; lia|].
    apply Z.log2_lt_pow2; [unfold word in Hz; lia|].
    apply Z.lt_le_trans with (2 ^ 32); [unfold word in Hz; lia|].
    apply Z.pow_le_mono_r; lia.
Qed.

Lemma Sigma0_Sigma0 (x : Z) : word x -> hashlib.Sigma0 x = FIPS180.Sigma0 x.
Proof.
  intros H. unfold hashlib.Sigma0, FIPS180.Sigma0.
  now rewrite !rotr_ROTR by (exact H || lia).
Qed.

Lemma Sigma1_Sigma1 (x : Z) : word x -> hashlib.Sigma1 x = FIPS180.Sigma1 x.
Proof.
  intros H. unfold hashlib.Sigma1, FIPS180.Sigma1.
  now rewrite !rotr_ROTR by (exact H || lia).
Qed.

Lemma sigma0_sigma0 (x : Z) : word x -> hashlib.sigma0 x = FIPS180.sigma0 x.
Proof.
  intros H. unfold hashlib.sigma0, FIPS180.sigma0, FIPS180.SHR.
  rewrite !rotr_ROTR by (exact H || lia).
  now rewrite Z.shiftr_div_pow2 by lia.
Qed.

Lemma sigma1_sigma1 (x : Z) : word x -> hashlib.sigma1 x = FIPS180.sigma1 x.
Proof.
  intros H. unfold hashlib.sigma1, FIPS180.sigma1, FIPS180.SHR.
  rewrite !rotr_ROTR by (exact H || lia).
  now rewrite Z.shiftr_div_pow2 by lia.
Qed.

Lemma word_add32 (x y : Z) : word (hashlib.add32 x y).
Proof. unfold word, hashlib.add32, hashlib.wrap. apply Z.mod_pos_bound. lia. Qed.

(** ** Octets *)

Lemma Z_of_byte_of_Z (v : Z) : 0 <= v < 256 -> Z_of_byte (byte_of_Z v) = v.
Proof.
  intros H. unfold Z_of_byte, byte_of_Z.
  rewrite Z.mod_small by exact H.
  destruct (Byte.of_N (Z.to_N v)) as [b|] eqn:E.
  - apply Byte.to_of_N in E. rewrite E. lia.
  - apply Byte.of_N_None_iff in E. lia.
Qed.

Lemma lor_high (hi lo k : Z) :
  0 <= k -> 0 <= lo < 2 ^ k -> hi mod 2 ^ k = 0 -> Z.lor hi lo = hi + lo.
Proof.
  intros Hk Hlo Hhi.
  assert (Hp : 0 < 2 ^ k) by (apply Z.pow_pos_nonneg; lia).
  rewrite (Z.div_mod hi (2 ^ k)) by lia. rewrite Hhi, Z.add_0_r.
  rewrite Z.lor_comm, (Z.mul_comm (2 ^ k)), lor_disjoint by lia. lia.
Qed.

Lemma land_low (x k : Z) : 0 <= k -> Z.land x (2 ^ k - 1) = x mod 2 ^ k.
Proof.
  intros Hk. rewrite <- Z.land_ones by exact Hk.
  f_equal. rewrite Z.ones_equiv. lia.
Qed.

(** [str.encode()] agrees with RFC 3629 on every character number. *)
Lemma encode_codepoint_octets (c : Z) :
  match RFC3629.octets c with
  | Some o => exists bs, encode_codepoint c = Ok bs /\ map Z_of_byte bs = o
  | None => encode_codepoint c = Raise UnicodeEncodeError
  end.
Proof.
  unfold RFC3629.octets, encode_codepoint.
  change 0x3F with (2 ^ 6 - 1).
  rewrite !land_low, !Z.shiftr_div_pow2 by lia.
  change (2 ^ 6) with 64. change (2 ^ 12) with 4096.
  change (2 ^ 18) with 262144.
  destruct (Z.ltb_spec c 0) as [H0|H0].
  { replace ((0 <=? c) && (c <=? 127)) with false
      by (symmetry; apply andb_false_iff; left; apply Z.leb_gt; lia).
    replace ((128 <=? c) && (c <=? 2047)) with false
      by (symmetry; apply andb_false_iff; left; apply Z.leb_gt; lia).
    replace ((2048 <=? c) && (c <=? 55295)) with false
      by (symmetry; apply andb_false_iff; left; apply Z.leb_gt; lia).
    replace ((57344 <=? c) && (c <=? 65535)) with false
      by (symmetry; apply andb_false_iff; left; apply Z.leb_gt; lia).
    replace ((65536 <=? c) && (c <=? 1114111)) with false
      by (symmetry; apply andb_false_iff; left; apply Z.leb_gt; lia).
    reflexivity. }
  destruct (Z.ltb_spec c 0x80) as [H1|H1].
  { replace ((0 <=? c) && (c <=? 127)) with true
      by (symmetry; apply andb_true_iff; split; apply Z.leb_le; lia).
    eexists; split; [reflexivity|]. cbn [map].
    now rewrite Z_of_byte_of_Z by lia. }
  replace ((0 <=? c) && (c <=? 127)) with false
    by (symmetry; apply andb_false_iff; right; apply Z.leb_gt; lia).
  destruct (Z.ltb_spec c 0x800) as [H2|H2].
  { replace ((128 <=? c) && (c <=? 2047)) with true
      by (symmetry; apply andb_true_iff; split; apply Z.leb_le; lia).
    eexists; split; [reflexivity|]. cbn [map].
    pose proof (Z.mod_pos_bound c 64 ltac:(lia)).
    assert (0 <= c / 64 < 32)
      by (split; [apply Z.div_pos; lia|apply Z.div_lt_upper_bound; lia]).
    rewrite (lor_high 0xC0 (c / 64) 5), (lor_high 0x80 (c mod 64) 6)
      by (try reflexivity; lia).
    now rewrite !Z_of_byte_of_Z by lia. }
  replace ((128 <=? c) && (c <=? 2047)) with false
    by (symmetry; apply andb_false_iff; right; apply Z.leb_gt; lia).
  destruct ((0xD800 <=? c) && (c <=? 0xDFFF)) eqn:Es.
  { apply andb_true_iff in Es as [Ea Eb].
    apply Z.leb_le in Ea, Eb.
    replace ((2048 <=? c) && (c <=? 55295)) with false
      by (symmetry; apply andb_false_iff; right; apply Z.leb_gt; lia).
    replace ((57344 <=? c) && (c <=? 65535)) with false
      by (symmetry; apply andb_false_iff; left; apply Z.leb_gt; lia).
    replace ((65536 <=? c) && (c <=? 1114111)) with false
      by (symmetry; apply andb_false_iff; left; apply Z.leb_gt; lia).
    reflexivity. }
  assert (Hs : c < 0xD800 \/ 0xDFFF < c).
  { apply andb_false_iff in Es as [Ea|Eb];
      [apply Z.leb_gt in Ea|apply Z.leb_gt in Eb]; lia. }
  destruct (Z.ltb_spec c 0x10000) as [H3|H3].
  { replace ((2048 <=? c) && (c <=? 55295) || (57344 <=? c) && (c <=? 65535))
      with true.
    2:{ symmetry. apply orb_true_iff. destruct Hs; [left|right];
          apply andb_true_iff; split; apply Z.leb_le; lia. }
    eexists; split; [reflexivity|]. cbn [map].
    pose proof (Z.mod_pos_bound c 64 ltac:(lia)).
    pose proof (Z.mod_pos_bound (c / 64) 64 ltac:(lia)).
    assert (0 <= c / 4096 < 16)
      by (split; [apply Z.div_pos; lia|apply Z.div_lt_upper_bound; lia]).
    rewrite (lor_high 0xE0 (c / 4096) 4), (lor_high 0x80 (c mod 64) 6),
      (lor_high 0x80 (c / 64 mod 64) 6) by (try reflexivity; lia).
    now rewrite !Z_of_byte_of_Z by lia. }
  replace ((2048 <=? c) && (c <=? 55295) || (57344 <=? c) && (c <=? 65535))
    with false.
  2:{ symmetry. apply orb_false_iff. split; apply andb_false_iff; right;
        apply Z.leb_gt; lia. }
  destruct (Z.ltb_spec c 0x110000) as [H4|H4].
  { replace ((65536 <=? c) && (c <=? 1114111)) with true
      by (symmetry; apply andb_true_iff; split; apply Z.leb_le; lia).
    eexists; split; [reflexivity|]. cbn [map].
    pose proof (Z.mod_pos_bound c 64 ltac:(lia)).
    pose proof (Z.mod_pos_bound (c / 64) 64 ltac:(lia)).
    pose proof (Z.mod_pos_bound (c / 4096) 64 ltac:(lia)).
    assert (0 <= c / 262144 < 8)
      by (split; [apply Z.div_pos; lia|apply Z.div_lt_upper_bound; lia]).
    rewrite (lor_high 0xF0 (c / 262144) 3), (lor_high 0x80 (c mod 64) 6),
      (lor_high 0x80 (c / 64 mod 64) 6), (lor_high 0x80 (c / 4096 mod 64) 6)
      by (try reflexivity; lia).
    now rewrite !Z_of_byte_of_Z by lia. }
  replace ((65536 <=? c) && (c <=? 1114111)) with false
    by (symmetry; apply andb_false_iff; right; apply Z.leb_gt; lia).
  reflexivity.
Qed.

Lemma encode_utf8 (s : str) :
  match RFC3629.utf8 s with
  | Some o => exists bs, encode s = Ok bs /\ map Z_of_byte bs = o
  | None => encode s = Raise UnicodeEncodeError
  end.
Proof.
  unfold encode. induction s as [|c s IH]; cbn [RFC3629.utf8 mapM].
  - exists []. split; reflexivity.
  - pose proof (encode_codepoint_octets c) as Hc.
    destruct (RFC3629.octets c) as [o|].
    + destruct Hc as [bs [-> <-]]. cbn [bind].
      destruct (RFC3629.utf8 s) as [rest|].
      * destruct IH as [bs' [IH <-]].
        destruct (mapM encode_codepoint s) as [chunks|e]; [|discriminate].
        cbn [bind] in IH |- *. injection IH as <-.
        eexists; split; [reflexivity|].
        cbn [concat]. now rewrite map_app.
      * destruct (mapM encode_codepoint s) as [chunks|e]; [discriminate|].
        cbn [bind] in IH |- *. exact IH.
    + rewrite Hc. reflexivity.
Qed.

(** ** Hexadecimal *)

Lemma hex_digit_alphabet (n : Z) :
  0 <= n < 16 -> hex_digit n = nth (Z.to_nat n) hex_alphabet 0.
Proof.
  intros H. rewrite <- (Z2Nat.id n) at 1 by lia.
  assert (Hk : (Z.to_nat n < 16)%nat) by lia.
  revert Hk. generalize (Z.to_nat n) as k. intros k Hk.
  do 16 (destruct k as [|k]; [reflexivity|]). lia.
Qed.

Lemma hex_hexadecimal (bs : bytes) :
  hex bs = hexadecimal (map Z_of_byte bs).
Proof.
  unfold hex, hexadecimal. induction bs as [|b bs IH]; [reflexivity|].
  cbn [flat_map map]. rewrite IH. f_equal.
  pose proof (Z_of_byte_range b) as Hb.
  rewrite Z.shiftr_div_pow2 by lia. change 15 with (2 ^ 4 - 1).
  rewrite land_low by lia. change (2 ^ 4) with 16.
  rewrite !hex_digit_alphabet; [reflexivity| |].
  - apply Z.mod_pos_bound; lia.
  - split; [apply Z.div_pos; lia|apply Z.div_lt_upper_bound; lia].
Qed.

(** ** Padding *)

Lemma find_ext_in {A : Type} (f g : A -> bool) (l : list A) :
  (forall x, In x l -> f x = g x) -> find f l = find g l.
Proof.
  induction l as [|a l IH]; intros H; [reflexivity|].
  cbn [find]. rewrite (H a) by now left.
  destruct (g a); [reflexivity|]. apply IH. intros x Hx. apply H. now right.
Qed.

Lemma zero_octets_table :
  forallb (fun r => (FIPS180.zero_octets r
                     =? Z.to_nat ((55 - Z.of_nat r) mod 64))%nat)
          (seq 0 64) = true.
Proof. vm_compute. reflexivity. Qed.

Lemma zero_octets_mod (len : nat) :
  FIPS180.zero_octets len = Z.to_nat ((55 - Z.of_nat len) mod 64).
Proof.
  pose proof (Nat.div_mod_eq len 64) as E.
  pose proof (Nat.mod_upper_bound len 64 ltac:(lia)) as Hr.
  set (r := (len mod 64)%nat) in *.
  assert (E1 : FIPS180.zero_octets len = FIPS180.zero_octets r).
  { unfold FIPS180.zero_octets.
    rewrite (find_ext_in (fun k => ((len + 1 + k) mod 64 =? 56)%nat)
                         (fun k => ((r + 1 + k) mod 64 =? 56)%nat));
      [reflexivity|].
    intros k _. f_equal.
    rewrite E at 1.
    replace (64 * (len / 64) + r + 1 + k)%nat
      with (r + 1 + k + (len / 64) * 64)%nat by lia.
    apply Nat.Div0.mod_add. }
  assert (E2 : (55 - Z.of_nat len) mod 64 = (55 - Z.of_nat r) mod 64).
  { rewrite E at 1.
    replace (55 - Z.of_nat (64 * (len / 64) + r))
      with (55 - Z.of_nat r + (- Z.of_nat (len / 64)) * 64) by lia.
    apply Z_mod_plus_full. }
  rewrite E1, E2.
  pose proof zero_octets_table as T. rewrite forallb_forall in T.
  apply Nat.eqb_eq, T, in_seq. lia.
Qed.

Lemma div_mod_of_mod (x a b c : Z) :
  0 < a -> 0 < b ->
  (x mod (a * b * c)) / a mod b = x / a mod b.
Proof.
  intros Ha Hb.
  destruct (Z.eq_dec c 0) as [->|Hc].
  { now rewrite Z.mul_0_r, Z.mod_0_r. }
  rewrite (Z.mod_eq x (a * b * c)) by nia.
  replace (x - a * b * c * (x / (a * b * c)))
    with (x + (- (b * c * (x / (a * b * c)))) * a) by lia.
  rewrite Z.div_add by lia.
  replace (x / a + - (b * c * (x / (a * b * c))))
    with (x / a + (- (c * (x / (a * b * c)))) * b) by lia.
  apply Z_mod_plus_full.
Qed.

Lemma be_bytes_8_length_field (x : Z) :
  hashlib.be_bytes 8 (x mod 2 ^ 64) = FIPS180.length_field x.
Proof.
  unfold hashlib.be_bytes, FIPS180.length_field.
  cbn [seq rev List.app map].
  change 255 with (2 ^ 8 - 1).
  rewrite !land_low, !Z.shiftr_div_pow2 by lia.
  change (2 ^ 8) with 256.
  change (2 ^ (8 * Z.of_nat 7)) with (256 ^ 7).
  change (2 ^ (8 * Z.of_nat 6)) with (256 ^ 6).
  change (2 ^ (8 * Z.of_nat 5)) with (256 ^ 5).
  change (2 ^ (8 * Z.of_nat 4)) with (256 ^ 4).
  change (2 ^ (8 * Z.of_nat 3)) with (256 ^ 3).
  change (2 ^ (8 * Z.of_nat 2)) with (256 ^ 2).
  change (2 ^ (8 * Z.of_nat 1)) with (256 ^ 1).
  change (2 ^ (8 * Z.of_nat 0)) with (256 ^ 0).
  change (7 - Z.of_nat 0) with 7. change (7 - Z.of_nat 1) with 6.
  change (7 - Z.of_nat 2) with 5. change (7 - Z.of_nat 3) with 4.
  change (7 - Z.of_nat 4) with 3. change (7 - Z.of_nat 5) with 2.
  change (7 - Z.of_nat 6) with 1. change (7 - Z.of_nat 7) with 0.
  change (2 ^ 64) with (256 ^ 7 * 256 * 1) at 1.
  change (2 ^ 64) with (256 ^ 6 * 256 * 256) at 1.
  change (2 ^ 64) with (256 ^ 5 * 256 * 256 ^ 2) at 1.
  change (2 ^ 64) with (256 ^ 4 * 256 * 256 ^ 3) at 1.
  change (2 ^ 64) with (256 ^ 3 * 256 * 256 ^ 4) at 1.
  change (2 ^ 64) with (256 ^ 2 * 256 * 256 ^ 5) at 1.
  change (2 ^ 64) with (256 ^ 1 * 256 * 256 ^ 6) at 1.
  change (2 ^ 64) with (256 ^ 0 * 256 * 256 ^ 7) at 1.
  now rewrite !div_mod_of_mod by lia.
Qed.

Lemma pad_padded (msg : list Z) : hashlib.pad msg = FIPS180.padded msg.
Proof.
  unfold hashlib.pad, FIPS180.padded.
  now rewrite zero_octets_mod, be_bytes_8_length_field.
Qed.

(** ** Blocks and their words *)

Lemma blocks_by_index (N : nat) :
  forall (fuel : nat) (l : list Z),
    length l = (64 * N)%nat -> (N <= fuel)%nat ->
    hashlib.blocks fuel l
    = map (fun i => firstn 64 (skipn (64 * i) l)) (seq 0 N).
Proof.
  induction N as [|N IH]; intros fuel l Hl Hf.
  - destruct l; [|cbn [length] in Hl; lia]. now destruct fuel.
  - destruct fuel as [|fuel]; [lia|].
    destruct l as [|b l]; [cbn [length] in Hl; lia|].
    cbn [hashlib.blocks seq map]. rewrite Nat.mul_0_r, skipn_O. f_equal.
    rewrite (IH fuel) by (rewrite ?length_skipn; lia).
    rewrite <- seq_shift, map_map.
    apply map_ext; intros i. f_equal. rewrite skipn_skipn. f_equal. lia.
Qed.

Lemma be_words_by_index (n : nat) :
  forall (fuel : nat) (l : list Z),
    length l = (4 * n)%nat -> (n <= fuel)%nat ->
    hashlib.be_words fuel l
    = map (fun t => nth (4 * t) l 0 * 256 ^ 3 + nth (4 * t + 1) l 0 * 256 ^ 2
                    + nth (4 * t + 2) l 0 * 256 + nth (4 * t + 3) l 0)
          (seq 0 n).
Proof.
  induction n as [|n IH]; intros fuel l Hl Hf.
  - destruct l; [|cbn [length] in Hl; lia]. now destruct fuel.
  - destruct fuel as [|fuel]; [lia|].
    destruct l as [|b0 [|b1 [|b2 [|b3 l]]]]; try (cbn [length] in Hl; lia).
    cbn [hashlib.be_words seq map]. apply (f_equal2 cons); [reflexivity|].
    rewrite (IH fuel) by (cbn [length] in Hl; lia).
    rewrite <- seq_shift, map_map.
    apply map_ext; intros t.
    replace (4 * S t)%nat with (S (S (S (S (4 * t))))) by lia.
    reflexivity.
Qed.

Lemma block_words (P : list Z) (i : nat) :
  (64 * i + 64 <= length P)%nat ->
  hashlib.be_words 16 (firstn 64 (skipn (64 * i) P))
  = map (FIPS180.M P i) (seq 0 16).
Proof.
  intros Hi.
  rewrite (be_words_by_index 16)
    by (rewrite ?length_firstn, ?length_skipn; lia).
  apply map_ext_in; intros t Ht. apply in_seq in Ht.
  unfold FIPS180.M. rewrite !nth_firstn, !nth_skipn.
  repeat match goal with
         | |- context [(?a <? 64)%nat] =>
             replace (a <? 64)%nat with true
               by (symmetry; apply Nat.ltb_lt; lia)
         end.
  rewrite !Nat.add_assoc. reflexivity.
Qed.

(** ** The message schedule *)

Lemma W_length (P : list Z) (i t : nat) : length (FIPS180.W P i t) = t.
Proof.
  induction t as [|t IH]; [reflexivity|].
  cbn [FIPS180.W]. rewrite length_app, IH. simpl. lia.
Qed.

Lemma W_first (P : list Z) (i t : nat) :
  (t <= 16)%nat -> FIPS180.W P i t = map (FIPS180.M P i) (seq 0 t).
Proof.
  induction t as [|t IH]; intros Ht; [reflexivity|].
  cbn [FIPS180.W]. rewrite IH by lia.
  replace (t <? 16)%nat with true by (symmetry; apply Nat.ltb_lt; lia).
  now rewrite seq_S, map_app.
Qed.

Lemma M_word (P : list Z) (i t : nat) :
  Forall octet P -> word (FIPS180.M P i t).
Proof.
  intros HP. unfold FIPS180.M, word.
  assert (Hn : forall k, octet (nth k P 0)).
  { intros k. destruct (Nat.lt_ge_cases k (length P)) as [Hk|Hk].
    - rewrite Forall_forall in HP. apply HP. now apply nth_In.
    - rewrite nth_overflow by exact Hk. unfold octet; lia. }
  pose proof (Hn (64 * i + 4 * t)%nat).
  pose proof (Hn (64 * i + 4 * t + 1)%nat).
  pose proof (Hn (64 * i + 4 * t + 2)%nat).
  pose proof (Hn (64 * i + 4 * t + 3)%nat).
  unfold octet in *. change (256 ^ 3) with 16777216.
  change (256 ^ 2) with 65536. change (2 ^ 32) with 4294967296. lia.
Qed.

Lemma word_plus (x y : Z) : word (FIPS180.plus x y).
Proof. unfold word, FIPS180.plus. apply Z.mod_pos_bound. lia. Qed.

Lemma W_words (P : list Z) (i t : nat) :
  Forall octet P -> Forall word (FIPS180.W P i t).
Proof.
  intros HP. induction t as [|t IH]; [constructor|].
  cbn [FIPS180.W]. apply Forall_app. split; [exact IH|].
  constructor; [|constructor].
  destruct (t <? 16)%nat; [now apply M_word|apply word_plus].
Qed.

Lemma nth_word (l : list Z) (k : nat) : Forall word l -> word (nth k l 0).
Proof.
  intros Hl. destruct (Nat.lt_ge_cases k (length l)) as [Hk|Hk].
  - rewrite Forall_forall in Hl. apply Hl. now apply nth_In.
  - rewrite nth_overflow by exact Hk. unfold word; lia.
Qed.

Lemma extend_W (P : list Z) (i n t : nat) :
  Forall octet P -> (16 <= t)%nat ->
  hashlib.extend n (rev (FIPS180.W P i t)) = rev (FIPS180.W P i (t + n)).
Proof.
  intros HP. revert t; induction n as [|n IH]; intros t Ht.
  - now rewrite Nat.add_0_r.
  - cbn [hashlib.extend].
    replace (t + S n)%nat with (S t + n)%nat by lia.
    rewrite <- IH by lia. f_equal.
    cbn [FIPS180.W]. rewrite rev_app_distr. cbn [rev List.app]. f_equal.
    replace (t <? 16)%nat with false by (symmetry; apply Nat.ltb_ge; lia).
    pose proof (W_words P i t HP) as Hw.
    rewrite !rev_nth by (rewrite W_length; lia). rewrite W_length.
    replace (t - 2)%nat with (t - 2)%nat by lia.
    replace (t - 7)%nat with (t - 7)%nat by lia.
    rewrite sigma1_sigma1, sigma0_sigma0 by (now apply nth_word).
    reflexivity.
Qed.

Lemma schedule_W (P : list Z) (i : nat) :
  Forall octet P -> (64 * i + 64 <= length P)%nat ->
  hashlib.schedule (firstn 64 (skipn (64 * i) P)) = FIPS180.W P i 64.
Proof.
  intros HP Hi. unfold hashlib.schedule.
  rewrite block_words by exact Hi.
  rewrite <- (W_first P i 16) by lia.
  rewrite (extend_W P i 48 16) by (exact HP || lia).
  now rewrite rev_involutive.
Qed.

(** ** The rounds *)

Lemma words8 (a b c d e f g h : Z) :
  word a -> word b -> word c -> word d ->
  word e -> word f -> word g -> word h ->
  words (hashlib.mkState a b c d e f g h).
Proof.
  intros; unfold words; cbn.
  repeat (apply Forall_cons; [assumption|]). apply Forall_nil.
Qed.

Lemma words_inv (s : hashlib.state) :
  words s ->
  word (hashlib.ha s) /\ word (hashlib.hb s) /\ word (hashlib.hc s)
  /\ word (hashlib.hd s) /\ word (hashlib.he s) /\ word (hashlib.hf s)
  /\ word (hashlib.hg s) /\ word (hashlib.hh s).
Proof.
  unfold words. rewrite !Forall_cons_iff. tauto.
Qed.

Lemma round_step (s : hashlib.state) (k w : Z) :
  words s ->
  vars_of (hashlib.round s (k, w)) = FIPS180.step (vars_of s) k w
  /\ words (hashlib.round s (k, w)).
Proof.
  intros Hs. destruct (words_inv s Hs) as (Ha & Hb & Hc & Hd & He & Hf & Hg & Hh).
  split.
  - unfold hashlib.round, vars_of, FIPS180.step. cbn [hashlib.ha hashlib.hb
      hashlib.hc hashlib.hd hashlib.he hashlib.hf hashlib.hg hashlib.hh].
    rewrite (Sigma1_Sigma1 _ He), (Sigma0_Sigma0 _ Ha), (Ch_Ch _ _ _ Hg).
    reflexivity.
  - unfold hashlib.round. apply words8; try assumption; apply word_add32.
Qed.

Lemma firstn_snoc {A : Type} (t : nat) (l : list A) (d : A) :
  (t < length l)%nat -> firstn (S t) l = firstn t l ++ [nth t l d].
Proof.
  revert l; induction t as [|t IH]; intros [|a l] Hl;
    cbn [length] in Hl; try lia; [reflexivity|].
  cbn [firstn nth List.app]. f_equal. apply IH. lia.
Qed.

Lemma K_K : hashlib.K = FIPS180.K.
Proof. vm_compute. reflexivity. Qed.

Lemma rounds_fold (schedule : list Z) (h : hashlib.state) (t : nat) :
  length schedule = 64%nat -> words h -> (t <= 64)%nat ->
  vars_of (fold_left hashlib.round
             (firstn t (combine hashlib.K schedule)) h)
  = FIPS180.rounds t schedule (vars_of h)
  /\ words (fold_left hashlib.round
              (firstn t (combine hashlib.K schedule)) h).
Proof.
  intros Hl Hh. induction t as [|t IH]; intros Ht.
  - split; [reflexivity|exact Hh].
  - destruct IH as [IH Hw]; [lia|].
    assert (HK : length hashlib.K = 64%nat) by reflexivity.
    rewrite (firstn_snoc t _ (0, 0))
      by (rewrite length_combine, HK, Hl; simpl; lia).
    rewrite fold_left_app. cbn [fold_left].
    rewrite combine_nth by (rewrite HK, Hl; reflexivity).
    destruct (round_step _ (nth t hashlib.K 0) (nth t schedule 0) Hw)
      as [E Hw'].
    split; [|exact Hw'].
    rewrite E, IH. cbn [FIPS180.rounds]. now rewrite K_K.
Qed.

Lemma compress_next (h : hashlib.state) (block : list Z) :
  length (hashlib.schedule block) = 64%nat -> words h ->
  vars_of (hashlib.compress h block)
  = FIPS180.next (vars_of h) (hashlib.schedule block)
  /\ words (hashlib.compress h block).
Proof.
  intros Hl Hh.
  destruct (rounds_fold (hashlib.schedule block) h 64 Hl Hh (le_n _))
    as [E Hw].
  rewrite firstn_all2 in E, Hw
    by (rewrite length_combine, Hl; reflexivity).
  unfold hashlib.compress. split.
  - unfold FIPS180.next. rewrite <- E.
    unfold vars_of. cbn [hashlib.ha hashlib.hb hashlib.hc hashlib.hd
                           hashlib.he hashlib.hf hashlib.hg hashlib.hh].
    unfold hashlib.add32, hashlib.wrap, FIPS180.plus.
    repeat (f_equal; try (f_equal; apply Z.add_comm)).
  - apply words8; apply word_add32.
Qed.

(** ** The hash value, block after block *)

Lemma words_H0 : words hashlib.H0.
Proof.
  apply words8; unfold word; cbn [hashlib.H0]; split;
    (discriminate || reflexivity).
Qed.

Lemma H0_H0 : vars_of hashlib.H0 = FIPS180.H0.
Proof. vm_compute. reflexivity. Qed.

Lemma schedule_length (P : list Z) (i : nat) :
  Forall octet P -> (64 * i + 64 <= length P)%nat ->
  length (hashlib.schedule (firstn 64 (skipn (64 * i) P))) = 64%nat.
Proof. intros HP Hi. rewrite schedule_W by assumption. apply W_length. Qed.

Lemma fold_compress_H (P : list Z) (n : nat) :
  Forall octet P -> (64 * n <= length P)%nat ->
  vars_of (fold_left hashlib.compress
             (map (fun i => firstn 64 (skipn (64 * i) P)) (seq 0 n))
             hashlib.H0)
  = FIPS180.H P n
  /\ words (fold_left hashlib.compress
              (map (fun i => firstn 64 (skipn (64 * i) P)) (seq 0 n))
              hashlib.H0).
Proof.
  intros HP. induction n as [|n IH]; intros Hn.
  - split; [exact H0_H0|exact words_H0].
  - destruct IH as [IH Hw]; [lia|].
    rewrite seq_S, map_app, fold_left_app. cbn [map fold_left Nat.add].
    destruct (compress_next _ (firstn 64 (skipn (64 * n) P))
                (schedule_length P n HP ltac:(lia)) Hw) as [E Hw'].
    split; [|exact Hw'].
    rewrite E, IH, schedule_W by (assumption || lia). reflexivity.
Qed.

(** ** The digest *)

Lemma pad_length (msg : list Z) :
  exists N : nat, length (hashlib.pad msg) = (64 * N)%nat.
Proof.
  unfold hashlib.pad. rewrite !length_app, repeat_length. cbn [length].
  set (len := length msg).
  pose proof (Z.div_mod (55 - Z.of_nat len) 64 ltac:(lia)) as E.
  pose proof (Z.mod_pos_bound (55 - Z.of_nat len) 64 ltac:(lia)) as B.
  set (z := (55 - Z.of_nat len) mod 64) in *.
  set (q := (55 - Z.of_nat len) / 64) in *.
  exists (Z.to_nat (1 - q)).
  unfold hashlib.be_bytes. rewrite length_map, length_rev, length_seq.
  lia.
Qed.

Lemma octets_pad (bs : bytes) :
  Forall octet (hashlib.pad (map Z_of_byte bs)).
Proof.
  unfold hashlib.pad. rewrite !Forall_app. repeat split.
  - apply Forall_map, Forall_forall; intros b _. apply Z_of_byte_range.
  - repeat constructor; unfold octet; lia.
  - apply Forall_forall; intros x Hx. apply repeat_spec in Hx. subst.
    unfold octet; lia.
  - unfold hashlib.be_bytes. apply Forall_map, Forall_forall; intros i _.
    change 255 with (2 ^ 8 - 1). rewrite land_low by lia.
    apply Z.mod_pos_bound. lia.
Qed.

Lemma be_bytes_4_word_octets (x : Z) :
  map Z_of_byte (map byte_of_Z (hashlib.be_bytes 4 x))
  = FIPS180.word_octets x.
Proof.
  unfold hashlib.be_bytes, FIPS180.word_octets. cbn [seq rev List.app map].
  change 255 with (2 ^ 8 - 1).
  rewrite !land_low, !Z.shiftr_div_pow2 by lia.
  rewrite !Z_of_byte_of_Z by (apply Z.mod_pos_bound; lia).
  change (2 ^ (8 * Z.of_nat 0)) with 1. rewrite Z.div_1_r.
  reflexivity.
Qed.

(** [hashlib.sha256(data).digest()] is the SHA-256 of FIPS 180-4. *)
Lemma digest_SHA256 (data : bytes) :
  map Z_of_byte (hashlib.digest (hashlib.sha256 data))
  = FIPS180.SHA256 (map Z_of_byte data).
Proof.
  unfold hashlib.digest, hashlib.sha256, FIPS180.SHA256.
  cbn [hashlib.absorbed].
  rewrite <- pad_padded.
  set (P := hashlib.pad (map Z_of_byte data)).
  destruct (pad_length (map Z_of_byte data)) as [N HN]. fold P in HN.
  pose proof (octets_pad data) as HP. fold P in HP.
  rewrite (blocks_by_index N) by lia.
  rewrite HN. rewrite (Nat.mul_comm 64 N), Nat.div_mul by lia.
  destruct (fold_compress_H P N HP ltac:(lia)) as [E _].
  rewrite <- E. unfold vars_of, hashlib.state_bytes.
  cbn [flat_map]. rewrite app_nil_r, !map_app, !be_bytes_4_word_octets.
  reflexivity.
Qed.

(** The deriver in the words of the standards. *)
Lemma derive_shared_secret_standard (message : str) (public_key : bytes) :
  derive_shared_secret message public_key
  = match hex_sha256_of_utf8 message (map Z_of_byte public_key) with
    | Some text => Ok text
    | None => Raise UnicodeEncodeError
    end.
Proof.
  unfold derive_shared_secret, hex_sha256_of_utf8.
  pose proof (encode_utf8 message) as He.
  destruct (RFC3629.utf8 message) as [o|].
  - destruct He as [bs [-> <-]]. cbn [bind]. f_equal.
    unfold hashlib.hexdigest.
    now rewrite hex_hexadecimal, digest_SHA256, map_app.
  - now rewrite He.
Qed.

(** C9. [derive_shared_secret] is the lowercase hexadecimal form of the
    SHA-256 digest of the UTF-8 encoding of the message followed by the
    octets of the public key, and raises UnicodeEncodeError where the
    message has no UTF-8 encoding.  UTF-8, SHA-256 and the hexadecimal form
    are those of the standards ([RFC3629.utf8], [FIPS180.SHA256],
    [hexadecimal]), defined apart from the embedding of [str.encode],
    [hashlib.sha256] and [hexdigest] that the function is made of.  The
    definitions of the standards give the published answers: the examples
    of RFC 3629 section 7, the digests of the test messages of the standard
    (the empty one, "abc", the two-block and the three-block one), of the
    256 octets 0 to 255 and of a thousand letters "a"; and the function
    itself returns the digests that CPython's [hashlib] gives for "abc", for
    the two-block message split between message and key, and for a
    message of four characters encoded on one to four octets each with a
    key of 32 octets. *)
Theorem derive_shared_secret_is_sha256 :
  (forall (message : str) (public_key : bytes),
      derive_shared_secret message public_key
      = match hex_sha256_of_utf8 message (map Z_of_byte public_key) with
        | Some text => Ok text
        | None => Raise UnicodeEncodeError
        end)
  /\ RFC3629.utf8 [0x41; 0x2262; 0x391; 0x2E]
     = Some [0x41; 0xE2; 0x89; 0xA2; 0xCE; 0x91; 0x2E]
  /\ RFC3629.utf8 [0xD55C; 0xAD6D; 0xC5B4]
     = Some [0xED; 0x95; 0x9C; 0xEA; 0xB5; 0xAD; 0xEC; 0x96; 0xB4]
  /\ RFC3629.utf8 [0x65E5; 0x672C; 0x8A9E]
     = Some [0xE6; 0x97; 0xA5; 0xE6; 0x9C; 0xAC; 0xE8; 0xAA; 0x9E]
  /\ RFC3629.utf8 [0xFEFF; 0x233B4]
     = Some [0xEF; 0xBB; 0xBF; 0xF0; 0xA3; 0x8E; 0xB4]
  /\ RFC3629.utf8 [0x7F; 0x80; 0x7FF; 0x800; 0xD7FF; 0xE000; 0xFFFF;
                   0x10000; 0x10FFFF]
     = Some [0x7F; 0xC2; 0x80; 0xDF; 0xBF; 0xE0; 0xA0; 0x80;
             0xED; 0x9F; 0xBF; 0xEE; 0x80; 0x80; 0xEF; 0xBF; 0xBF;
             0xF0; 0x90; 0x80; 0x80; 0xF4; 0x8F; 0xBF; 0xBF]
  /\ RFC3629.utf8 [0x61; 0xD800] = None
  /\ RFC3629.utf8 [0xDFFF] = None
  /\ RFC3629.utf8 [0x110000] = None
  /\ hexadecimal (FIPS180.SHA256 []) =
       py "e3b0c44298fc1c149afbf4c8996fb92427ae41e4649b934ca495991b7852b855"
  /\ hexadecimal (FIPS180.SHA256 (py "abc")) =
       py "ba7816bf8f01cfea414140de5dae2223b00361a396177a9cb410ff61f20015ad"
  /\ hexadecimal (FIPS180.SHA256
                    (py "abcdbcdecdefdefgefghfghighijhijkijkljklmklmnlmnomnopnopq")) =
       py "248d6a61d20638b8e5c026930c3e6039a33ce45964ff2167f6ecedd419db06c1"
  /\ hexadecimal (FIPS180.SHA256
                    (py "abcdefghbcdefghicdefghijdefghijkefghijklfghijklmghijklmnhijklmnoijklmnopjklmnopqklmnopqrlmnopqrsmnopqrstnopqrstu")) =
       py "cf5b16a778af8380036ce59e7b0492370b249b11e8f07a51afac45037afee9d1"
  /\ hexadecimal (FIPS180.SHA256 (map Z.of_nat (seq 0 256))) =
       py "40aff2e9d2d8922e47afd4648e6967497158785fbd1da870e7110266bf944880"
  /\ hexadecimal (FIPS180.SHA256 (repeat 97 1000)) =
       py "41edece42d63e8d9bf515a9ba6932e1c20cbc9f5a5d134645adb5db1b9737ea3"
  /\ derive_shared_secret (py "abc") [] =
       Ok (py "ba7816bf8f01cfea414140de5dae2223b00361a396177a9cb410ff61f20015ad")
  /\ derive_shared_secret (py "abcdbcdecdefdefg") (map byte_of_Z
         (py "efghfghighijhijkijkljklmklmnlmnomnopnopq")) =
       Ok (py "248d6a61d20638b8e5c026930c3e6039a33ce45964ff2167f6ecedd419db06c1")
  /\ derive_shared_secret [0x68; 0xE9; 0x20AC; 0x1F600] sample_public_key =
       Ok (py "61bac13790ac6fb88b8bcfebcab36cbb676143eff3e06d2f62c0fbc3d0e778c9").
Proof.
  split; [exact derive_shared_secret_standard|].
  repeat (split; [vm_compute; reflexivity|]).
  vm_compute; reflexivity.
Qed.

(* ------------------------------------------------------------------ *)
(** ** Frequency tables *)

Lemma total_count_incr (x : Z) (c : counter) :
  total_count (incr x c) = total_count c + 1.
Proof.
  unfold total_count, values.
  induction c as [|[y n] c IH]; simpl; [reflexivity|].
  destruct (x =? y); simpl; [lia|]. rewrite IH; lia.
Qed.

Lemma total_count_fold (data : list Z) (c : counter) :
  total_count (fold_left (fun c x => incr x c) data c)
  = total_count c + Z.of_nat (length data).
Proof.
  revert c; induction data as [|x data IH]; intros c; simpl length.
  - simpl; lia.
  - simpl fold_left. rewrite IH, total_count_incr. lia.
Qed.

(** The counts of [Counter data] add up to the number of elements. *)
Lemma total_count_Counter (data : list Z) :
  total_count (Counter data) = Z.of_nat (length data).
Proof. unfold Counter. now rewrite total_count_fold. Qed.

(* ------------------------------------------------------------------ *)
(** ** Entropy *)

Section EntropyFacts.

Variable libm_log2 : float -> float.
Variable float_sum : list float -> float.
Variable float_round : float -> Z -> float.

Lemma truediv_defined (a b : Z) :
  b <> 0 -> truediv a b = Ok (float_of_Z a / float_of_Z b)%float.
Proof. intros H; unfold truediv. now apply Z.eqb_neq in H as ->. Qed.

Lemma term_no_zero_division (total count : Z) :
  total <> 0 -> divides_by_zero (term libm_log2 total count) = false.
Proof.
  intros H; unfold term. rewrite (truediv_defined _ _ H); cbn [bind].
  unfold math_log2.
  destruct (0 <? _)%float; [reflexivity|].
  now destruct (is_nan _).
Qed.

Lemma mapM_no_zero_division {A B : Type} (f : A -> result B) (l : list A) :
  Forall (fun a => divides_by_zero (f a) = false) l ->
  divides_by_zero (mapM f l) = false.
Proof.
  induction 1 as [|a l Ha _ IH]; simpl; [reflexivity|].
  destruct (f a) as [b|e]; simpl; [|exact Ha].
  now destruct (mapM f l) as [bs|e].
Qed.

Lemma calculate_entropy_empty :
  calculate_entropy libm_log2 float_sum float_round [] = Ok (Int 0).
Proof. reflexivity. Qed.

Lemma calculate_entropy_divisions (data : str) :
  Forall (fun count =>
            exists q, truediv count (Z.of_nat (length data)) = Ok q)
         (values (Counter data)).
Proof.
  destruct data as [|c data]; [constructor|].
  apply Forall_forall; intros count _.
  eexists; apply truediv_defined. simpl length; lia.
Qed.

Lemma calculate_entropy_never_divides_by_zero (data : str) :
  divides_by_zero
    (calculate_entropy libm_log2 float_sum float_round data) = false.
Proof.
  destruct data as [|c data]; [reflexivity|].
  unfold calculate_entropy.
  set (total := Z.of_nat (length (c :: data))).
  assert (Ht : total <> 0) by (unfold total; simpl length; lia).
  pose proof (mapM_no_zero_division (term libm_log2 total)
                (values (Counter (c :: data)))) as H.
  destruct (mapM _ _) as [terms|e]; simpl; [reflexivity|].
  apply H, Forall_forall; intros count _.
  now apply term_no_zero_division.
Qed.

End EntropyFacts.

(* ------------------------------------------------------------------ *)
(** ** Lists cut into rows *)

Section Rows.

Variable P : Z -> Prop.

Lemma Forall_firstn {A : Type} (Q : A -> Prop) (n : nat) (l : list A) :
  Forall Q l -> Forall Q (firstn n l).
Proof.
  intros H; revert n; induction H; intros [|n]; simpl; constructor; auto.
Qed.

Lemma Forall_skipn {A : Type} (Q : A -> Prop) (n : nat) (l : list A) :
  Forall Q l -> Forall Q (skipn n l).
Proof.
  intros H; revert n; induction H; intros [|n]; simpl; auto.
Qed.

Lemma rows_of_length (nrows ncols : nat) (flat : list Z) :
  length (rows_of nrows ncols flat) = nrows.
Proof.
  revert flat; induction nrows as [|n IH]; intros flat; simpl; auto.
Qed.

Lemma rows_of_row_length (nrows ncols : nat) (flat : list Z) :
  length flat = (nrows * ncols)%nat ->
  Forall (fun row => length row = ncols) (rows_of nrows ncols flat).
Proof.
  revert flat; induction nrows as [|n IH]; intros flat H; simpl.
  - constructor.
  - constructor.
    + rewrite length_firstn. simpl in H. lia.
    + apply IH. rewrite length_skipn. simpl in H. lia.
Qed.

Lemma rows_of_concat (nrows ncols : nat) (flat : list Z) :
  length flat = (nrows * ncols)%nat ->
  concat (rows_of nrows ncols flat) = flat.
Proof.
  revert flat; induction nrows as [|n IH]; intros flat H; simpl.
  - destruct flat; [reflexivity|discriminate].
  - rewrite IH.
    + apply firstn_skipn.
    + rewrite length_skipn. simpl in H. lia.
Qed.

Lemma rows_of_Forall (nrows ncols : nat) (flat : list Z) :
  Forall P flat -> Forall (Forall P) (rows_of nrows ncols flat).
Proof.
  revert flat; induction nrows as [|n IH]; intros flat H; simpl.
  - constructor.
  - constructor; [now apply Forall_firstn | now apply IH, Forall_skipn].
Qed.

End Rows.

Lemma Forall2_firstn {A B : Type} (R : A -> B -> Prop) (n : nat)
      (l : list A) (l' : list B) :
  Forall2 R l l' -> Forall2 R (firstn n l) (firstn n l').
Proof.
  intros H; revert n; induction H; intros [|n]; simpl; constructor; auto.
Qed.

Lemma Forall2_map_left {A B C : Type} (R : B -> C -> Prop) (g : A -> B)
      (l : list A) (l' : list C) :
  Forall2 R (map g l) l' -> Forall2 (fun a c => R (g a) c) l l'.
Proof.
  revert l'; induction l as [|a l IH]; intros l' H; inversion H; subst;
    constructor; auto.
Qed.

Lemma Forall2_Forall_right {A B : Type} (R : A -> B -> Prop)
      (Q : B -> Prop) (l : list A) (l' : list B) :
  (forall a b, In a l -> R a b -> Q b) -> Forall2 R l l' -> Forall Q l'.
Proof.
  intros HQ H; induction H; constructor.
  - eapply HQ; [left; reflexivity|eassumption].
  - apply IHForall2. intros a b Hin. apply HQ. now right.
Qed.

(* ------------------------------------------------------------------ *)
(** ** Reading hexadecimal digits *)

Lemma digit16_hex_char (c : Z) :
  hex_char c -> exists d, digit16 c = Some d /\ 0 <= d <= 15.
Proof.
  unfold hex_char, digit16; intros H.
  destruct ((48 <=? c) && (c <=? 57)) eqn:E1.
  { apply andb_true_iff in E1 as [? ?]. eexists; split; [reflexivity|lia]. }
  destruct ((97 <=? c) && (c <=? 102)) eqn:E2.
  { apply andb_true_iff in E2 as [? ?]. eexists; split; [reflexivity|lia]. }
  destruct ((65 <=? c) && (c <=? 70)) eqn:E3.
  { apply andb_true_iff in E3 as [? ?]. eexists; split; [reflexivity|lia]. }
  apply andb_false_iff in E1, E2, E3. lia.
Qed.

Lemma hex_charb_sound (s : str) :
  forallb hex_charb s = true -> Forall hex_char s.
Proof.
  induction s as [|c s IH]; simpl; [constructor|].
  intros H; apply andb_true_iff in H as [Hc Hs].
  constructor; [|now apply IH].
  unfold hex_charb, digit16 in Hc; unfold hex_char.
  destruct ((48 <=? c) && (c <=? 57)) eqn:E1.
  { apply andb_true_iff in E1 as [? ?]. lia. }
  destruct ((97 <=? c) && (c <=? 102)) eqn:E2.
  { apply andb_true_iff in E2 as [? ?]. lia. }
  destruct ((65 <=? c) && (c <=? 70)) eqn:E3.
  { apply andb_true_iff in E3 as [? ?]. lia. }
  discriminate.
Qed.

Lemma int16_char (c : Z) :
  hex_char c -> exists v, int16 [c] = Ok v /\ 0 <= v <= 15.
Proof.
  intros H. destruct (digit16_hex_char c H) as [d [Hd Hr]].
  exists d. unfold int16. cbn [digits16]; rewrite Hd.
  split; [f_equal; lia|lia].
Qed.

Lemma int16_pair (a b : Z) :
  hex_char a -> hex_char b -> exists v, int16 [a; b] = Ok v /\ 0 <= v <= 255.
Proof.
  intros Ha Hb.
  destruct (digit16_hex_char a Ha) as [x [Hx Hxr]].
  destruct (digit16_hex_char b Hb) as [y [Hy Hyr]].
  exists (16 * x + y). unfold int16.
  cbn [digits16]; rewrite Hx. cbn [digits16]; rewrite Hy.
  split; [f_equal; lia|lia].
Qed.

(** The parser's digits are the digits of the alphabet. *)
Lemma digit16_digit_value (c : Z) :
  match digit16 c with
  | Some d => digit_value c = Some d
  | None => digit_value c = None
  end.
Proof.
  unfold digit16, digit_value, small_letter, hex_alphabet.
  cbn [py position N_of_ascii N_of_digits Z.of_N].
  destruct ((48 <=? c) && (c <=? 57)) eqn:E1;
  destruct ((97 <=? c) && (c <=? 102)) eqn:E2;
  destruct ((65 <=? c) && (c <=? 70)) eqn:E3;
  destruct ((65 <=? c) && (c <=? 90)) eqn:E4;
  try apply andb_true_iff in E1 as [? ?];
  try apply andb_true_iff in E2 as [? ?];
  try apply andb_true_iff in E3 as [? ?];
  try apply andb_true_iff in E4 as [? ?];
  try apply andb_false_iff in E1;
  try apply andb_false_iff in E2;
  try apply andb_false_iff in E3;
  try apply andb_false_iff in E4;
  try lia;
  repeat match goal with
         | |- context [?a =? ?b] =>
             destruct (Z.eqb_spec a b); [try (f_equal; lia); try lia|]
         end; try reflexivity; try lia.
Qed.

Lemma digits16_weighted_sum (text : str) (acc : Z) :
  digits16 acc text
  = match weighted_sum text with
    | Some v => Ok (acc * 16 ^ Z.of_nat (length text) + v)
    | None => Raise ValueError
    end.
Proof.
  revert acc; induction text as [|c text IH]; intros acc.
  - cbn. f_equal. lia.
  - cbn [digits16 weighted_sum].
    pose proof (digit16_digit_value c) as Hc.
    destruct (digit16 c) as [d|]; rewrite Hc; [|reflexivity].
    rewrite IH. destruct (weighted_sum text) as [v|]; [|reflexivity].
    f_equal. cbn [length]. rewrite Nat2Z.inj_succ, Z.pow_succ_r by lia. lia.
Qed.

(** [int16], which embeds [int(text, 16)] on runs of characters cut from
    the secret, returns the base-16 value of a text that has one and
    ValueError on every other text. *)
Lemma int16_base16 (text : str) :
  int16 text
  = match base16 text with
    | Some v => Ok v
    | None => Raise ValueError
    end.
Proof.
  destruct text as [|c text]; [reflexivity|].
  unfold int16, base16. rewrite digits16_weighted_sum.
  now destruct (weighted_sum (c :: text)).
Qed.

Lemma int16_Ok_base16 (text : str) (v : Z) :
  int16 text = Ok v <-> base16 text = Some v.
Proof.
  rewrite int16_base16. destruct (base16 text); split; congruence.
Qed.

(** Positional notation on a few texts: digits of either case, and texts
    without a value. *)
Example base16_examples :
  base16 (py "0") = Some 0
  /\ base16 (py "9") = Some 9
  /\ base16 (py "a") = Some 10
  /\ base16 (py "F") = Some 15
  /\ base16 (py "10") = Some 16
  /\ base16 (py "ff") = Some 255
  /\ base16 (py "1A") = Some 26
  /\ base16 (py "c0de") = Some 49374
  /\ base16 (py "g") = None
  /\ base16 (py "-1") = None
  /\ base16 (py " 1") = None
  /\ base16 [] = None
  /\ group_value 0 (py "0a1b2") = Some 10
  /\ group_value 1 (py "0a1b2") = Some 27
  /\ group_value 2 (py "0a1b2") = Some 2
  /\ group_value 3 (py "0a1b2") = None.
Proof. vm_compute. repeat split. Qed.

Lemma nth_error_skipn_hd {A : Type} (l : list A) (n : nat) :
  nth_error l n = hd_error (skipn n l).
Proof.
  revert l; induction n as [|n IH]; intros [|a l]; simpl; auto.
Qed.

(** A slice of two places that starts inside the text is the group of two
    characters found there. *)
Lemma slice_group (text : str) (k : nat) :
  (2 * k < length text)%nat ->
  group k text = Some (slice text (2 * k) (2 * k + 2)).
Proof.
  intros Hk. unfold group, slice.
  replace (2 * k + 2 - 2 * k)%nat with 2%nat by lia.
  rewrite !nth_error_skipn_hd.
  replace (2 * k + 1)%nat with (1 + 2 * k)%nat by lia.
  rewrite <- skipn_skipn.
  pose proof (length_skipn (2 * k) text) as Hl.
  destruct (skipn (2 * k) text) as [|a [|b rest]]; simpl in *;
    [lia|reflexivity|reflexivity].
Qed.

Lemma slice_group_value (text : str) (k : nat) (v : Z) :
  (2 * k < length text)%nat ->
  int16 (slice text (2 * k) (2 * k + 2)) = Ok v ->
  group_value k text = Some v.
Proof.
  intros Hk Hv. unfold group_value. rewrite (slice_group text k Hk).
  now apply int16_Ok_base16.
Qed.

Lemma Forall2_impl_in {A B : Type} (R S : A -> B -> Prop)
      (l : list A) (l' : list B) :
  (forall a b, In a l -> R a b -> S a b) ->
  Forall2 R l l' -> Forall2 S l l'.
Proof.
  intros H; induction 1 as [|a b l l' Hab Hrest IH]; constructor.
  - apply H; [now left|exact Hab].
  - apply IH. intros x y Hin. apply H. now right.
Qed.

Lemma byte_values_hex (ss_sender : str) :
  Forall hex_char ss_sender ->
  exists parsed,
    byte_values ss_sender = Ok parsed
    /\ length parsed = Nat.min 64 (length ss_sender)
    /\ Forall (fun v => 0 <= v <= 15) parsed
    /\ Forall2 (fun c v => int16 [c] = Ok v) (firstn 64 ss_sender) parsed.
Proof.
  intros H. unfold byte_values, slice. rewrite Nat.sub_0_r. simpl skipn.
  destruct (mapM_defined (fun c => int16 [c]) (firstn 64 ss_sender))
    as [parsed Hp].
  { apply Forall_firstn with (n := 64%nat) in H.
    eapply Forall_impl; [|exact H].
    intros c Hc. destruct (int16_char c Hc) as [v [Hv _]]. eauto. }
  exists parsed. split; [exact Hp|].
  pose proof (mapM_Forall2 _ _ _ Hp) as H2.
  split; [|split; [|exact H2]].
  - rewrite <- (Forall2_length H2). apply length_firstn.
  - eapply Forall2_Forall_right; [|exact H2].
    intros c v Hin Hv. simpl in Hv.
    assert (Hc : hex_char c).
    { apply Forall_firstn with (n := 64%nat) in H.
      rewrite Forall_forall in H. now apply H. }
    destruct (int16_char c Hc) as [v' [Hv' Hr]].
    simpl in Hv'. rewrite Hv in Hv'. now injection Hv' as <-.
Qed.

(* ------------------------------------------------------------------ *)
(** ** The heatmap grid *)

(** C6. For a secret of 64 hexadecimal characters the heatmap grid is
    built, has 8 rows of 8 entries, every entry is an integer in [0, 15],
    and its rows read one after the other are the values in base 16 of the
    64 characters of the secret, in their order: the value of a character
    is that of positional notation ([base16]), the place of the digit in
    the alphabet, not the result of the parser the grid is built with. *)
Theorem grid_shape_and_content :
  forall ss_sender : str,
    length ss_sender = 64%nat ->
    Forall hex_char ss_sender ->
    exists g : list (list Z),
      grid ss_sender = Ok g
      /\ length g = 8%nat
      /\ Forall (fun row => length row = 8%nat) g
      /\ Forall (Forall (fun v => 0 <= v <= 15)) g
      /\ Forall2 (fun c v => base16 [c] = Some v)
                 (firstn 64 ss_sender) (concat g).
Proof.
  intros ss Hlen Hhex.
  destruct (byte_values_hex ss Hhex) as [parsed [Hp [Hl [Hr Hc]]]].
  rewrite Hlen in Hl; simpl in Hl.
  exists (rows_of 8 8 parsed).
  split.
  { unfold grid. rewrite Hp. cbn [bind]. unfold reshape. now rewrite Hl. }
  split; [apply rows_of_length|].
  split; [now apply rows_of_row_length|].
  split; [now apply rows_of_Forall|].
  rewrite rows_of_concat by exact Hl.
  eapply Forall2_impl_in; [|exact Hc].
  intros c v _ Hv. now apply int16_Ok_base16.
Qed.

Lemma grid_shape_and_content_witness :
  length sample_secret = 64%nat
  /\ Forall hex_char sample_secret
  /\ exists g : list (list Z),
      grid sample_secret = Ok g
      /\ length g = 8%nat
      /\ Forall (fun row => length row = 8%nat) g
      /\ Forall (Forall (fun v => 0 <= v <= 15)) g
      /\ Forall2 (fun c v => base16 [c] = Some v)
                 (firstn 64 sample_secret) (concat g).
Proof.
  assert (Hl : length sample_secret = 64%nat) by reflexivity.
  assert (Hh : Forall hex_char sample_secret)
    by (apply hex_charb_sound; vm_compute; reflexivity).
  split; [exact Hl|]. split; [exact Hh|].
  exact (grid_shape_and_content sample_secret Hl Hh).
Defined.

(* ------------------------------------------------------------------ *)
(** ** The byte frequency table *)

(** C8. For a secret of 64 hexadecimal characters the byte frequency table
    is built and its counts add up to exactly 64. *)
Theorem byte_counter_counts_sum_to_64 :
  forall ss_sender : str,
    length ss_sender = 64%nat ->
    Forall hex_char ss_sender ->
    exists (parsed : list Z) (c : counter),
      byte_values ss_sender = Ok parsed
      /\ byte_counter ss_sender = Ok c
      /\ c = Counter parsed
      /\ total_count c = 64.
Proof.
  intros ss Hlen Hhex.
  destruct (byte_values_hex ss Hhex) as [parsed [Hp [Hl _]]].
  rewrite Hlen in Hl; simpl in Hl.
  exists parsed, (Counter parsed).
  split; [exact Hp|].
  split; [unfold byte_counter; now rewrite Hp|].
  split; [reflexivity|].
  rewrite total_count_Counter, Hl. reflexivity.
Qed.

Lemma byte_counter_counts_sum_to_64_witness :
  length sample_secret = 64%nat
  /\ Forall hex_char sample_secret
  /\ exists (parsed : list Z) (c : counter),
      byte_values sample_secret = Ok parsed
      /\ byte_counter sample_secret = Ok c
      /\ c = Counter parsed
      /\ total_count c = 64.
Proof.
  assert (Hl : length sample_secret = 64%nat) by reflexivity.
  assert (Hh : Forall hex_char sample_secret)
    by (apply hex_charb_sound; vm_compute; reflexivity).
  split; [exact Hl|]. split; [exact Hh|].
  exact (byte_counter_counts_sum_to_64 sample_secret Hl Hh).
Defined.

(* ------------------------------------------------------------------ *)
(** ** The 3D byte triplets *)

Lemma range_from_0_step_2 (stop : nat) :
  range 0 stop 2 = map (fun k => 2 * k)%nat (seq 0 ((stop + 1) / 2)).
Proof.
  unfold range. rewrite Nat.sub_0_r. simpl (2 - 1)%nat.
  apply map_ext; intros k. lia.
Qed.

Lemma even_half (n : nat) :
  Nat.even n = true -> exists h, n = (2 * h)%nat.
Proof. intros H. apply Nat.even_spec in H as [h Hh]. now exists h. Qed.

(** The pairs of an even-length secret: pair [k] is the two characters from
    position [2 * k] on, for [k] below half of [min 60 (length ss_sender)]. *)
Lemma hex_pairs_even (ss_sender : str) :
  Nat.even (length ss_sender) = true ->
  hex_pairs ss_sender
  = map (fun k => slice ss_sender (2 * k) (2 * k + 2))
        (seq 0 (Nat.min 60 (length ss_sender) / 2)).
Proof.
  intros H. destruct (even_half _ H) as [h Hh].
  unfold hex_pairs. rewrite range_from_0_step_2, map_map.
  replace ((Nat.min (length ss_sender) 60 + 1) / 2)%nat
    with (Nat.min 60 (length ss_sender) / 2)%nat; [reflexivity|].
  rewrite Hh.
  destruct (Nat.le_ge_cases 30 h) as [Hle|Hle].
  - rewrite Nat.min_l, Nat.min_r by lia. reflexivity.
  - rewrite Nat.min_r, Nat.min_l by lia.
    rewrite (Nat.mul_comm 2 h), Nat.div_mul by lia.
    apply Nat.div_unique with (r := 1%nat); lia.
Qed.

Lemma slice_pair (ss_sender : str) (k : nat) :
  Forall hex_char ss_sender ->
  (2 * k + 2 <= length ss_sender)%nat ->
  exists a b, slice ss_sender (2 * k) (2 * k + 2) = [a; b]
              /\ hex_char a /\ hex_char b.
Proof.
  intros Hhex Hk. unfold slice.
  replace (2 * k + 2 - 2 * k)%nat with 2%nat by lia.
  pose proof (Forall_skipn hex_char (2 * k) ss_sender Hhex) as Hs.
  pose proof (length_skipn (2 * k) ss_sender) as Hl.
  destruct (skipn (2 * k) ss_sender) as [|a [|b rest]];
    simpl in Hl; try lia.
  exists a, b. inversion Hs as [|? ? Ha Hs']; subst.
  inversion Hs' as [|? ? Hb _]; subst. auto.
Qed.

Lemma firstn_seq_le (k start len : nat) :
  (k <= len)%nat -> firstn k (seq start len) = seq start k.
Proof.
  revert start len; induction k as [|k IH]; intros start [|len] H; simpl;
    try reflexivity; try lia.
  f_equal. apply IH. lia.
Qed.

Lemma multiple_of_three (n : nat) :
  (n - n mod 3 = 3 * (n / 3))%nat /\ ((n - n mod 3) mod 3 = 0)%nat
  /\ ((n - n mod 3) / 3 = n / 3)%nat.
Proof.
  pose proof (Nat.div_mod_eq n 3) as H.
  assert (E : (n - n mod 3 = 3 * (n / 3))%nat) by lia.
  rewrite E. repeat split.
  - rewrite Nat.mul_comm. apply Nat.Div0.mod_mul.
  - rewrite Nat.mul_comm. apply Nat.div_mul. lia.
Qed.

(** C7. For a secret of even length made of hexadecimal characters the
    list of triplets is built; it has [min(60, len) / 2 / 3] rows (integer
    quotients) of three coordinates each, every coordinate is an integer in
    [0, 255], and coordinate number [k], reading the rows one after the
    other, is the value in base 16 of the two characters at places [2k]
    and [2k + 1] of the secret, the first one counting sixteenfold
    ([group_value], positional notation, not the parser the list is built
    with): the pairs follow each other without gap from the start of the
    secret, and pairs beyond the last full triplet are dropped. *)
Theorem byte_values_3d_shape :
  forall ss_sender : str,
    Nat.even (length ss_sender) = true ->
    Forall hex_char ss_sender ->
    exists triplets : list (list Z),
      byte_values_3d ss_sender = Ok triplets
      /\ length triplets = (Nat.min 60 (length ss_sender) / 2 / 3)%nat
      /\ Forall (fun row => length row = 3%nat) triplets
      /\ Forall (Forall (fun v => 0 <= v <= 255)) triplets
      /\ Forall2 (fun k v => group_value k ss_sender = Some v)
                 (seq 0 (3 * length triplets)) (concat triplets).
Proof.
  intros ss Heven Hhex.
  set (n := (Nat.min 60 (length ss) / 2)%nat).
  assert (Hn : (2 * n <= length ss)%nat).
  { unfold n.
    pose proof (Nat.Div0.mul_div_le (Nat.min 60 (length ss)) 2). lia. }
  pose proof (hex_pairs_even ss Heven) as Hpairs. fold n in Hpairs.
  (* every pair parses to a byte value *)
  assert (Hall : Forall (fun k => exists v,
                           int16 (slice ss (2 * k) (2 * k + 2)) = Ok v
                           /\ 0 <= v <= 255) (seq 0 n)).
  { apply Forall_forall; intros k Hk. apply in_seq in Hk.
    destruct (slice_pair ss k Hhex) as [a [b [-> [Ha Hb]]]]; [lia|].
    now apply int16_pair. }
  destruct (mapM_defined int16 (hex_pairs ss)) as [parsed Hp].
  { rewrite Hpairs. apply Forall_map.
    eapply Forall_impl; [|exact Hall].
    intros k [v [Hv _]]; eauto. }
  pose proof (mapM_Forall2 _ _ _ Hp) as H2.
  rewrite Hpairs in H2. apply Forall2_map_left in H2.
  assert (Hlen : length parsed = n).
  { rewrite <- (Forall2_length H2). apply length_seq. }
  assert (Hrange : Forall (fun v => 0 <= v <= 255) parsed).
  { eapply Forall2_Forall_right; [|exact H2].
    intros k v Hin Hv. rewrite Forall_forall in Hall.
    destruct (Hall k Hin) as [v' [Hv' Hr]].
    rewrite Hv in Hv'. now injection Hv' as <-. }
  destruct (multiple_of_three n) as [E3 [Emod Ediv]].
  set (flat := slice parsed 0 (n - n mod 3)).
  assert (Hflat : flat = firstn (3 * (n / 3)) parsed).
  { unfold flat, slice. now rewrite Nat.sub_0_r, E3. }
  assert (Hflen : length flat = (n / 3 * 3)%nat).
  { rewrite Hflat, length_firstn, Hlen.
    pose proof (Nat.Div0.mul_div_le n 3). lia. }
  exists (rows_of (n / 3) 3 flat).
  split.
  { unfold byte_values_3d. rewrite Hp. cbn [bind]. rewrite Hlen.
    fold flat. unfold reshape_rows. rewrite Hflen.
    rewrite Nat.Div0.mod_mul, Nat.div_mul by lia. reflexivity. }
  split; [apply rows_of_length|].
  split; [now apply rows_of_row_length|].
  split.
  { apply rows_of_Forall. rewrite Hflat. now apply Forall_firstn. }
  rewrite rows_of_length, rows_of_concat by exact Hflen.
  rewrite Hflat.
  rewrite <- (firstn_seq_le (3 * (n / 3)) 0 n)
    by (pose proof (Nat.Div0.mul_div_le n 3); lia).
  apply Forall2_firstn.
  eapply Forall2_impl_in; [|exact H2].
  intros k v Hk Hv. apply in_seq in Hk.
  apply slice_group_value; [lia|exact Hv].
Qed.

Lemma byte_values_3d_shape_witness :
  Nat.even (length sample_secret) = true
  /\ Forall hex_char sample_secret
  /\ exists triplets : list (list Z),
      byte_values_3d sample_secret = Ok triplets
      /\ length triplets = (Nat.min 60 (length sample_secret) / 2 / 3)%nat
      /\ Forall (fun row => length row = 3%nat) triplets
      /\ Forall (Forall (fun v => 0 <= v <= 255)) triplets
      /\ Forall2 (fun k v => group_value k sample_secret = Some v)
                 (seq 0 (3 * length triplets)) (concat triplets).
Proof.
  assert (He : Nat.even (length sample_secret) = true) by reflexivity.
  assert (Hh : Forall hex_char sample_secret)
    by (apply hex_charb_sound; vm_compute; reflexivity).
  split; [exact He|]. split; [exact Hh|].
  exact (byte_values_3d_shape sample_secret He Hh).
Defined.

(* ------------------------------------------------------------------ *)
(** ** Frequency tables of rearranged data

    The entries of a [Counter] depend on the data only through the number
    of occurrences of each element; their order is the order of first
    occurrence, which a rearrangement of the data changes.  The summands of
    [calculate_entropy] on a rearranged string are therefore the same
    values, met in another order. *)

Lemma get_incr (x : Z) (c : counter) (k : Z) :
  get (incr x c) k = get c k + (if k =? x then 1 else 0).
Proof.
  induction c as [|[y n] c IH]; simpl.
  - destruct (k =? x); lia.
  - destruct (x =? y) eqn:Exy; simpl.
    + apply Z.eqb_eq in Exy; subst y. destruct (k =? x); lia.
    + rewrite IH. destruct (k =? y) eqn:Eky; [|reflexivity].
      apply Z.eqb_eq in Eky; subst y.
      rewrite Z.eqb_sym, Exy. lia.
Qed.

Lemma get_Counter_fold (data : list Z) (c : counter) (k : Z) :
  get (fold_left (fun c x => incr x c) data c) k
  = get c k + occurrences k data.
Proof.
  revert c; induction data as [|x data IH]; intros c; simpl.
  - lia.
  - rewrite IH, get_incr. lia.
Qed.

(** [Counter(data)[k]] is the number of occurrences of [k]. *)
Lemma get_Counter (data : list Z) (k : Z) :
  get (Counter data) k = occurrences k data.
Proof. unfold Counter. now rewrite get_Counter_fold. Qed.

Lemma keys_incr (x : Z) (c : counter) (k : Z) :
  In k (keys (incr x c)) <-> k = x \/ In k (keys c).
Proof.
  unfold keys; induction c as [|[y n] c IH]; simpl.
  - intuition.
  - destruct (x =? y) eqn:Exy; simpl.
    + apply Z.eqb_eq in Exy; subst y. intuition.
    + rewrite IH. intuition.
Qed.

Lemma well_formed_incr (x : Z) (c : counter) :
  well_formed c -> well_formed (incr x c).
Proof.
  unfold well_formed, keys; induction c as [|[y n] c IH]; simpl.
  - intros _. split; repeat constructor; auto.
  - intros [Hnd Hpos].
    inversion Hnd as [|? ? Hnotin Hnd']; subst.
    inversion Hpos as [|? ? Hn Hpos']; subst. simpl in Hn.
    destruct (x =? y) eqn:Exy; simpl.
    + split; constructor; simpl; auto; lia.
    + destruct (IH (conj Hnd' Hpos')) as [IH1 IH2].
      split; constructor; simpl; auto.
      intros Hin. apply (keys_incr x c y) in Hin as [->|Hin]; auto.
      rewrite Z.eqb_refl in Exy. discriminate.
Qed.

Lemma well_formed_Counter (data : list Z) : well_formed (Counter data).
Proof.
  unfold Counter.
  assert (H : forall c, well_formed c ->
                        well_formed (fold_left (fun c x => incr x c) data c)).
  { induction data as [|x data IH]; intros c Hc; simpl; auto.
    apply IH. now apply well_formed_incr. }
  apply H. split; constructor.
Qed.

Lemma In_get (c : counter) (k n : Z) :
  well_formed c -> (In (k, n) c <-> get c k = n /\ 0 < n).
Proof.
  unfold well_formed, keys; induction c as [|[y m] c IH]; simpl.
  - intros _. split; [tauto|lia].
  - intros [Hnd Hpos].
    inversion Hnd as [|? ? Hnotin Hnd']; subst.
    inversion Hpos as [|? ? Hm Hpos']; subst. simpl in Hm.
    specialize (IH (conj Hnd' Hpos')).
    destruct (k =? y) eqn:Eky.
    + apply Z.eqb_eq in Eky; subst y. split.
      * intros [H|H]; [injection H as ->; auto|].
        exfalso. apply Hnotin. apply (in_map fst) in H. exact H.
      * intros [-> _]. now left.
    + apply Z.eqb_neq in Eky. rewrite <- IH. split.
      * intros [H|H]; [injection H as -> ->; congruence|exact H].
      * intros H. now right.
Qed.

Lemma occurrences_Permutation (k : Z) (s t : list Z) :
  Permutation s t -> occurrences k s = occurrences k t.
Proof. induction 1; simpl; lia. Qed.

(** Rearranging the data rearranges the entries of the table, and nothing
    else. *)
Lemma Counter_Permutation (s t : list Z) :
  Permutation s t -> Permutation (Counter s) (Counter t).
Proof.
  intros H. apply NoDup_Permutation.
  - eapply NoDup_map_inv. apply (well_formed_Counter s).
  - eapply NoDup_map_inv. apply (well_formed_Counter t).
  - intros [k n].
    rewrite (In_get _ k n (well_formed_Counter s)).
    rewrite (In_get _ k n (well_formed_Counter t)).
    now rewrite !get_Counter, (occurrences_Permutation k s t H).
Qed.

Lemma mapM_Permutation {A B : Type} (f : A -> result B) (l l' : list A) :
  Permutation l l' ->
  forall bs, mapM f l = Ok bs ->
             exists bs', mapM f l' = Ok bs' /\ Permutation bs bs'.
Proof.
  induction 1 as [|a l l' _ IH|a b l|l l' l'' _ IH1 _ IH2]; intros bs Hbs.
  - exists bs. split; [exact Hbs|apply Permutation_refl].
  - simpl in *. destruct (f a) as [x|]; [|discriminate]. simpl in *.
    destruct (mapM f l) as [xs|]; [|discriminate].
    injection Hbs as <-.
    destruct (IH xs eq_refl) as [xs' [-> Hp]]. simpl.
    exists (x :: xs'). split; [reflexivity|now constructor].
  - simpl in *. destruct (f b) as [y|]; [|discriminate]. simpl in *.
    destruct (f a) as [x|]; [|discriminate]. simpl in *.
    destruct (mapM f l) as [xs|]; [|discriminate].
    injection Hbs as <-.
    exists (x :: y :: xs). split; [reflexivity|constructor].
  - destruct (IH1 bs Hbs) as [bs' [H1 Hp1]].
    destruct (IH2 bs' H1) as [bs'' [H2 Hp2]].
    exists bs''. split; [exact H2|].
    eapply Permutation_trans; eassumption.
Qed.

(** The summands of [calculate_entropy] on a rearranged string are a
    rearrangement of the summands on the string. *)
Lemma calculate_entropy_terms_Permutation
      (libm_log2 : float -> float) (s t : str) (terms : list float) :
  Permutation s t ->
  mapM (term libm_log2 (Z.of_nat (length s))) (values (Counter s)) = Ok terms ->
  exists terms',
    mapM (term libm_log2 (Z.of_nat (length t))) (values (Counter t))
      = Ok terms'
    /\ Permutation terms terms'.
Proof.
  intros H Hterms.
  rewrite <- (Permutation_length H).
  apply (mapM_Permutation _ (values (Counter s))); [|exact Hterms].
  unfold values. now apply Permutation_map, Counter_Permutation.
Qed.

(** The order does change: the table lists the keys as first met. *)
Example Counter_first_seen_order :
  Counter (py "abca") = [(97, 2); (98, 1); (99, 1)]
  /\ Counter (py "cbaa") = [(99, 1); (98, 1); (97, 2)].
Proof. split; reflexivity. Qed.

(* ------------------------------------------------------------------ *)
(** ** The table of a hexadecimal secret

    What [calculate_entropy] sums over for a secret of lowercase
    hexadecimal characters: at most 16 entries, one per distinct character,
    whose counts are positive and add up to the length. *)

Lemma keys_Counter (data : list Z) (k : Z) :
  In k (keys (Counter data)) <-> In k data.
Proof.
  unfold Counter.
  assert (H : forall c, In k (keys (fold_left (fun c x => incr x c) data c))
                        <-> In k data \/ In k (keys c)).
  { induction data as [|x data IH]; intros c; simpl.
    - tauto.
    - rewrite IH, keys_incr. intuition. }
  rewrite H. simpl. tauto.
Qed.



(** On the sample secret the sixteen divisions and logarithms are all
    evaluated and [calculate_entropy] returns a float, whatever the library
    routines compute. *)
Lemma calculate_entropy_sample_returns
      (libm_log2 : float -> float) (float_sum : list float -> float)
      (float_round : float -> Z -> float) :
  exists terms : list float,
    length terms = 16%nat
    /\ calculate_entropy libm_log2 float_sum float_round sample_secret
       = Ok (Float (float_round (- float_sum terms)%float 2)).
Proof.
  eexists; split; [|vm_compute; reflexivity]. reflexivity.
Qed.

(* ================================================================== *)
(** * Further properties of the core functions *)

Lemma scalar_valueb_spec (c : Z) : scalar_valueb c = true <-> scalar_value c.
Proof.
  unfold scalar_valueb, scalar_value.
  rewrite !andb_true_iff, negb_true_iff, andb_false_iff.
  rewrite !Z.leb_le, !Z.leb_gt. lia.
Qed.

Lemma encodable_spec (s : str) : encodable s = true <-> Forall scalar_value s.
Proof.
  unfold encodable. rewrite forallb_forall, Forall_forall.
  split; intros H c Hc; apply scalar_valueb_spec; auto.
Qed.

Lemma encode_codepoint_raises (c : Z) (e : exn) :
  encode_codepoint c = Raise e -> e = UnicodeEncodeError.
Proof.
  unfold encode_codepoint.
  repeat match goal with
         | |- context [if ?b then _ else _] => destruct b
         end; congruence.
Qed.

Lemma encode_raises (s : str) (e : exn) :
  encode s = Raise e -> e = UnicodeEncodeError.
Proof.
  unfold encode. destruct (mapM encode_codepoint s) as [chunks|e'] eqn:Hm;
    simpl; [discriminate|].
  intros H; injection H as <-.
  apply mapM_raises in Hm as [c [_ Hc]].
  eapply encode_codepoint_raises; eassumption.
Qed.

(** [encode] stops in UnicodeEncodeError exactly on the strings that hold
    something else than a scalar value. *)
Lemma raised_encode (s : str) :
  raised (encode s) = if encodable s then None else Some UnicodeEncodeError.
Proof.
  destruct (encodable s) eqn:E.
  - apply encodable_spec, encode_defined_iff in E as [bs ->]. reflexivity.
  - destruct (encode s) as [bs|e] eqn:Hs; simpl.
    + assert (H : encodable s = true)
        by (apply encodable_spec, encode_defined_iff; eauto).
      congruence.
    + f_equal. eapply encode_raises; eassumption.
Qed.

Lemma raised_derive_shared_secret (message : str) (public_key : bytes) :
  raised (derive_shared_secret message public_key) = raised (encode message).
Proof.
  rewrite derive_shared_secret_unfold. now destruct (encode message).
Qed.

Lemma mapM_app {A B : Type} (f : A -> result B) (l l' : list A) :
  mapM f (l ++ l')
  = (bs <- mapM f l ;; bs' <- mapM f l' ;; Ok (bs ++ bs'))%result.
Proof.
  induction l as [|a l IH]; simpl.
  - now destruct (mapM f l').
  - destruct (f a) as [b|]; simpl; [|reflexivity].
    rewrite IH. destruct (mapM f l) as [bs|]; simpl; [|reflexivity].
    now destruct (mapM f l').
Qed.

(** The encoding of a concatenation is the concatenation of the
    encodings. *)
Lemma encode_app (s t : str) :
  encode (s ++ t)
  = (bs <- encode s ;; bs' <- encode t ;; Ok (bs ++ bs'))%result.
Proof.
  unfold encode. rewrite mapM_app.
  destruct (mapM encode_codepoint s) as [cs|]; simpl; [|reflexivity].
  destruct (mapM encode_codepoint t) as [ct|]; simpl; [|reflexivity].
  now rewrite concat_app.
Qed.

Lemma urandom_unfold (n : nat) (w : os.entropy) :
  os.urandom n w = (upcoming n w, advance n w).
Proof. reflexivity. Qed.

Lemma advance_advance (n m : nat) (w : os.entropy) :
  advance m (advance n w) = advance (n + m) w.
Proof. unfold advance; simpl. now rewrite Nat.add_assoc. Qed.

Lemma upcoming_length (n : nat) (w : os.entropy) : length (upcoming n w) = n.
Proof. unfold upcoming. now rewrite length_map, length_seq. Qed.

Lemma kyber_keygen_unfold (w : os.entropy) :
  kyber_keygen w
  = (Ok (upcoming 32 w, upcoming 32 (advance 32 w)), advance 64 w).
Proof.
  unfold kyber_keygen, seqp, draw, ret. rewrite !urandom_unfold.
  now rewrite advance_advance.
Qed.

Lemma kyber_encapsulate_unfold (public_key : bytes) (message : str)
      (w : os.entropy) :
  kyber_encapsulate public_key message w
  = (match derive_shared_secret message public_key with
     | Ok secret => Ok (upcoming 64 w, secret)
     | Raise e => Raise e
     end, advance 64 w).
Proof.
  unfold kyber_encapsulate, seqp, draw, lift, ret. rewrite urandom_unfold.
  now destruct (derive_shared_secret message public_key).
Qed.

(** X1. [kyber_keygen] always returns, with two keys of 32 bytes each: the
    public key is the next 32 bytes of the entropy source and the secret key
    the 32 bytes after them, so the two are read from disjoint positions,
    and the source ends 64 bytes further. *)
Theorem kyber_keygen_draws_two_disjoint_keys :
  forall w : os.entropy,
  exists public_key secret_key : bytes,
    kyber_keygen w = (Ok (public_key, secret_key), advance 64 w)
    /\ public_key = map (os.tape w) (seq (os.pos w) 32)
    /\ secret_key = map (os.tape w) (seq (os.pos w + 32) 32)
    /\ length public_key = 32%nat
    /\ length secret_key = 32%nat.
Proof.
  intros w. exists (upcoming 32 w), (upcoming 32 (advance 32 w)).
  split; [apply kyber_keygen_unfold|].
  repeat split; apply upcoming_length.
Qed.

(** X2. The ciphertext of [kyber_encapsulate] is the next 64 bytes of the
    entropy source, whatever the public key and the message are, and the
    source ends 64 bytes further also when the call raises: the bytes are
    drawn before the secret is derived. *)
Theorem kyber_encapsulate_ciphertext_is_fresh_randomness :
  forall (public_key : bytes) (message : str) (w : os.entropy),
    snd (kyber_encapsulate public_key message w) = advance 64 w
    /\ length (upcoming 64 w) = 64%nat
    /\ (fst (kyber_encapsulate public_key message w)
          = Raise UnicodeEncodeError
        \/ exists secret : str,
             derive_shared_secret message public_key = Ok secret
             /\ fst (kyber_encapsulate public_key message w)
                = Ok (upcoming 64 w, secret)).
Proof.
  intros pk m w. rewrite kyber_encapsulate_unfold. cbn [fst snd].
  split; [reflexivity|]. split; [apply upcoming_length|].
  destruct (derive_shared_secret m pk) as [s|e] eqn:Hd.
  - right. exists s. auto.
  - left. f_equal.
    pose proof (raised_derive_shared_secret m pk) as Hr.
    rewrite Hd in Hr. simpl in Hr.
    destruct (encode m) as [bs|e'] eqn:He; [discriminate|].
    simpl in Hr. injection Hr as ->. eapply encode_raises; eassumption.
Qed.

(** X3. [derive_shared_secret], [kyber_encapsulate] and [kyber_decapsulate]
    raise on exactly the same messages, those holding a code point that is
    no Unicode scalar value (a surrogate), whatever the keys, the ciphertext
    and the entropy source are, and the exception is UnicodeEncodeError. *)
Theorem core_functions_raise_exactly_on_surrogates :
  forall (message : str) (public_key secret_key ciphertext : bytes)
         (w : os.entropy),
    raised (derive_shared_secret message public_key)
      = (if encodable message then None else Some UnicodeEncodeError)
    /\ raised (fst (kyber_encapsulate public_key message w))
      = (if encodable message then None else Some UnicodeEncodeError)
    /\ raised (kyber_decapsulate ciphertext secret_key message public_key)
      = (if encodable message then None else Some UnicodeEncodeError).
Proof.
  intros m pk sk ct w.
  pose proof (raised_derive_shared_secret m pk) as H.
  rewrite raised_encode in H.
  split; [exact H|]. split; [|exact H].
  rewrite kyber_encapsulate_unfold. cbn [fst].
  rewrite <- H. now destruct (derive_shared_secret m pk).
Qed.

(** X4. The message and the public key are hashed with nothing between
    them: moving the end of the message to the front of the key, as its
    UTF-8 encoding, gives the same shared secret. *)
Theorem derive_shared_secret_has_no_separator :
  forall (head tail : str) (tail_utf8 public_key : bytes),
    encode tail = Ok tail_utf8 ->
    derive_shared_secret (head ++ tail) public_key
      = derive_shared_secret head (tail_utf8 ++ public_key).
Proof.
  intros m1 m2 utf8 pk H.
  rewrite !derive_shared_secret_unfold, encode_app, H.
  destruct (encode m1) as [bs|]; simpl; [|reflexivity].
  now rewrite <- app_assoc.
Qed.

Lemma derive_shared_secret_has_no_separator_witness :
  encode (py "lo") = Ok [x6c; x6f]
  /\ derive_shared_secret (py "hel" ++ py "lo") sample_public_key
     = derive_shared_secret (py "hel") ([x6c; x6f] ++ sample_public_key).
Proof.
  assert (H : encode (py "lo") = Ok [x6c; x6f]) by reflexivity.
  split; [exact H|].
  exact (derive_shared_secret_has_no_separator (py "hel") (py "lo")
           [x6c; x6f] sample_public_key H).
Defined.

(* ================================================================== *)
(** * The charts read the digest back *)

Lemma int16_hex_byte (b : byte) : int16 (hex [b]) = Ok (Z_of_byte b).
Proof. destruct b; reflexivity. Qed.

Lemma int16_hex_high (b : byte) :
  int16 [hex_digit (Z.shiftr (Z_of_byte b) 4)] = Ok (Z_of_byte b / 16).
Proof. destruct b; reflexivity. Qed.

Lemma int16_hex_low (b : byte) :
  int16 [hex_digit (Z.land (Z_of_byte b) 15)] = Ok (Z_of_byte b mod 16).
Proof. destruct b; reflexivity. Qed.

Lemma mapM_map_Ok {A B C : Type} (f : B -> result C) (g : A -> B)
      (h : A -> C) (l : list A) :
  (forall a, In a l -> f (g a) = Ok (h a)) ->
  mapM f (map g l) = Ok (map h l).
Proof.
  induction l as [|a l IH]; intros H; simpl; [reflexivity|].
  rewrite (H a) by now left. simpl.
  rewrite IH by (intros; apply H; now right). reflexivity.
Qed.

Lemma mapM_firstn {A B : Type} (f : A -> result B) (n : nat) (l : list A)
      (bs : list B) :
  mapM f l = Ok bs -> mapM f (firstn n l) = Ok (firstn n bs).
Proof.
  revert n bs; induction l as [|a l IH]; intros n bs H.
  - injection H as <-. now destruct n.
  - simpl in H. destruct (f a) as [b|] eqn:Hb; [|discriminate].
    simpl in H. destruct (mapM f l) as [bs'|]; [|discriminate].
    injection H as <-. destruct n as [|n]; simpl; [reflexivity|].
    rewrite Hb. simpl. now rewrite (IH n bs' eq_refl).
Qed.

Lemma mapM_ext_in {A B : Type} (f g : A -> result B) (l : list A) :
  (forall a, In a l -> f a = g a) -> mapM f l = mapM g l.
Proof.
  induction l as [|a l IH]; intros H; simpl; [reflexivity|].
  rewrite (H a) by now left.
  rewrite IH by (intros; apply H; now right). reflexivity.
Qed.

Lemma mapM_digits_of_hex (bs : bytes) :
  mapM (fun c => int16 [c]) (hex bs) = Ok (nibbles bs).
Proof.
  induction bs as [|b bs IH]; [reflexivity|].
  change (hex (b :: bs))
    with (hex_digit (Z.shiftr (Z_of_byte b) 4)
          :: hex_digit (Z.land (Z_of_byte b) 15) :: hex bs).
  cbn [mapM]. rewrite int16_hex_high, int16_hex_low, IH. reflexivity.
Qed.

Lemma nibbles_length (bs : bytes) : length (nibbles bs) = (2 * length bs)%nat.
Proof.
  unfold nibbles; induction bs as [|b bs IH]; simpl; [reflexivity|].
  rewrite IH; lia.
Qed.

(** Parsing the characters of a hexadecimal form gives the half-bytes
    back. *)
Lemma byte_values_of_hex (bs : bytes) :
  byte_values (hex bs) = Ok (firstn 64 (nibbles bs)).
Proof.
  unfold byte_values, slice. rewrite Nat.sub_0_r. simpl skipn.
  apply mapM_firstn, mapM_digits_of_hex.
Qed.

Lemma slice_hex (k : nat) (bs : bytes) :
  (k < length bs)%nat ->
  slice (hex bs) (2 * k) (2 * k + 2) = hex [nth k bs x00].
Proof.
  unfold slice. replace (2 * k + 2 - 2 * k)%nat with 2%nat by lia.
  revert bs; induction k as [|k IH]; intros [|b bs] H; simpl in H; try lia.
  - reflexivity.
  - replace (2 * S k)%nat with (S (S (2 * k))) by lia.
    change (hex (b :: bs))
      with (hex_digit (Z.shiftr (Z_of_byte b) 4)
            :: hex_digit (Z.land (Z_of_byte b) 15) :: hex bs).
    cbn [skipn nth]. apply IH. lia.
Qed.

Lemma map_nth_seq {A B : Type} (f : A -> B) (d : A) (n : nat) (l : list A) :
  (n <= length l)%nat ->
  map (fun k => f (nth k l d)) (seq 0 n) = map f (firstn n l).
Proof.
  revert l; induction n as [|n IH]; intros l H; [reflexivity|].
  destruct l as [|a l]; simpl in H; [lia|].
  cbn [seq map firstn]. rewrite <- seq_shift, map_map.
  cbn [nth]. f_equal. apply IH. lia.
Qed.

Lemma hex_pairs_of_hex (bs : bytes) :
  hex_pairs (hex bs) = map (fun b => hex [b]) (firstn 30 bs).
Proof.
  assert (Heven : Nat.even (length (hex bs)) = true).
  { rewrite hex_length, Nat.even_mul. reflexivity. }
  rewrite (hex_pairs_even _ Heven), hex_length.
  set (n := (Nat.min 60 (2 * length bs) / 2)%nat).
  assert (Hn : n = Nat.min 30 (length bs)).
  { unfold n. destruct (Nat.le_ge_cases 30 (length bs)) as [H|H].
    - rewrite Nat.min_l, Nat.min_l by lia. reflexivity.
    - rewrite Nat.min_r, Nat.min_r by lia.
      rewrite Nat.mul_comm. apply Nat.div_mul. lia. }
  rewrite (map_ext_in _ (fun k => hex [nth k bs x00])).
  - rewrite (map_nth_seq (fun b => hex [b]) x00 n bs) by lia.
    rewrite Hn. destruct (Nat.le_ge_cases 30 (length bs)) as [H|H].
    + now rewrite Nat.min_l by lia.
    + rewrite Nat.min_r by lia. now rewrite !firstn_all2 by lia.
  - intros k Hk. apply in_seq in Hk. apply slice_hex. lia.
Qed.

(** Parsing the pairs of characters of a hexadecimal form gives the bytes
    back, up to the thirtieth. *)
Lemma byte_values_3d_of_hex (bs : bytes) :
  byte_values_3d (hex bs)
  = Ok (rows_of (Nat.min 30 (length bs) / 3) 3
          (map Z_of_byte (firstn (3 * (Nat.min 30 (length bs) / 3)) bs))).
Proof.
  unfold byte_values_3d. rewrite hex_pairs_of_hex.
  rewrite (mapM_map_Ok int16 (fun b => hex [b]) Z_of_byte)
    by (intros; apply int16_hex_byte).
  cbn [bind]. rewrite length_map, length_firstn.
  set (n := Nat.min 30 (length bs)).
  destruct (multiple_of_three n) as [E3 [Emod Ediv]].
  assert (Hflat : slice (map Z_of_byte (firstn 30 bs)) 0 (n - n mod 3)
                  = map Z_of_byte (firstn (3 * (n / 3)) bs)).
  { unfold slice. rewrite Nat.sub_0_r, E3, skipn_O.
    rewrite firstn_map, firstn_firstn. f_equal. f_equal.
    pose proof (Nat.Div0.mul_div_le n 3). unfold n in *. lia. }
  rewrite Hflat. unfold reshape_rows.
  assert (Hlen : length (map Z_of_byte (firstn (3 * (n / 3)) bs))
                 = (n / 3 * 3)%nat).
  { rewrite length_map, length_firstn.
    pose proof (Nat.Div0.mul_div_le n 3). unfold n in *. lia. }
  rewrite Hlen, Nat.Div0.mod_mul, Nat.div_mul by lia. reflexivity.
Qed.

Lemma derive_shared_secret_digest (message : str) (public_key : bytes)
      (secret : str) :
  derive_shared_secret message public_key = Ok secret ->
  exists utf8 digest : bytes,
    encode message = Ok utf8
    /\ digest = hashlib.digest (hashlib.sha256 (utf8 ++ public_key))
    /\ length digest = 32%nat
    /\ secret = hex digest.
Proof.
  rewrite derive_shared_secret_unfold.
  destruct (encode message) as [utf8|]; [|discriminate].
  intros H; injection H as <-.
  exists utf8, (hashlib.digest (hashlib.sha256 (utf8 ++ public_key))).
  repeat split.
Qed.

(** X5. The points of the 3D plot are the first 30 bytes of the digest:
    for a secret returned by [derive_shared_secret], [byte_values_3d] gives
    ten rows, row [i] holding bytes [3i], [3i+1], [3i+2] of the SHA-256
    digest as integers; the last two bytes of the digest are not plotted. *)
Theorem byte_values_3d_are_the_first_30_digest_bytes :
  forall (message : str) (public_key : bytes) (secret : str),
    derive_shared_secret message public_key = Ok secret ->
    exists utf8 digest : bytes,
      encode message = Ok utf8
      /\ digest = hashlib.digest (hashlib.sha256 (utf8 ++ public_key))
      /\ byte_values_3d secret
         = Ok (rows_of 10 3 (map Z_of_byte (firstn 30 digest))).
Proof.
  intros m pk s H.
  destruct (derive_shared_secret_digest m pk s H)
    as [utf8 [digest [He [Hd [Hl ->]]]]].
  exists utf8, digest. split; [exact He|]. split; [exact Hd|].
  rewrite byte_values_3d_of_hex, Hl. reflexivity.
Qed.

Lemma byte_values_3d_are_the_first_30_digest_bytes_witness :
  derive_shared_secret (py "abc") [] = Ok sample_secret
  /\ exists utf8 digest : bytes,
      encode (py "abc") = Ok utf8
      /\ digest = hashlib.digest (hashlib.sha256 (utf8 ++ []))
      /\ byte_values_3d sample_secret
         = Ok (rows_of 10 3 (map Z_of_byte (firstn 30 digest))).
Proof.
  assert (H : derive_shared_secret (py "abc") [] = Ok sample_secret)
    by (vm_compute; reflexivity).
  split; [exact H|].
  exact (byte_values_3d_are_the_first_30_digest_bytes (py "abc") []
           sample_secret H).
Defined.

(** X6. The heatmap shows the whole digest, half-byte by half-byte: for a
    secret returned by [derive_shared_secret], [grid] is built and its rows
    read one after the other are the high and low halves of the 32 digest
    bytes in order, four bytes to a row. *)
Theorem grid_is_the_digest_in_half_bytes :
  forall (message : str) (public_key : bytes) (secret : str),
    derive_shared_secret message public_key = Ok secret ->
    exists utf8 digest : bytes,
      encode message = Ok utf8
      /\ digest = hashlib.digest (hashlib.sha256 (utf8 ++ public_key))
      /\ grid secret = Ok (rows_of 8 8 (nibbles digest))
      /\ concat (rows_of 8 8 (nibbles digest)) = nibbles digest.
Proof.
  intros m pk s H.
  destruct (derive_shared_secret_digest m pk s H)
    as [utf8 [digest [He [Hd [Hl ->]]]]].
  exists utf8, digest. split; [exact He|]. split; [exact Hd|].
  assert (Hn : length (nibbles digest) = 64%nat)
    by (rewrite nibbles_length, Hl; reflexivity).
  split.
  - unfold grid. rewrite byte_values_of_hex. cbn [bind].
    rewrite firstn_all2 by lia. unfold reshape. now rewrite Hn.
  - now apply rows_of_concat.
Qed.

Lemma grid_is_the_digest_in_half_bytes_witness :
  derive_shared_secret (py "abc") [] = Ok sample_secret
  /\ exists utf8 digest : bytes,
      encode (py "abc") = Ok utf8
      /\ digest = hashlib.digest (hashlib.sha256 (utf8 ++ []))
      /\ grid sample_secret = Ok (rows_of 8 8 (nibbles digest))
      /\ concat (rows_of 8 8 (nibbles digest)) = nibbles digest.
Proof.
  assert (H : derive_shared_secret (py "abc") [] = Ok sample_secret)
    by (vm_compute; reflexivity).
  split; [exact H|].
  exact (grid_is_the_digest_in_half_bytes (py "abc") [] sample_secret H).
Defined.

(* ================================================================== *)
(** * Secrets of any length *)

Lemma hex_pairs_unfold (ss_sender : str) :
  hex_pairs ss_sender
  = map (fun k => slice ss_sender (2 * k) (2 * k + 2))
        (seq 0 ((Nat.min 60 (length ss_sender) + 1) / 2)).
Proof.
  unfold hex_pairs.
  now rewrite range_from_0_step_2, map_map, Nat.min_comm.
Qed.

Lemma pair_index_bound (m k : nat) :
  (m <= 60)%nat -> (k < (m + 1) / 2)%nat -> (2 * k < m /\ 2 * k + 2 <= 60)%nat.
Proof.
  intros Hm Hk.
  pose proof (Nat.div_mod_eq (m + 1) 2) as E.
  pose proof (Nat.mod_upper_bound (m + 1) 2). lia.
Qed.

Lemma slice_parses (ss_sender : str) (k : nat) :
  Forall hex_char ss_sender ->
  (2 * k < length ss_sender)%nat ->
  exists v, int16 (slice ss_sender (2 * k) (2 * k + 2)) = Ok v
            /\ 0 <= v <= 255.
Proof.
  intros Hhex Hk. unfold slice.
  replace (2 * k + 2 - 2 * k)%nat with 2%nat by lia.
  pose proof (Forall_skipn hex_char (2 * k) ss_sender Hhex) as Hs.
  pose proof (length_skipn (2 * k) ss_sender) as Hl.
  destruct (skipn (2 * k) ss_sender) as [|a [|b rest]];
    simpl in Hl; try lia.
  - inversion Hs as [|? ? Ha _]; subst.
    destruct (int16_char a Ha) as [v [Hv Hr]].
    exists v. split; [exact Hv|lia].
  - inversion Hs as [|? ? Ha Hs']; subst.
    inversion Hs' as [|? ? Hb _]; subst.
    now apply int16_pair.
Qed.

(** The triplets of any string of hexadecimal characters. *)
Lemma byte_values_3d_hex (ss_sender : str) :
  Forall hex_char ss_sender ->
  exists parsed : list Z,
    mapM int16 (hex_pairs ss_sender) = Ok parsed
    /\ length parsed = ((Nat.min 60 (length ss_sender) + 1) / 2)%nat
    /\ Forall (fun v => 0 <= v <= 255) parsed
    /\ byte_values_3d ss_sender
       = Ok (rows_of (length parsed / 3) 3
               (firstn (3 * (length parsed / 3)) parsed)).
Proof.
  intros Hhex.
  set (n := ((Nat.min 60 (length ss_sender) + 1) / 2)%nat).
  pose proof (hex_pairs_unfold ss_sender) as Hpairs. fold n in Hpairs.
  assert (Hall : Forall (fun k => exists v,
                   int16 (slice ss_sender (2 * k) (2 * k + 2)) = Ok v
                   /\ 0 <= v <= 255) (seq 0 n)).
  { apply Forall_forall; intros k Hk. apply in_seq in Hk.
    apply slice_parses; [exact Hhex|].
    destruct (pair_index_bound (Nat.min 60 (length ss_sender)) k);
      [lia|unfold n in Hk; lia|lia]. }
  destruct (mapM_defined int16 (hex_pairs ss_sender)) as [parsed Hp].
  { rewrite Hpairs. apply Forall_map.
    eapply Forall_impl; [|exact Hall]. intros k [v [Hv _]]; eauto. }
  pose proof (mapM_Forall2 _ _ _ Hp) as H2.
  rewrite Hpairs in H2. apply Forall2_map_left in H2.
  assert (Hlen : length parsed = n).
  { rewrite <- (Forall2_length H2). apply length_seq. }
  exists parsed. split; [exact Hp|]. split; [exact Hlen|].
  split.
  { eapply Forall2_Forall_right; [|exact H2].
    intros k v Hin Hv. rewrite Forall_forall in Hall.
    destruct (Hall k Hin) as [v' [Hv' Hr]].
    rewrite Hv in Hv'. now injection Hv' as <-. }
  unfold byte_values_3d. rewrite Hp. cbn [bind].
  destruct (multiple_of_three (length parsed)) as [E3 [Emod Ediv]].
  unfold slice. rewrite Nat.sub_0_r, E3, skipn_O. unfold reshape_rows.
  assert (Hflen : length (firstn (3 * (length parsed / 3)) parsed)
                  = (length parsed / 3 * 3)%nat).
  { rewrite length_firstn.
    pose proof (Nat.Div0.mul_div_le (length parsed) 3). lia. }
  rewrite Hflen, Nat.Div0.mod_mul, Nat.div_mul by lia. reflexivity.
Qed.

(** What the parsed pairs are, whatever the text: value number [k] is the
    value in base 16 of group [k] of the text. *)
Lemma hex_pairs_group_values (ss_sender : str) (parsed : list Z) :
  mapM int16 (hex_pairs ss_sender) = Ok parsed ->
  Forall2 (fun k v => group_value k ss_sender = Some v)
          (seq 0 (length parsed)) parsed.
Proof.
  intros Hp. pose proof (mapM_Forall2 _ _ _ Hp) as H2.
  rewrite hex_pairs_unfold in H2. apply Forall2_map_left in H2.
  pose proof (Forall2_length H2) as Hlen. rewrite length_seq in Hlen.
  rewrite <- Hlen.
  eapply Forall2_impl_in; [|exact H2].
  intros k v Hk Hv. apply in_seq in Hk.
  apply slice_group_value; [|exact Hv].
  destruct (pair_index_bound (Nat.min 60 (length ss_sender)) k); lia.
Qed.

(** X7. For a string of hexadecimal characters of any length, odd lengths
    included, the list of triplets is built: the characters are read two by
    two up to the sixtieth, a last lone character counting as a value of its
    own, which gives [(min(60, len) + 1) // 2 // 3] rows of three integers
    in [0, 255].  Coordinate number [k], reading the rows one after the
    other, is the value in base 16 of group [k] of the string
    ([group_value]: the characters at places [2k] and [2k + 1], or the one
    at place [2k] alone where the string ends there), so that a string of
    five characters gives one triplet whose third coordinate is the value
    of its last character. *)
Theorem byte_values_3d_any_length :
  forall ss_sender : str,
    Forall hex_char ss_sender ->
    exists triplets : list (list Z),
      byte_values_3d ss_sender = Ok triplets
      /\ length triplets
         = ((Nat.min 60 (length ss_sender) + 1) / 2 / 3)%nat
      /\ Forall (fun row => length row = 3%nat) triplets
      /\ Forall (Forall (fun v => 0 <= v <= 255)) triplets
      /\ Forall2 (fun k v => group_value k ss_sender = Some v)
                 (seq 0 (3 * length triplets)) (concat triplets).
Proof.
  intros ss Hhex.
  destruct (byte_values_3d_hex ss Hhex) as [parsed [Hp [Hlen [Hr Hb]]]].
  assert (Hflen : length (firstn (3 * (length parsed / 3)) parsed)
                  = (length parsed / 3 * 3)%nat).
  { rewrite length_firstn.
    pose proof (Nat.Div0.mul_div_le (length parsed) 3). lia. }
  eexists. split; [exact Hb|].
  split; [now rewrite rows_of_length, Hlen|].
  split; [now apply rows_of_row_length|].
  split; [apply rows_of_Forall; now apply Forall_firstn|].
  rewrite rows_of_length, rows_of_concat by exact Hflen.
  rewrite <- (firstn_seq_le (3 * (length parsed / 3)) 0 (length parsed))
    by (pose proof (Nat.Div0.mul_div_le (length parsed) 3); lia).
  apply Forall2_firstn. now apply hex_pairs_group_values.
Qed.

Lemma byte_values_3d_any_length_witness :
  Forall hex_char (py "0a1b2")
  /\ byte_values_3d (py "0a1b2") = Ok [[10; 27; 2]]
  /\ exists triplets : list (list Z),
      byte_values_3d (py "0a1b2") = Ok triplets
      /\ length triplets
         = ((Nat.min 60 (length (py "0a1b2")) + 1) / 2 / 3)%nat
      /\ Forall (fun row => length row = 3%nat) triplets
      /\ Forall (Forall (fun v => 0 <= v <= 255)) triplets
      /\ Forall2 (fun k v => group_value k (py "0a1b2") = Some v)
                 (seq 0 (3 * length triplets)) (concat triplets).
Proof.
  assert (Hh : Forall hex_char (py "0a1b2"))
    by (apply hex_charb_sound; vm_compute; reflexivity).
  split; [exact Hh|]. split; [reflexivity|].
  exact (byte_values_3d_any_length (py "0a1b2") Hh).
Defined.

Lemma slice_firstn {A : Type} (l : list A) (n i j : nat) :
  (j <= n)%nat -> slice (firstn n l) i j = slice l i j.
Proof.
  intros H. unfold slice.
  rewrite skipn_firstn_comm, firstn_firstn. f_equal. lia.
Qed.

Lemma hex_pairs_prefix (ss_sender : str) :
  hex_pairs (firstn 60 ss_sender) = hex_pairs ss_sender.
Proof.
  rewrite !hex_pairs_unfold, length_firstn.
  rewrite Nat.min_assoc, Nat.min_id.
  apply map_ext_in; intros k Hk. apply in_seq in Hk.
  apply slice_firstn.
  destruct (pair_index_bound (Nat.min 60 (length ss_sender)) k); lia.
Qed.

(** X8. The charts read a prefix of the secret only: the 3D plot depends
    on the first 60 characters and the heatmap and the bar graph on the
    first 64, so that whatever follows them changes neither the result nor
    the exception. *)
Theorem charts_read_a_prefix_of_the_secret :
  forall ss_sender : str,
    byte_values_3d ss_sender = byte_values_3d (firstn 60 ss_sender)
    /\ grid ss_sender = grid (firstn 64 ss_sender)
    /\ byte_counter ss_sender = byte_counter (firstn 64 ss_sender).
Proof.
  intros ss.
  assert (Hv : byte_values ss = byte_values (firstn 64 ss)).
  { unfold byte_values. now rewrite slice_firstn by lia. }
  split; [|split].
  - unfold byte_values_3d. now rewrite hex_pairs_prefix.
  - unfold grid. now rewrite Hv.
  - unfold byte_counter. now rewrite Hv.
Qed.

(** X9. A secret of fewer than 64 hexadecimal characters has no heatmap:
    its characters all parse, [reshape(8, 8)] raises ValueError, whereas
    the frequency table of the same secret is built and counts every
    character. *)
Theorem grid_needs_64_characters :
  forall ss_sender : str,
    Forall hex_char ss_sender ->
    (length ss_sender < 64)%nat ->
    grid ss_sender = Raise ValueError
    /\ exists c : counter,
         byte_counter ss_sender = Ok c
         /\ total_count c = Z.of_nat (length ss_sender).
Proof.
  intros ss Hhex Hlen.
  destruct (byte_values_hex ss Hhex) as [parsed [Hp [Hl _]]].
  rewrite Nat.min_r in Hl by lia.
  split.
  - unfold grid. rewrite Hp. cbn [bind]. unfold reshape.
    destruct (Nat.eqb_spec (length parsed) (8 * 8)) as [E|E];
      [simpl in E; lia|reflexivity].
  - exists (Counter parsed). split.
    + unfold byte_counter. now rewrite Hp.
    + now rewrite total_count_Counter, Hl.
Qed.

Lemma grid_needs_64_characters_witness :
  Forall hex_char (py "0a1b2c3")
  /\ (length (py "0a1b2c3") < 64)%nat
  /\ grid (py "0a1b2c3") = Raise ValueError
  /\ exists c : counter,
       byte_counter (py "0a1b2c3") = Ok c
       /\ total_count c = Z.of_nat (length (py "0a1b2c3")).
Proof.
  assert (Hh : Forall hex_char (py "0a1b2c3"))
    by (apply hex_charb_sound; vm_compute; reflexivity).
  assert (Hl : (length (py "0a1b2c3") < 64)%nat) by (simpl; lia).
  split; [exact Hh|]. split; [exact Hl|].
  exact (grid_needs_64_characters (py "0a1b2c3") Hh Hl).
Defined.

(* ================================================================== *)
(** * The frequency table, entry by entry *)

Lemma existsb_eqb_In (x : Z) (l : list Z) :
  existsb (Z.eqb x) l = true <-> In x l.
Proof.
  rewrite existsb_exists. split.
  - intros [y [Hy E]]. apply Z.eqb_eq in E. now subst.
  - intros H. exists x. split; [exact H|apply Z.eqb_refl].
Qed.

Lemma keys_incr_eq (x : Z) (c : counter) :
  keys (incr x c)
  = if existsb (Z.eqb x) (keys c) then keys c else keys c ++ [x].
Proof.
  unfold keys; induction c as [|[y n] c IH]; simpl; [reflexivity|].
  destruct (x =? y) eqn:E; simpl; [reflexivity|].
  rewrite IH. now destruct (existsb (Z.eqb x) (map fst c)).
Qed.

Lemma first_seen_ext (seen seen' data : list Z) :
  (forall y, In y seen <-> In y seen') ->
  first_seen seen data = first_seen seen' data.
Proof.
  revert seen seen'; induction data as [|x data IH]; intros seen seen' H;
    simpl; [reflexivity|].
  assert (E : existsb (Z.eqb x) seen = existsb (Z.eqb x) seen').
  { apply eq_true_iff_eq. now rewrite !existsb_eqb_In. }
  rewrite E. destruct (existsb (Z.eqb x) seen').
  - now apply IH.
  - f_equal. apply IH. intros y; simpl. now rewrite H.
Qed.

Lemma keys_fold_first_seen (data : list Z) (c : counter) :
  keys (fold_left (fun c x => incr x c) data c)
  = keys c ++ first_seen (keys c) data.
Proof.
  revert c; induction data as [|x data IH]; intros c; simpl.
  - now rewrite app_nil_r.
  - rewrite IH, keys_incr_eq.
    destruct (existsb (Z.eqb x) (keys c)); [reflexivity|].
    rewrite <- app_assoc. simpl. do 2 f_equal.
    apply first_seen_ext. intros y. rewrite in_app_iff. simpl. tauto.
Qed.

(** The keys of a table are the distinct elements in the order in which
    they were first met. *)
Lemma keys_Counter_first_seen (data : list Z) :
  keys (Counter data) = first_seen [] data.
Proof. unfold Counter. now rewrite keys_fold_first_seen. Qed.

Lemma values_get (c : counter) :
  well_formed c -> values c = map (get c) (keys c).
Proof.
  intros Hc. unfold values, keys. rewrite map_map.
  apply map_ext_in; intros [k n] Hin. simpl.
  apply (In_get c k n Hc) in Hin as [-> _]. reflexivity.
Qed.

(** The counts of a table, in its order: the number of occurrences of each
    key. *)
Lemma values_Counter (data : list Z) :
  values (Counter data)
  = map (fun k => occurrences k data) (first_seen [] data).
Proof.
  rewrite (values_get _ (well_formed_Counter data)), keys_Counter_first_seen.
  apply map_ext; intros k. apply get_Counter.
Qed.

Lemma nibble_values (v : Z) :
  0 <= v <= 15 ->
  In v [0; 1; 2; 3; 4; 5; 6; 7; 8; 9; 10; 11; 12; 13; 14; 15].
Proof.
  intros H.
  assert (E : v = 0 \/ v = 1 \/ v = 2 \/ v = 3 \/ v = 4 \/ v = 5 \/ v = 6
              \/ v = 7 \/ v = 8 \/ v = 9 \/ v = 10 \/ v = 11 \/ v = 12
              \/ v = 13 \/ v = 14 \/ v = 15) by lia.
  simpl. intuition.
Qed.

(** X10. The bar graph of a secret of hexadecimal characters: the labels
    are the distinct half-byte values of its first 64 characters in the
    order in which they first occur, at most 16 of them and each in
    [0, 15], and the height of a bar is the number of occurrences of its
    label.  The half-byte values [parsed] are the values in base 16 of the
    characters, one for one and in their order, as positional notation
    gives them ([base16], not the parser the table is built with). *)
Theorem byte_counter_labels_and_heights :
  forall ss_sender : str,
    Forall hex_char ss_sender ->
    exists (parsed : list Z) (c : counter),
      Forall2 (fun ch v => base16 [ch] = Some v)
              (firstn 64 ss_sender) parsed
      /\ byte_values ss_sender = Ok parsed
      /\ byte_counter ss_sender = Ok c
      /\ keys c = first_seen [] parsed
      /\ values c = map (fun k => occurrences k parsed) (keys c)
      /\ NoDup (keys c)
      /\ Forall (fun k => 0 <= k <= 15) (keys c)
      /\ (length (keys c) <= 16)%nat.
Proof.
  intros ss Hhex.
  destruct (byte_values_hex ss Hhex) as [parsed [Hp [_ [Hr Hc]]]].
  exists parsed, (Counter parsed).
  split.
  { eapply Forall2_impl_in; [|exact Hc].
    intros ch v _ Hv. now apply int16_Ok_base16. }
  split; [exact Hp|].
  split; [unfold byte_counter; now rewrite Hp|].
  split; [apply keys_Counter_first_seen|].
  split; [rewrite values_Counter; now rewrite keys_Counter_first_seen|].
  destruct (well_formed_Counter parsed) as [Hnd _].
  assert (Hk : Forall (fun k => 0 <= k <= 15) (keys (Counter parsed))).
  { rewrite Forall_forall in Hr |- *. intros k Hin.
    apply Hr. now apply keys_Counter. }
  split; [exact Hnd|]. split; [exact Hk|].
  apply (NoDup_incl_length Hnd
           (l' := [0; 1; 2; 3; 4; 5; 6; 7; 8; 9; 10; 11; 12; 13; 14; 15])).
  intros k Hin. rewrite Forall_forall in Hk. now apply nibble_values, Hk.
Qed.

Lemma byte_counter_labels_and_heights_witness :
  Forall hex_char sample_secret
  /\ exists (parsed : list Z) (c : counter),
      Forall2 (fun ch v => base16 [ch] = Some v)
              (firstn 64 sample_secret) parsed
      /\ byte_values sample_secret = Ok parsed
      /\ byte_counter sample_secret = Ok c
      /\ keys c = first_seen [] parsed
      /\ values c = map (fun k => occurrences k parsed) (keys c)
      /\ NoDup (keys c)
      /\ Forall (fun k => 0 <= k <= 15) (keys c)
      /\ (length (keys c) <= 16)%nat.
Proof.
  assert (Hh : Forall hex_char sample_secret)
    by (apply hex_charb_sound; vm_compute; reflexivity).
  split; [exact Hh|].
  exact (byte_counter_labels_and_heights sample_secret Hh).
Defined.

(* ================================================================== *)
(** * The entropy, term by term *)

Lemma mapM_Ok {A B : Type} (f : A -> result B) (h : A -> B) (l : list A) :
  (forall a, In a l -> f a = Ok (h a)) -> mapM f l = Ok (map h l).
Proof.
  intros H. rewrite <- (map_id l) at 1. now apply mapM_map_Ok.
Qed.

Lemma ratio_positive_table :
  forallb (fun total => forallb (ratio_positive total) (seq 1 total))
          (seq 1 64) = true.
Proof. vm_compute. reflexivity. Qed.

Lemma ratio_positive_upto_64 (total count : Z) :
  1 <= count <= total -> total <= 64 ->
  (0 <? float_of_Z count / float_of_Z total)%float = true.
Proof.
  intros Hc Ht.
  pose proof ratio_positive_table as T.
  rewrite forallb_forall in T.
  specialize (T (Z.to_nat total)).
  rewrite forallb_forall in T.
  specialize (T ltac:(apply in_seq; lia) (Z.to_nat count)
                ltac:(apply in_seq; lia)).
  unfold ratio_positive in T. now rewrite !Z2Nat.id in T by lia.
Qed.

Lemma term_upto_64 (libm_log2 : float -> float) (total count : Z) :
  1 <= count <= total -> total <= 64 ->
  term libm_log2 total count = Ok (summand libm_log2 total count).
Proof.
  intros Hc Ht. unfold term, summand.
  rewrite truediv_defined by lia. cbn [bind].
  unfold math_log2. now rewrite ratio_positive_upto_64.
Qed.

Lemma count_le_total (c : counter) (k n : Z) :
  Forall (fun kn => 0 < snd kn) c -> In (k, n) c -> n <= total_count c.
Proof.
  unfold total_count, values.
  induction 1 as [|[y m] c Hm Hrest IH]; simpl; [tauto|].
  simpl in Hm. intros [E|Hin].
  - injection E as -> ->.
    assert (0 <= fold_right Z.add 0 (map snd c)); [|lia].
    clear -Hrest.
    induction Hrest as [|[y' m'] c Hm' _ IH']; simpl in *; lia.
  - specialize (IH Hin).
    lia.
Qed.

Lemma entries_le_total (c : counter) :
  Forall (fun kn => 0 < snd kn) c -> Z.of_nat (length c) <= total_count c.
Proof.
  unfold total_count, values.
  induction 1 as [|[y m] c Hm _ IH]; simpl in *; lia.
Qed.

Lemma counts_of_Counter (data : list Z) (count : Z) :
  In count (values (Counter data)) ->
  1 <= count <= Z.of_nat (length data).
Proof.
  unfold values. intros Hin. apply in_map_iff in Hin as [[k n] [<- Hin]].
  destruct (well_formed_Counter data) as [_ Hpos]. simpl.
  pose proof (count_le_total _ k n Hpos Hin) as Hle.
  rewrite total_count_Counter in Hle.
  rewrite Forall_forall in Hpos. specialize (Hpos _ Hin). simpl in Hpos.
  lia.
Qed.

Lemma Counter_nonempty (x : Z) (data : list Z) : Counter (x :: data) <> [].
Proof.
  intros E. pose proof (keys_Counter (x :: data) x) as [_ H].
  rewrite E in H. apply H. now left.
Qed.

Lemma calculate_entropy_upto_64 :
  forall (libm_log2 : float -> float) (float_sum : list float -> float)
         (float_round : float -> Z -> float) (data : str),
    (1 <= length data <= 64)%nat ->
    exists terms : list float,
      terms = map (summand libm_log2 (Z.of_nat (length data)))
                  (values (Counter data))
      /\ (1 <= length terms <= length data)%nat
      /\ calculate_entropy libm_log2 float_sum float_round data
         = Ok (Float (float_round (- float_sum terms)%float 2)).
Proof.
  intros l s r data Hlen.
  set (total := Z.of_nat (length data)).
  exists (map (summand l total) (values (Counter data))).
  split; [reflexivity|].
  assert (Hn : (1 <= length (Counter data) <= length data)%nat).
  { destruct (well_formed_Counter data) as [_ Hpos].
    pose proof (entries_le_total _ Hpos) as Hle.
    rewrite total_count_Counter in Hle.
    destruct data as [|x data]; [simpl in Hlen; lia|].
    pose proof (Counter_nonempty x data).
    destruct (Counter (x :: data)); [congruence|simpl in *; lia]. }
  split; [unfold values; now rewrite !length_map|].
  unfold calculate_entropy. fold total.
  rewrite (mapM_Ok (term l total) (summand l total)).
  - cbn [bind]. unfold sum, values.
    destruct (Counter data) as [|kn c]; [simpl in Hn; lia|reflexivity].
  - intros count Hin. apply counts_of_Counter in Hin.
    apply term_upto_64; unfold total; lia.
Qed.

(** X11. On a string of 1 to 64 characters, whatever they are,
    [calculate_entropy] raises nothing and returns a float: each count
    divided by the length is a positive double, so every logarithm is
    defined, and the result is [round(-sum(terms), 2)] over one term per
    distinct character. *)
Theorem calculate_entropy_returns_a_float :
  forall (libm_log2 : float -> float) (float_sum : list float -> float)
         (float_round : float -> Z -> float) (data : str),
    (1 <= length data <= 64)%nat ->
    exists terms : list float,
      terms = map (summand libm_log2 (Z.of_nat (length data)))
                  (values (Counter data))
      /\ (1 <= length terms <= length data)%nat
      /\ calculate_entropy libm_log2 float_sum float_round data
         = Ok (Float (float_round (- float_sum terms)%float 2)).
Proof. exact calculate_entropy_upto_64. Qed.

Lemma calculate_entropy_returns_a_float_witness :
  (1 <= length sample_secret <= 64)%nat
  /\ exists terms : list float,
      terms = map (summand (fun x => x) (Z.of_nat (length sample_secret)))
                  (values (Counter sample_secret))
      /\ (1 <= length terms <= length sample_secret)%nat
      /\ calculate_entropy (fun x => x) (fun _ => 0%float) (fun x _ => x)
           sample_secret
         = Ok (Float (- 0)%float).
Proof.
  assert (H : (1 <= length sample_secret <= 64)%nat) by (simpl; lia).
  split; [exact H|].
  exact (calculate_entropy_returns_a_float (fun x => x) (fun _ => 0%float)
           (fun x _ => x) sample_secret H).
Defined.

(** X12. [calculate_entropy] returns an integer for the empty string only:
    the result is the integer 0 there, and a float or an exception on every
    other string. *)
Theorem calculate_entropy_integer_only_when_empty :
  forall (libm_log2 : float -> float) (float_sum : list float -> float)
         (float_round : float -> Z -> float) (data : str) (z : Z),
    calculate_entropy libm_log2 float_sum float_round data = Ok (Int z) ->
    data = [] /\ z = 0.
Proof.
  intros l s r data z H.
  destruct data as [|x data].
  - split; [reflexivity|]. now injection H as <-.
  - exfalso. unfold calculate_entropy in H.
    destruct (mapM _ _) as [terms|] eqn:Hm; [|discriminate].
    apply mapM_Forall2, Forall2_length in Hm.
    unfold values in Hm. rewrite length_map in Hm.
    pose proof (Counter_nonempty x data).
    destruct (Counter (x :: data)); [congruence|].
    destruct terms; [discriminate|]. discriminate.
Qed.

Lemma calculate_entropy_integer_only_when_empty_witness :
  calculate_entropy (fun x => x) (fun _ => 0%float) (fun x _ => x) []
    = Ok (Int 0)
  /\ @nil Z = [] /\ 0 = 0.
Proof.
  assert (H : calculate_entropy (fun x => x) (fun _ => 0%float)
                (fun x _ => x) [] = Ok (Int 0)) by reflexivity.
  split; [exact H|].
  exact (calculate_entropy_integer_only_when_empty (fun x => x)
           (fun _ => 0%float) (fun x _ => x) [] 0 H).
Defined.

(** X13. The terms of the entropy are taken once per distinct character,
    in the order in which the characters first occur in the string, each
    with the number of occurrences of its character as count. *)
Theorem calculate_entropy_sums_in_first_seen_order :
  forall (libm_log2 : float -> float) (float_sum : list float -> float)
         (float_round : float -> Z -> float) (data : str),
    calculate_entropy libm_log2 float_sum float_round data
    = (terms <- mapM (term libm_log2 (Z.of_nat (length data)))
                     (map (fun c => occurrences c data)
                          (first_seen [] data)) ;;
       Ok (round float_round (neg (sum float_sum terms)) 2))%result.
Proof.
  intros. unfold calculate_entropy. now rewrite values_Counter.
Qed.

(** X14. Rearranging the characters of a string rearranges the terms of
    its entropy and changes nothing else: when the terms of a string are
    all defined, so are those of every permutation of it, and they are a
    permutation of the former. *)
Theorem calculate_entropy_terms_of_a_permutation :
  forall (libm_log2 : float -> float) (s t : str) (terms : list float),
    Permutation s t ->
    mapM (term libm_log2 (Z.of_nat (length s))) (values (Counter s))
      = Ok terms ->
    exists terms' : list float,
      mapM (term libm_log2 (Z.of_nat (length t))) (values (Counter t))
        = Ok terms'
      /\ Permutation terms terms'.
Proof.
  intros l s t terms H Hterms.
  rewrite <- (Permutation_length H).
  apply (mapM_Permutation _ (values (Counter s))); [|exact Hterms].
  unfold values. now apply Permutation_map, Counter_Permutation.
Qed.

Lemma calculate_entropy_terms_of_a_permutation_witness :
  Permutation (py "ab") (py "ba")
  /\ mapM (term (fun x => x) (Z.of_nat (length (py "ab"))))
          (values (Counter (py "ab")))
     = Ok [0.25%float; 0.25%float]
  /\ exists terms' : list float,
      mapM (term (fun x => x) (Z.of_nat (length (py "ba"))))
           (values (Counter (py "ba")))
        = Ok terms'
      /\ Permutation [0.25%float; 0.25%float] terms'.
Proof.
  assert (Hp : Permutation (py "ab") (py "ba")) by apply perm_swap.
  assert (Ht : mapM (term (fun x => x) (Z.of_nat (length (py "ab"))))
                    (values (Counter (py "ab")))
               = Ok [0.25%float; 0.25%float]) by (vm_compute; reflexivity).
  split; [exact Hp|]. split; [exact Ht|].
  exact (calculate_entropy_terms_of_a_permutation (fun x => x) (py "ab")
           (py "ba") _ Hp Ht).
Defined.

(* ================================================================== *)
(** * The entropy of any string

    The logarithm of [calculate_entropy] is taken of [count / total], which
    has to be a positive double for [math.log2] to return.  For counts and
    lengths up to 64 a table settles it; for the others it follows from the
    IEEE 754 operations, as the library of primitive floats specifies them,
    by following the magnitude of the doubles through the conversion of the
    two integers and their division. *)

(** ** Binary digits *)

Lemma digits2_pos_log2 (p : positive) :
  Zpos (digits2_pos p) = Z.log2 (Zpos p) + 1.
Proof.
  induction p as [p IH|p IH|]; cbn [digits2_pos].
  - rewrite Pos2Z.inj_succ, IH.
    change (Zpos p~1) with (2 * Zpos p + 1).
    rewrite Z.log2_succ_double by lia. lia.
  - rewrite Pos2Z.inj_succ, IH.
    change (Zpos p~0) with (2 * Zpos p).
    rewrite Z.log2_double by lia. lia.
  - reflexivity.
Qed.

Lemma digits2_pos_bounds (p : positive) (d : Z) :
  2 ^ (d - 1) <= Zpos p < 2 ^ d -> 1 <= d -> Zpos (digits2_pos p) = d.
Proof.
  intros H Hd. rewrite digits2_pos_log2.
  rewrite (Z.log2_unique (Zpos p) (d - 1)); [lia|lia|].
  replace (Z.succ (d - 1)) with d by lia. exact H.
Qed.

Lemma digits2_pos_spec (p : positive) :
  2 ^ (Zpos (digits2_pos p) - 1) <= Zpos p < 2 ^ Zpos (digits2_pos p).
Proof.
  rewrite digits2_pos_log2.
  pose proof (Z.log2_spec (Zpos p) ltac:(lia)) as H.
  replace (Z.log2 (Zpos p) + 1 - 1) with (Z.log2 (Zpos p)) by lia.
  replace (Z.log2 (Zpos p) + 1) with (Z.succ (Z.log2 (Zpos p))) by lia.
  exact H.
Qed.

Lemma shr_1_m (mrs : shr_record) :
  0 <= shr_m mrs -> shr_m (shr_1 mrs) = shr_m mrs / 2.
Proof.
  destruct mrs as [m r s]; cbn [shr_m]; intros Hm.
  destruct m as [|q|q]; [reflexivity| |lia].
  destruct q as [p|p|]; cbn [shr_1 shr_m].
  - change (Zpos p~1) with (2 * Zpos p + 1).
    apply Z.div_unique with (r := 1); lia.
  - change (Zpos p~0) with (2 * Zpos p).
    apply Z.div_unique with (r := 0); lia.
  - reflexivity.
Qed.

Lemma iter_pos_shr_1_m (p : positive) (mrs : shr_record) :
  0 <= shr_m mrs ->
  shr_m (iter_pos shr_1 p mrs) = shr_m mrs / 2 ^ Zpos p.
Proof.
  revert mrs; induction p as [p IH|p IH|]; intros mrs Hm; cbn [iter_pos].
  - assert (H1 : 0 <= shr_m (shr_1 mrs))
      by (rewrite shr_1_m by exact Hm; apply Z.div_pos; lia).
    assert (H2 : 0 <= shr_m (iter_pos shr_1 p (shr_1 mrs)))
      by (rewrite IH by exact H1; apply Z.div_pos; lia).
    rewrite IH by exact H2. rewrite IH by exact H1. rewrite shr_1_m by exact Hm.
    rewrite !Z.div_div by lia.
    f_equal. change (Zpos p~1) with (2 * Zpos p + 1).
    rewrite Z.pow_add_r, Z.pow_mul_r by lia.
    change (2 ^ 2) with 4. change (2 ^ 1) with 2.
    replace 4 with (2 * 2) by lia. rewrite Z.pow_mul_l. lia.
  - assert (H2 : 0 <= shr_m (iter_pos shr_1 p mrs))
      by (rewrite IH by exact Hm; apply Z.div_pos; lia).
    rewrite IH by exact H2. rewrite IH by exact Hm.
    rewrite !Z.div_div by lia.
    f_equal. change (Zpos p~0) with (2 * Zpos p).
    rewrite Z.pow_mul_r by lia.
    change (2 ^ 2) with 4.
    replace 4 with (2 * 2) by lia. rewrite Z.pow_mul_l. lia.
  - rewrite shr_1_m by exact Hm. reflexivity.
Qed.

Lemma fexp_normal (x : Z) : -1021 <= x -> fexp prec emax x = x - 53.
Proof. unfold fexp, emin, prec, emax. lia. Qed.

Lemma shr_fexp_normal (m : positive) (e : Z) (l : location) :
  53 <= Zpos (digits2_pos m) -> -1021 <= Zpos (digits2_pos m) + e ->
  exists mrs,
    shr_fexp prec emax (Zpos m) e l = (mrs, Zpos (digits2_pos m) + e - 53)
    /\ shr_m mrs = Zpos m / 2 ^ (Zpos (digits2_pos m) - 53).
Proof.
  intros Hd He. unfold shr_fexp. cbn [Zdigits2].
  rewrite fexp_normal by exact He.
  set (d := Zpos (digits2_pos m)) in *.
  replace (d + e - 53 - e) with (d - 53) by lia.
  unfold shr. destruct (d - 53) as [|n|n] eqn:En; [| |lia].
  - eexists; split; [f_equal; lia|].
    rewrite Z.div_1_r. destruct l as [|[| |]]; reflexivity.
  - eexists; split; [f_equal; lia|].
    rewrite iter_pos_shr_1_m; destruct l as [|[| |]]; cbn [shr_record_of_loc shr_m]; try reflexivity; lia.
Qed.

Lemma round_nearest_even_cases (m : Z) (l : location) :
  round_nearest_even m l = m \/ round_nearest_even m l = m + 1.
Proof.
  unfold round_nearest_even. destruct l as [|[| |]]; auto.
  destruct (Z.even m); auto.
Qed.

Lemma binary_round_aux_normal (mx : positive) (ex : Z) (l : location) :
  53 <= Zpos (digits2_pos mx) ->
  -1021 <= Zpos (digits2_pos mx) + ex ->
  Zpos (digits2_pos mx) + ex + 1 <= 1024 ->
  exists D',
    Zpos (digits2_pos mx) + ex <= D' <= Zpos (digits2_pos mx) + ex + 1
    /\ normal D' (binary_round_aux prec emax false (Zpos mx) ex l).
Proof.
  intros Hd Hlo Hhi.
  destruct (shr_fexp_normal mx ex l Hd Hlo) as [mrs [E1 Hm1]].
  pose proof (digits2_pos_spec mx) as Hmx.
  set (d := Zpos (digits2_pos mx)) in *.
  assert (Hpow : 2 ^ d = 2 ^ 53 * 2 ^ (d - 53))
    by (rewrite <- Z.pow_add_r by lia; f_equal; lia).
  assert (Hpow' : 2 ^ (d - 1) = 2 ^ 52 * 2 ^ (d - 53))
    by (rewrite <- Z.pow_add_r by lia; f_equal; lia).
  assert (Hp : 0 < 2 ^ (d - 53)) by (apply Z.pow_pos_nonneg; lia).
  assert (B1 : 2 ^ 52 <= shr_m mrs < 2 ^ 53).
  { rewrite Hm1. split.
    - apply Z.div_le_lower_bound; [exact Hp|]. rewrite Z.mul_comm. lia.
    - apply Z.div_lt_upper_bound; [exact Hp|]. rewrite Z.mul_comm. lia. }
  unfold binary_round_aux. rewrite E1.
  set (r := round_nearest_even (shr_m mrs) (loc_of_shr_record mrs)).
  assert (Br : 2 ^ 52 <= r <= 2 ^ 53).
  { unfold r.
    destruct (round_nearest_even_cases (shr_m mrs) (loc_of_shr_record mrs))
      as [-> | ->]; lia. }
  destruct r as [|pr|pr] eqn:Er; [lia| |lia].
  destruct (Z.eq_dec (Zpos pr) (2 ^ 53)) as [Etop|Ntop].
  - (* the mantissa was rounded up to the next power of two *)
    assert (Hdr : Zpos (digits2_pos pr) = 54)
      by (apply digits2_pos_bounds; [rewrite Etop|]; lia).
    destruct (shr_fexp_normal pr (d + ex - 53) loc_Exact) as [mrs2 [E2 Hm2]];
      [lia|lia|].
    rewrite E2. rewrite Hdr in Hm2 |- *. rewrite Etop in Hm2.
    change (2 ^ 53 / 2 ^ (54 - 53)) with (2 ^ 52) in Hm2.
    rewrite Hm2. change (2 ^ 52) with (Zpos (2 ^ 52)%positive).
    cbv beta iota.
    replace (54 + (d + ex - 53) - 53 <=? emax - prec) with true
      by (symmetry; apply Z.leb_le; unfold emax, prec; lia).
    exists (d + ex + 1). split; [lia|].
    exists (2 ^ 52)%positive. split; [f_equal; lia|].
    change (Zpos (2 ^ 52)%positive) with (2 ^ 52). lia.
  - assert (Hdr : Zpos (digits2_pos pr) = 53)
      by (apply digits2_pos_bounds; lia).
    destruct (shr_fexp_normal pr (d + ex - 53) loc_Exact) as [mrs2 [E2 Hm2]];
      [lia|lia|].
    rewrite E2. rewrite Hdr in Hm2 |- *.
    change (2 ^ (53 - 53)) with 1 in Hm2. rewrite Z.div_1_r in Hm2.
    rewrite Hm2. cbv beta iota.
    replace (53 + (d + ex - 53) - 53 <=? emax - prec) with true
      by (symmetry; apply Z.leb_le; unfold emax, prec; lia).
    exists (d + ex). split; [lia|].
    exists pr. split; [f_equal; lia|lia].
Qed.

Lemma normal_digits (m : positive) :
  2 ^ 52 <= Zpos m < 2 ^ 53 -> Zpos (digits2_pos m) = 53.
Proof. intros H. apply digits2_pos_bounds; [exact H|lia]. Qed.

(** The product of two normal doubles. *)
Lemma SFmul_normal (D1 D2 : Z) (x y : spec_float) :
  normal D1 x -> normal D2 y ->
  -1020 <= D1 + D2 -> D1 + D2 + 1 <= 1024 ->
  exists D', D1 + D2 - 1 <= D' <= D1 + D2 + 1
             /\ normal D' (SFmul prec emax x y).
Proof.
  intros [m1 [-> B1]] [m2 [-> B2]] Hlo Hhi.
  cbn [SFmul xorb].
  assert (Bm : 2 ^ 104 <= Zpos (m1 * m2) < 2 ^ 106).
  { rewrite Pos2Z.inj_mul.
    change (2 ^ 104) with (2 ^ 52 * 2 ^ 52).
    change (2 ^ 106) with (2 ^ 53 * 2 ^ 53). nia. }
  assert (Hd : Zpos (digits2_pos (m1 * m2)) = 105
               \/ Zpos (digits2_pos (m1 * m2)) = 106).
  { destruct (Z_lt_le_dec (Zpos (m1 * m2)) (2 ^ 105)).
    - left. apply digits2_pos_bounds; [|lia].
      change (105 - 1) with 104. lia.
    - right. apply digits2_pos_bounds; [|lia].
      change (106 - 1) with 105. lia. }
  destruct (binary_round_aux_normal (m1 * m2) (D1 - 53 + (D2 - 53)) loc_Exact)
    as [D' [HD' Hn]]; [lia|lia|lia|].
  exists D'. split; [lia|exact Hn].
Qed.

Lemma Pos_iter_xO (m d : positive) :
  Zpos (Pos.iter xO m d) = Zpos m * 2 ^ Zpos d.
Proof.
  revert m; induction d as [d IH|d IH|]; intros m; cbn [Pos.iter].
  - change (Zpos (Pos.iter xO (Pos.iter xO m d) d)~0)
      with (2 * Zpos (Pos.iter xO (Pos.iter xO m d) d)).
    rewrite !IH. change (Zpos d~1) with (2 * Zpos d + 1).
    rewrite Z.pow_add_r, Z.pow_mul_r by lia.
    change (2 ^ 2) with (2 * 2). rewrite Z.pow_mul_l. lia.
  - rewrite !IH. change (Zpos d~0) with (2 * Zpos d).
    rewrite Z.pow_mul_r by lia.
    change (2 ^ 2) with (2 * 2). rewrite Z.pow_mul_l. lia.
  - change (Zpos m~0) with (2 * Zpos m). lia.
Qed.

Lemma shl_align_fst (m : positive) (e e' : Z) :
  e' <= e -> Zpos (fst (shl_align m e e')) = Zpos m * 2 ^ (e - e').
Proof.
  intros H. unfold shl_align.
  destruct (e' - e) as [|d|d] eqn:E; cbn [fst].
  - replace (e - e') with 0 by lia. lia.
  - lia.
  - rewrite Pos_iter_xO. f_equal. f_equal. lia.
Qed.

Lemma aligned_sum_digits (a b s : positive) (k : Z) :
  0 <= k -> 2 ^ 52 <= Zpos a < 2 ^ 53 -> 2 ^ 52 <= Zpos b < 2 ^ 53 ->
  Zpos s = Zpos a * 2 ^ k + Zpos b ->
  53 + k <= Zpos (digits2_pos s) <= 54 + k.
Proof.
  intros Hk Ha Hb Hs.
  assert (H1 : 1 <= 2 ^ k) by (apply Z.lt_pred_le, Z.pow_pos_nonneg; lia).
  assert (E52 : 2 ^ (52 + k) = 2 ^ 52 * 2 ^ k) by (apply Z.pow_add_r; lia).
  assert (E53 : 2 ^ (53 + k) = 2 ^ 53 * 2 ^ k) by (apply Z.pow_add_r; lia).
  assert (E54 : 2 ^ (54 + k) = 2 ^ 54 * 2 ^ k) by (apply Z.pow_add_r; lia).
  change (2 ^ 54) with (2 * 2 ^ 53) in E54.
  destruct (Z_lt_le_dec (Zpos s) (2 ^ (53 + k))) as [Hlt|Hge].
  - rewrite (digits2_pos_bounds s (53 + k)); [lia| |lia].
    replace (53 + k - 1) with (52 + k) by lia. nia.
  - rewrite (digits2_pos_bounds s (54 + k)); [lia| |lia].
    replace (54 + k - 1) with (53 + k) by lia. nia.
Qed.

(** The sum of two normal doubles. *)
Lemma SFadd_normal (D1 D2 : Z) (x y : spec_float) :
  normal D1 x -> normal D2 y ->
  -1021 <= Z.max D1 D2 -> Z.max D1 D2 + 2 <= 1024 ->
  exists D', Z.max D1 D2 <= D' <= Z.max D1 D2 + 2
             /\ normal D' (SFadd prec emax x y).
Proof.
  intros [m1 [-> B1]] [m2 [-> B2]] Hlo Hhi.
  cbn [SFadd cond_Zopp].
  set (ez := Z.min (D1 - 53) (D2 - 53)).
  set (a1 := fst (shl_align m1 (D1 - 53) ez)).
  set (a2 := fst (shl_align m2 (D2 - 53) ez)).
  change (Zpos a1 + Zpos a2) with (Zpos (a1 + a2)).
  cbn [binary_normalize]. unfold binary_round.
  assert (Ha1 : Zpos a1 = Zpos m1 * 2 ^ (D1 - 53 - ez))
    by (apply shl_align_fst; unfold ez; lia).
  assert (Ha2 : Zpos a2 = Zpos m2 * 2 ^ (D2 - 53 - ez))
    by (apply shl_align_fst; unfold ez; lia).
  assert (Hd : Z.max D1 D2 - ez <= Zpos (digits2_pos (a1 + a2))
               <= Z.max D1 D2 - ez + 1).
  { destruct (Z_le_gt_dec D2 D1) as [Hle|Hgt].
    - assert (Ez : ez = D2 - 53) by (unfold ez; lia).
      rewrite Ez in Ha1, Ha2 |- *.
      replace (D2 - 53 - (D2 - 53)) with 0 in Ha2 by lia.
      rewrite Z.pow_0_r, Z.mul_1_r in Ha2.
      pose proof (aligned_sum_digits m1 m2 (a1 + a2) (D1 - 53 - (D2 - 53))
                    ltac:(lia) B1 B2 ltac:(rewrite Pos2Z.inj_add; lia)).
      lia.
    - assert (Ez : ez = D1 - 53) by (unfold ez; lia).
      rewrite Ez in Ha1, Ha2 |- *.
      replace (D1 - 53 - (D1 - 53)) with 0 in Ha1 by lia.
      rewrite Z.pow_0_r, Z.mul_1_r in Ha1.
      pose proof (aligned_sum_digits m2 m1 (a1 + a2) (D2 - 53 - (D1 - 53))
                    ltac:(lia) B2 B1 ltac:(rewrite Pos2Z.inj_add; lia)).
      lia. }
  assert (Hez : Z.min D1 D2 - 53 = ez) by (unfold ez; lia).
  rewrite fexp_normal by lia.
  unfold shl_align.
  destruct (Zpos (digits2_pos (a1 + a2)) + ez - 53 - ez) as [|d|d] eqn:E;
    [| |lia].
  - destruct (binary_round_aux_normal (a1 + a2) ez loc_Exact)
      as [D' [HD' Hn]]; [lia|lia|lia|].
    exists D'. split; [lia|exact Hn].
  - destruct (binary_round_aux_normal (a1 + a2) ez loc_Exact)
      as [D' [HD' Hn]]; [lia|lia|lia|].
    exists D'. split; [lia|exact Hn].
Qed.

Lemma div_eucl_div (a b : Z) : Z.div_eucl a b = (a / b, a mod b).
Proof. unfold Z.div, Z.modulo. now destruct (Z.div_eucl a b). Qed.

(** The quotient of two normal doubles. *)
Lemma SFdiv_normal (D1 D2 : Z) (x y : spec_float) :
  normal D1 x -> normal D2 y ->
  -1021 <= D1 - D2 -> D1 - D2 + 2 <= 1024 ->
  exists D', D1 - D2 <= D' <= D1 - D2 + 2
             /\ normal D' (SFdiv prec emax x y).
Proof.
  intros [m1 [-> B1]] [m2 [-> B2]] Hlo Hhi.
  cbn [SFdiv xorb]. unfold SFdiv_core_binary. cbn [Zdigits2].
  rewrite (normal_digits m1 B1), (normal_digits m2 B2).
  replace (53 + (D1 - 53) - (53 + (D2 - 53))) with (D1 - D2) by lia.
  rewrite fexp_normal by lia.
  replace (Z.min (D1 - D2 - 53) (D1 - 53 - (D2 - 53))) with (D1 - D2 - 53)
    by lia.
  replace (D1 - 53 - (D2 - 53) - (D1 - D2 - 53)) with 53 by lia.
  cbv beta iota. rewrite Z.shiftl_mul_pow2 by lia.
  rewrite div_eucl_div.
  set (q := Zpos m1 * 2 ^ 53 / Zpos m2).
  assert (Bq : 2 ^ 52 <= q < 2 ^ 54).
  { unfold q. split.
    - apply Z.div_le_lower_bound; [lia|]. nia.
    - apply Z.div_lt_upper_bound; [lia|].
      change (2 ^ 54) with (2 * 2 ^ 53). nia. }
  destruct q as [|pq|pq] eqn:Eq; [lia| |lia].
  assert (Hd : 53 <= Zpos (digits2_pos pq) <= 54).
  { destruct (Z_lt_le_dec (Zpos pq) (2 ^ 53)).
    - rewrite (digits2_pos_bounds pq 53); lia.
    - rewrite (digits2_pos_bounds pq 54); [lia| |lia].
      change (54 - 1) with 53. lia. }
  destruct (binary_round_aux_normal pq (D1 - D2 - 53)
              (new_location (Zpos m2) (Zpos m1 * 2 ^ 53 mod Zpos m2)))
    as [D' [HD' Hn]]; [lia|lia|lia|].
  exists D'. split; [lia|exact Hn].
Qed.

(** ** From integers to their quotient *)

Lemma normal_one : normal 1 (Prim2SF 1%float).
Proof.
  exists (2 ^ 52)%positive. split; [vm_compute; reflexivity|].
  change (Zpos (2 ^ 52)%positive) with (2 ^ 52). lia.
Qed.

Lemma normal_two : normal 2 (Prim2SF 2%float).
Proof.
  exists (2 ^ 52)%positive. split; [vm_compute; reflexivity|].
  change (Zpos (2 ^ 52)%positive) with (2 ^ 52). lia.
Qed.

(** The double made from a positive integer of at most 200 binary digits
    is a normal one, between the integer's number of digits and five times
    that number in magnitude. *)
Lemma float_of_positive_normal (p : positive) :
  Zpos (digits2_pos p) <= 200 ->
  exists D, Zpos (digits2_pos p) <= D <= 5 * Zpos (digits2_pos p)
            /\ normal D (Prim2SF (float_of_positive p)).
Proof.
  induction p as [p IH|p IH|]; cbn [digits2_pos float_of_positive];
    rewrite ?Pos2Z.inj_succ; intros Hs.
  - destruct IH as [D [HD Hn]]; [lia|].
    rewrite add_spec, mul_spec.
    destruct (SFmul_normal 2 D _ _ normal_two Hn) as [D1 [HD1 Hn1]];
      [lia|lia|].
    destruct (SFadd_normal D1 1 _ _ Hn1 normal_one) as [D2 [HD2 Hn2]];
      [lia|lia|].
    exists D2. split; [lia|exact Hn2].
  - destruct IH as [D [HD Hn]]; [lia|].
    rewrite mul_spec.
    destruct (SFmul_normal 2 D _ _ normal_two Hn) as [D1 [HD1 Hn1]];
      [lia|lia|].
    exists D1. split; [lia|exact Hn1].
  - exists 1. split; [lia|exact normal_one].
Qed.

Lemma digits2_pos_le (p : positive) (n : Z) :
  Zpos p < 2 ^ n -> 0 <= n -> Zpos (digits2_pos p) <= n.
Proof.
  intros H Hn. pose proof (digits2_pos_spec p) as [Hlo _].
  destruct (Z_le_gt_dec (Zpos (digits2_pos p)) n) as [|Hgt]; [assumption|].
  assert (2 ^ n <= 2 ^ (Zpos (digits2_pos p) - 1))
    by (apply Z.pow_le_mono_r; lia).
  lia.
Qed.

(** A count divided by a length of at most [2^200] is a positive double. *)
Lemma ratio_is_positive (total count : Z) :
  1 <= count -> 1 <= total < 2 ^ 200 -> count < 2 ^ 200 ->
  (0 <? float_of_Z count / float_of_Z total)%float = true.
Proof.
  intros Hc Ht Hc'.
  destruct count as [|c|c]; [lia| |lia].
  destruct total as [|t|t]; [lia| |lia].
  cbn [float_of_Z].
  destruct (float_of_positive_normal c) as [D1 [HD1 Hn1]];
    [apply digits2_pos_le; lia|].
  destruct (float_of_positive_normal t) as [D2 [HD2 Hn2]];
    [apply digits2_pos_le; lia|].
  pose proof (digits2_pos_le c 200 ltac:(lia) ltac:(lia)).
  pose proof (digits2_pos_le t 200 ltac:(lia) ltac:(lia)).
  assert (1 <= Zpos (digits2_pos c)) by lia.
  assert (1 <= Zpos (digits2_pos t)) by lia.
  destruct (SFdiv_normal D1 D2 _ _ Hn1 Hn2) as [D' [HD' [m [Em _]]]];
    [lia|lia|].
  rewrite ltb_spec, div_spec.
  unfold SF64div. rewrite Em. reflexivity.
Qed.

Lemma term_defined (libm_log2 : float -> float) (total count : Z) :
  1 <= count <= total -> total < 2 ^ 200 ->
  term libm_log2 total count = Ok (summand libm_log2 total count).
Proof.
  intros Hc Ht. unfold term, summand.
  rewrite truediv_defined by lia. cbn [bind].
  unfold math_log2. now rewrite ratio_is_positive by lia.
Qed.

(** What [calculate_entropy] returns on a string Python can hold. *)
Lemma calculate_entropy_returns
      (libm_log2 : float -> float) (float_sum : list float -> float)
      (float_round : float -> Z -> float) (data : str) :
  Z.of_nat (length data) <= sys_maxsize ->
  calculate_entropy libm_log2 float_sum float_round data
  = Ok (match data with
        | [] => Int 0
        | _ => Float (float_round
                        (- float_sum
                             (map (summand libm_log2 (Z.of_nat (length data)))
                                  (values (Counter data))))%float 2)
        end).
Proof.
  intros Hlen. destruct data as [|x data]; [reflexivity|].
  set (total := Z.of_nat (length (x :: data))) in *.
  unfold calculate_entropy. fold total.
  rewrite (mapM_Ok (term libm_log2 total) (summand libm_log2 total)).
  - cbn [bind]. unfold sum, values.
    pose proof (Counter_nonempty x data).
    destruct (Counter (x :: data)) as [|kn c]; [congruence|reflexivity].
  - intros count Hin. apply counts_of_Counter in Hin.
    apply term_defined; [exact Hin|].
    unfold sys_maxsize in Hlen. fold total in Hin.
    assert (2 ^ 63 < 2 ^ 200) by (apply Z.pow_lt_mono_r; lia). lia.
Qed.

(** C4. [calculate_entropy] never divides by zero and is total.  On the
    empty string no term of the sum is evaluated and the result is the
    integer 0; on every string each division [count / total] it evaluates
    has a non-zero divisor and the evaluation does not stop in
    ZeroDivisionError; and on every string that Python can hold, of up to
    [sys.maxsize] characters, the function returns: no division and no
    logarithm raises, since every [count / total] is a positive double, and
    the result is the integer 0 for the empty string and a float for every
    other one.  That the quotient is positive follows from the IEEE 754
    specification of the operations on doubles, whatever the rounding of
    the two operands: counts and lengths up to [2^53] are converted
    exactly, larger ones are rounded, and in both cases the operands are
    normal doubles of at least 1 whose quotient does not underflow. *)
Theorem calculate_entropy_total_without_zero_division :
  forall (libm_log2 : float -> float) (float_sum : list float -> float)
         (float_round : float -> Z -> float) (data : str),
    calculate_entropy libm_log2 float_sum float_round [] = Ok (Int 0)
    /\ values (Counter []) = []
    /\ Forall (fun count =>
                 exists q, truediv count (Z.of_nat (length data)) = Ok q)
              (values (Counter data))
    /\ divides_by_zero
         (calculate_entropy libm_log2 float_sum float_round data) = false
    /\ (Z.of_nat (length data) <= sys_maxsize ->
        (exists x : number,
           calculate_entropy libm_log2 float_sum float_round data = Ok x
           /\ (data = [] -> x = Int 0)
           /\ (data <> [] -> exists f : float, x = Float f))
        /\ Forall (fun count =>
                     exists q,
                       truediv count (Z.of_nat (length data)) = Ok q
                       /\ (0 <? q)%float = true
                       /\ math_log2 libm_log2 q = Ok (libm_log2 q))
                  (values (Counter data))).
Proof.
  intros l s r data.
  split; [reflexivity|]. split; [reflexivity|].
  split; [apply calculate_entropy_divisions|].
  split; [apply calculate_entropy_never_divides_by_zero|].
  intros Hlen. split.
  - rewrite (calculate_entropy_returns l s r data Hlen).
    eexists. split; [reflexivity|].
    split; [now intros ->|].
    intros Hne. destruct data as [|x data]; [congruence|]. eauto.
  - apply Forall_forall; intros count Hin.
    apply counts_of_Counter in Hin.
    assert (Hb : 2 ^ 63 < 2 ^ 200) by (apply Z.pow_lt_mono_r; lia).
    unfold sys_maxsize in Hlen.
    assert (Hpos : (0 <? float_of_Z count
                         / float_of_Z (Z.of_nat (length data)))%float = true)
      by (apply ratio_is_positive; lia).
    eexists. split; [apply truediv_defined; lia|].
    split; [exact Hpos|].
    unfold math_log2. now rewrite Hpos.
Qed.

Lemma calculate_entropy_total_without_zero_division_witness :
  Z.of_nat (length sample_secret) <= sys_maxsize
  /\ exists x : number,
       calculate_entropy (fun x => x) (fun _ => 0%float) (fun x _ => x)
         sample_secret = Ok x
       /\ (sample_secret = [] -> x = Int 0)
       /\ (sample_secret <> [] -> exists f : float, x = Float f).
Proof.
  assert (H : Z.of_nat (length sample_secret) <= sys_maxsize)
    by (vm_compute; discriminate).
  split; [exact H|].
  exact (proj1 (proj2 (proj2 (proj2 (proj2
           (calculate_entropy_total_without_zero_division
              (fun x => x) (fun _ => 0%float) (fun x _ => x)
              sample_secret)))) H)).
Defined.

(* ================================================================== *)
(** * The script, statement by statement *)

Section ScriptRules.

Variable d : session_state.
Variable E : script_exn -> Prop.

Lemma keeps_pass {A : Type} (a : A) (Q : A -> Prop) :
  Q a -> keeps d (pass a) Q E.
Proof. intros H w Hd Hs. simpl. auto. Qed.

Lemma keeps_and_then {A B : Type} (s : script A) (k : A -> script B)
      (P : A -> Prop) (Q : B -> Prop) :
  keeps d s P E ->
  (forall a, P a -> keeps d (k a) Q E) ->
  keeps d (and_then s k) Q E.
Proof.
  intros Hs Hk w Hd Hn. unfold and_then.
  destruct (Hs w Hd Hn) as [Hd' [Hn' Hr]].
  destruct (s w) as [[a|e] w']; simpl in *.
  - now apply Hk.
  - auto.
Qed.

Lemma keeps_weaken {A : Type} (s : script A) (P Q : A -> Prop) :
  keeps d s P E -> (forall a, P a -> Q a) -> keeps d s Q E.
Proof.
  intros Hs HPQ w Hd Hn. destruct (Hs w Hd Hn) as [Hd' [Hn' Hr]].
  repeat split; auto. destruct (fst (s w)); auto.
Qed.

Lemma keeps_emit (ev : event) :
  is_error ev = false -> keeps d (emit ev) (fun _ => True) E.
Proof.
  intros Hev w Hd Hn. simpl. repeat split; auto.
  unfold no_error in *. rewrite forallb_app, Hn. simpl. now rewrite Hev.
Qed.

Lemma keeps_contains (key : string) :
  keeps d (contains key) (fun b => b = dict_contains key d) E.
Proof. intros w Hd Hn. simpl. subst d. auto. Qed.

Lemma keeps_getitem (key : string) :
  (dict_get key d = None -> E (KeyError key)) ->
  keeps d (getitem key) (fun v => dict_get key d = Some v) E.
Proof.
  intros HE w Hd Hn. unfold getitem. rewrite Hd.
  destruct (dict_get key d) as [v|] eqn:Hg; simpl; auto.
Qed.

Lemma keeps_eval {A : Type} (r : result A) :
  (forall e, r = Raise e -> E (Uncaught e)) ->
  keeps d (eval r) (fun a => r = Ok a) E.
Proof.
  intros HE w Hd Hn. unfold eval. destruct r as [a|e]; simpl; auto.
Qed.

Lemma keeps_call {A : Type} (p : prog A) (Q : A -> Prop) :
  (forall r a r', p r = (Ok a, r') -> Q a) ->
  (forall r e r', p r = (Raise e, r') -> E (Uncaught e)) ->
  keeps d (call p) Q E.
Proof.
  intros HQ HE w Hd Hn. unfold call.
  destruct (p (randomness w)) as [[a|e] r'] eqn:Hp; simpl;
    repeat split; eauto.
Qed.

End ScriptRules.

Lemma str_eqb_refl (s : str) : str_eqb s s = true.
Proof.
  induction s as [|c s IH]; simpl; [reflexivity|].
  now rewrite Z.eqb_refl, IH.
Qed.

Lemma kyber_encapsulate_returns (public_key : bytes) (message : str)
      (r r' : os.entropy) (sent : bytes * str) :
  kyber_encapsulate public_key message r = (Ok sent, r') ->
  derive_shared_secret message public_key = Ok (snd sent).
Proof.
  rewrite kyber_encapsulate_unfold.
  destruct (derive_shared_secret message public_key); [|discriminate].
  intros H; injection H as <- _. reflexivity.
Qed.

Section ScriptFacts.

Variable libm_log2 : float -> float.
Variable float_sum : list float -> float.
Variable float_round : float -> Z -> float.

(** The exchange and the charts on a session dict that holds both keys, or
    with exceptions left unconstrained: the comparison of the two secrets
    succeeds, so that no [st.error] is shown. *)
Lemma keeps_exchange_and_charts (d : session_state)
      (E : script_exn -> Prop) (message : str) :
  (forall e, E (Uncaught e)) ->
  (dict_get "pk" d = None -> E (KeyError "pk")) ->
  (dict_get "sk" d = None -> E (KeyError "sk")) ->
  keeps d (exchange_and_charts libm_log2 float_sum float_round message)
        (fun _ => True) E.
Proof.
  intros HU Hpk Hsk. unfold exchange_and_charts.
  eapply keeps_and_then; [now apply keeps_getitem|intros pk Hp].
  eapply keeps_and_then.
  { apply (keeps_call d E (kyber_encapsulate pk message)
             (fun sent => derive_shared_secret message pk = Ok (snd sent))).
    - intros r a r' H. eapply kyber_encapsulate_returns; eassumption.
    - intros; apply HU. }
  intros sent Hsent. cbv zeta.
  eapply keeps_and_then; [now apply keeps_getitem|intros sk Hs].
  eapply keeps_and_then; [now apply keeps_getitem|intros pk' Hp'].
  assert (pk' = pk) by congruence. subst pk'.
  eapply keeps_and_then; [apply keeps_eval; intros; apply HU|].
  intros ss_receiver Hr. unfold kyber_decapsulate in Hr.
  assert (ss_receiver = snd sent) by congruence. subst ss_receiver.
  rewrite str_eqb_refl.
  repeat (eapply keeps_and_then;
          [first [ now apply keeps_emit
                 | apply keeps_eval; intros; apply HU ]
          | intros ? ? ]).
  now apply keeps_emit.
Qed.

Lemma keeps_step3 (d : session_state) (E : script_exn -> Prop)
      (message : str) :
  (forall e, E (Uncaught e)) ->
  (dict_contains "pk" d = true -> dict_get "sk" d = None ->
   E (KeyError "sk")) ->
  keeps d (step3 libm_log2 float_sum float_round message) (fun _ => True) E.
Proof.
  intros HU Hsk. unfold step3.
  destruct message as [|c message]; [now apply keeps_pass|].
  eapply keeps_and_then; [apply keeps_contains|].
  intros present ->. unfold dict_contains in *.
  destruct (dict_get "pk" d) as [pk|] eqn:Hp; [|now apply keeps_pass].
  apply keeps_exchange_and_charts; auto. congruence.
Qed.

Lemma keeps_show_keys (d : session_state) (E : script_exn -> Prop) :
  (dict_contains "pk" d = true -> dict_get "sk" d = None ->
   E (KeyError "sk")) ->
  keeps d show_keys (fun _ => True) E.
Proof.
  intros Hsk. unfold show_keys.
  eapply keeps_and_then; [apply keeps_contains|].
  intros present ->. unfold dict_contains in *.
  destruct (dict_get "pk" d) as [pk|] eqn:Hp; [|now apply keeps_pass].
  eapply keeps_and_then; [apply keeps_getitem; congruence|intros pk' _].
  eapply keeps_and_then; [now apply keeps_emit|intros _ _].
  eapply keeps_and_then; [apply keeps_getitem; auto|intros sk _].
  now apply keeps_emit.
Qed.

(** What the button does to the world. *)
Lemma step1_pressed (w : world) :
  step1 true w
  = (inl tt,
     mkWorld (dict_set "sk" (upcoming 32 (advance 32 (randomness w)))
                (dict_set "pk" (upcoming 32 (randomness w)) (session w)))
             (advance 64 (randomness w))
             (shown w ++ [Success (py "Key pair generated!")])).
Proof.
  unfold step1, and_then, call. rewrite kyber_keygen_unfold. reflexivity.
Qed.

End ScriptFacts.

(* ================================================================== *)
(** * Runs of the script *)

Lemma dict_get_set_same (key : string) (v : bytes) (d : session_state) :
  dict_get key (dict_set key v d) = Some v.
Proof.
  induction d as [|[k x] d IH]; simpl.
  - now rewrite String.eqb_refl.
  - destruct (String.eqb key k) eqn:Ek; simpl; rewrite Ek; auto.
Qed.

Lemma dict_get_set_other (key key' : string) (v : bytes)
      (d : session_state) :
  String.eqb key key' = false ->
  dict_get key (dict_set key' v d) = dict_get key d.
Proof.
  intros Hne. induction d as [|[k x] d IH]; simpl.
  - now rewrite Hne.
  - destruct (String.eqb key' k) eqn:Ek; simpl.
    + apply String.eqb_eq in Ek; subst k. now rewrite Hne.
    + now rewrite IH.
Qed.

Lemma paired_after_keygen (pk sk : bytes) (d : session_state) :
  paired (dict_set "sk" sk (dict_set "pk" pk d)) = true.
Proof.
  unfold paired, dict_contains.
  rewrite dict_get_set_same.
  rewrite dict_get_set_other by reflexivity.
  now rewrite dict_get_set_same.
Qed.

Lemma paired_no_missing_secret_key (d : session_state) :
  paired d = true ->
  dict_contains "pk" d = true -> dict_get "sk" d = None -> False.
Proof.
  unfold paired, dict_contains. intros Hp Hpk Hsk.
  rewrite Hsk in Hp. destruct (dict_get "pk" d); discriminate.
Qed.

Section Runs.

Variable libm_log2 : float -> float.
Variable float_sum : list float -> float.
Variable float_round : float -> Z -> float.

Lemma keeps_display_and_exchange (d : session_state)
      (E : script_exn -> Prop) (message : str) :
  (forall e, E (Uncaught e)) ->
  (dict_contains "pk" d = true -> dict_get "sk" d = None ->
   E (KeyError "sk")) ->
  keeps d (and_then show_keys
             (fun _ => step3 libm_log2 float_sum float_round message))
        (fun _ => True) E.
Proof.
  intros HU Hsk.
  eapply keeps_and_then; [now apply keeps_show_keys|].
  intros _ _. now apply keeps_step3.
Qed.

(** A run, cut after the button: the rest runs on the session dict the
    button leaves, and does not change it. *)
Lemma rerun_keeps (E : script_exn -> Prop) (pressed : bool) (message : str)
      (w : world) :
  let d := if pressed
           then dict_set "sk" (upcoming 32 (advance 32 (randomness w)))
                  (dict_set "pk" (upcoming 32 (randomness w)) (session w))
           else session w in
  (forall e, E (Uncaught e)) ->
  (dict_contains "pk" d = true -> dict_get "sk" d = None ->
   E (KeyError "sk")) ->
  session (snd (rerun libm_log2 float_sum float_round pressed message w)) = d
  /\ no_error
       (shown (snd (rerun libm_log2 float_sum float_round pressed message w)))
     = true
  /\ match fst (rerun libm_log2 float_sum float_round pressed message w) with
     | inl _ => True
     | inr e => E e
     end.
Proof.
  intros d HU Hsk.
  pose proof (keeps_display_and_exchange d E message HU Hsk) as K.
  assert (Eq : exists w1,
             session w1 = d /\ no_error (shown w1) = true
             /\ rerun libm_log2 float_sum float_round pressed message w
                = and_then show_keys
                    (fun _ => step3 libm_log2 float_sum float_round message)
                    w1).
  { unfold rerun, app. unfold and_then at 1. destruct pressed.
    - rewrite step1_pressed. eexists. split; [|split; [|reflexivity]];
        reflexivity.
    - cbn [step1 pass]. eexists. split; [|split; [|reflexivity]];
        reflexivity. }
  destruct Eq as [w1 [Hd [Hn ->]]].
  destruct (K w1 Hd Hn) as [H1 [H2 H3]]. auto.
Qed.

Lemma rerun_paired (pressed : bool) (message : str) (w : world) :
  paired (session w) = true ->
  paired (session
            (snd (rerun libm_log2 float_sum float_round pressed message w)))
    = true
  /\ is_key_error
       (fst (rerun libm_log2 float_sum float_round pressed message w))
     = false.
Proof.
  intros Hp.
  destruct (rerun_keeps not_key_error pressed message w) as [Hd [_ Hr]].
  - intros e; exact I.
  - destruct pressed.
    + intros Hpk Hsk. rewrite dict_get_set_same in Hsk. discriminate.
    + intros Hpk Hsk. simpl.
      eapply paired_no_missing_secret_key; eassumption.
  - rewrite Hd. split.
    + destruct pressed; [apply paired_after_keygen|exact Hp].
    + destruct (fst (rerun _ _ _ pressed message w)) as [u|[key|e]];
        simpl in *; tauto.
Qed.

Lemma interact_paired (inputs : list (bool * str)) (w : world) :
  paired (session w) = true ->
  paired (session (interact libm_log2 float_sum float_round inputs w)) = true.
Proof.
  revert w; induction inputs as [|[pressed message] inputs IH]; intros w Hp;
    simpl; [exact Hp|].
  apply IH. now apply rerun_paired.
Qed.

End Runs.

(** X15. Starting from an empty session dict, after any sequence of
    interactions the dict holds both keys or neither, and the next run,
    whatever the button and the message are, does not stop in a KeyError:
    the script never reads a key it has not stored. *)
Theorem script_never_misses_a_key :
  forall (libm_log2 : float -> float) (float_sum : list float -> float)
         (float_round : float -> Z -> float)
         (inputs : list (bool * str)) (r : os.entropy)
         (pressed : bool) (message : str),
    paired (session (interact libm_log2 float_sum float_round inputs
                       (fresh r))) = true
    /\ is_key_error
         (fst (rerun libm_log2 float_sum float_round pressed message
                 (interact libm_log2 float_sum float_round inputs
                    (fresh r))))
       = false.
Proof.
  intros l s f inputs r pressed message.
  assert (H : paired (session (interact l s f inputs (fresh r))) = true)
    by (apply interact_paired; reflexivity).
  split; [exact H|]. now apply rerun_paired.
Qed.

(** X16. No run of the script shows "Shared secrets do not match": whatever
    the session dict, the entropy source, the button and the message are,
    and however the run ends, the page holds no [st.error]. *)
Theorem script_never_reports_a_mismatch :
  forall (libm_log2 : float -> float) (float_sum : list float -> float)
         (float_round : float -> Z -> float)
         (pressed : bool) (message : str) (w : world),
    no_error
      (shown (snd (rerun libm_log2 float_sum float_round pressed message w)))
    = true.
Proof.
  intros l s f pressed message w.
  destruct (rerun_keeps l s f (fun _ => True) pressed message w)
    as [_ [H _]]; auto.
Qed.

(* ------------------------------------------------------------------ *)
(** ** A run, step by step *)

Lemma and_then_pass {A B : Type} (a : A) (k : A -> script B) (w : world) :
  and_then (pass a) k w = k a w.
Proof. reflexivity. Qed.

Lemma and_then_emit {B : Type} (ev : event) (k : unit -> script B)
      (w : world) :
  and_then (emit ev) k w
  = k tt (mkWorld (session w) (randomness w) (shown w ++ [ev])).
Proof. reflexivity. Qed.

Lemma and_then_contains {B : Type} (key : string) (k : bool -> script B)
      (w : world) :
  and_then (contains key) k w = k (dict_contains key (session w)) w.
Proof. reflexivity. Qed.

Lemma and_then_getitem {B : Type} (key : string) (v : bytes)
      (k : bytes -> script B) (w : world) :
  dict_get key (session w) = Some v ->
  and_then (getitem key) k w = k v w.
Proof. intros H. unfold and_then, getitem. now rewrite H. Qed.



Lemma and_then_call_raises {A B : Type} (p : prog A) (e : exn)
      (r' : os.entropy) (k : A -> script B) (w : world) :
  p (randomness w) = (Raise e, r') ->
  and_then (call p) k w
  = (inr (Uncaught e), mkWorld (session w) r' (shown w)).
Proof. intros H. unfold and_then, call. now rewrite H. Qed.





Section WholeRun.

Variable libm_log2 : float -> float.
Variable float_sum : list float -> float.
Variable float_round : float -> Z -> float.

Lemma show_keys_present (w : world) (pk sk : bytes) :
  dict_get "pk" (session w) = Some pk ->
  dict_get "sk" (session w) = Some sk ->
  show_keys w
  = (inl tt,
     mkWorld (session w) (randomness w)
       (shown w ++ [Code (py "Public Key: " ++ hex pk);
                    Code (py "Secret Key: " ++ hex sk)])).
Proof.
  intros Hpk Hsk. unfold show_keys.
  rewrite and_then_contains. unfold dict_contains. rewrite Hpk.
  rewrite (and_then_getitem "pk" pk) by exact Hpk.
  rewrite and_then_emit.
  rewrite (and_then_getitem "sk" sk) by exact Hsk.
  unfold emit. cbn [session randomness shown].
  now rewrite <- app_assoc.
Qed.



(** X18. A run with both keys stored and a message that has no UTF-8
    encoding (a lone surrogate) stops in UnicodeEncodeError inside
    [kyber_encapsulate]: the page shows the two keys only, and the 64 bytes
    of the ciphertext are drawn from the entropy source all the same. *)
Theorem script_run_stops_on_a_surrogate (message : str) (w : world)
        (pk sk : bytes) :
  dict_get "pk" (session w) = Some pk ->
  dict_get "sk" (session w) = Some sk ->
  encodable message = false ->
  rerun libm_log2 float_sum float_round false message w
  = (inr (Uncaught UnicodeEncodeError),
     mkWorld (session w) (advance 64 (randomness w))
       [Code (py "Public Key: " ++ hex pk);
        Code (py "Secret Key: " ++ hex sk)]).
Proof.
  intros Hpk Hsk Hm.
  assert (Hd : derive_shared_secret message pk = Raise UnicodeEncodeError).
  { pose proof (raised_derive_shared_secret message pk) as H.
    rewrite raised_encode, Hm in H.
    destruct (derive_shared_secret message pk); simpl in H; congruence. }
  unfold rerun, app. cbn [step1]. rewrite and_then_pass.
  unfold and_then at 1.
  rewrite (show_keys_present (mkWorld (session w) (randomness w) [])
             pk sk Hpk Hsk).
  cbn [session randomness shown app].
  unfold step3. destruct message as [|c message]; [discriminate|].
  rewrite and_then_contains. unfold dict_contains.
  cbn [session]. rewrite Hpk.
  unfold exchange_and_charts.
  rewrite (and_then_getitem "pk" pk) by exact Hpk.
  rewrite (and_then_call_raises (kyber_encapsulate pk (c :: message))
             UnicodeEncodeError (advance 64 (randomness w)))
    by (rewrite kyber_encapsulate_unfold, Hd; reflexivity).
  reflexivity.
Qed.

(** X19. Without a stored public key a run that does not press the button
    does nothing, whatever the message: it shows nothing, draws no byte
    from the entropy source, raises nothing and leaves the session dict as
    it is. *)
Theorem script_run_without_keys_does_nothing (message : str) (w : world) :
  dict_contains "pk" (session w) = false ->
  rerun libm_log2 float_sum float_round false message w
  = (inl tt, mkWorld (session w) (randomness w) []).
Proof.
  intros H. unfold rerun, app. cbn [step1]. rewrite and_then_pass.
  unfold and_then at 1. unfold show_keys.
  rewrite and_then_contains. cbn [session]. rewrite H.
  cbn [pass]. unfold step3.
  destruct message as [|c message]; [reflexivity|].
  rewrite and_then_contains. cbn [session]. now rewrite H.
Qed.

End WholeRun.

(* ================================================================== *)
(** * The script as its user sees it *)


Lemma script_run_stops_on_a_surrogate_witness :
  dict_get "pk" (session sample_world) = Some sample_public_key
  /\ dict_get "sk" (session sample_world) = Some sample_secret_key
  /\ encodable [104; 0xD800] = false
  /\ rerun (fun x => x) (fun _ => 0%float) (fun x _ => x) false
       [104; 0xD800] sample_world
     = (inr (Uncaught UnicodeEncodeError),
        mkWorld (session sample_world)
          (advance 64 (randomness sample_world))
          [Code (py "Public Key: " ++ hex sample_public_key);
           Code (py "Secret Key: " ++ hex sample_secret_key)]).
Proof.
  assert (Hpk : dict_get "pk" (session sample_world)
                = Some sample_public_key) by reflexivity.
  assert (Hsk : dict_get "sk" (session sample_world)
                = Some sample_secret_key) by reflexivity.
  assert (Hm : encodable [104; 0xD800] = false) by reflexivity.
  split; [exact Hpk|]. split; [exact Hsk|]. split; [exact Hm|].
  exact (script_run_stops_on_a_surrogate (fun x => x) (fun _ => 0%float)
           (fun x _ => x) [104; 0xD800] sample_world sample_public_key
           sample_secret_key Hpk Hsk Hm).
Defined.

Lemma script_run_without_keys_does_nothing_witness :
  dict_contains "pk" (session (fresh sample_entropy)) = false
  /\ rerun (fun x => x) (fun _ => 0%float) (fun x _ => x) false
       (py "hello") (fresh sample_entropy)
     = (inl tt,
        mkWorld (session (fresh sample_entropy))
          (randomness (fresh sample_entropy)) []).
Proof.
  assert (H : dict_contains "pk" (session (fresh sample_entropy)) = false)
    by reflexivity.
  split; [exact H|].
  exact (script_run_without_keys_does_nothing (fun x => x)
           (fun _ => 0%float) (fun x _ => x) (py "hello")
           (fresh sample_entropy) H).
Defined.

(** X20. Pressing the button stores a new key pair, whatever the dict held
    and however the rest of the run ends: afterwards ['pk'] is the next 32
    bytes of the entropy source and ['sk'] the 32 bytes after them, and
    every other entry of the session dict is as before. *)
Theorem button_stores_a_new_key_pair :
  forall (libm_log2 : float -> float) (float_sum : list float -> float)
         (float_round : float -> Z -> float) (message : str) (w : world)
         (key : string),
    dict_get key
      (session (snd (rerun libm_log2 float_sum float_round true message w)))
    = if String.eqb key "sk"
      then Some (upcoming 32 (advance 32 (randomness w)))
      else if String.eqb key "pk"
           then Some (upcoming 32 (randomness w))
           else dict_get key (session w).
Proof.
  intros l s f message w key.
  destruct (rerun_keeps l s f (fun _ => True) true message w) as [Hd _];
    auto.
  rewrite Hd. clear Hd.
  destruct (String.eqb key "sk") eqn:E2.
  - apply String.eqb_eq in E2; subst key. apply dict_get_set_same.
  - rewrite dict_get_set_other by exact E2.
    destruct (String.eqb key "pk") eqn:E1.
    + apply String.eqb_eq in E1; subst key. apply dict_get_set_same.
    + now rewrite dict_get_set_other.
Qed.

(** X21. The script tests the session dict for ['pk'] only: on a dict that
    holds a public key and no secret key, a run that does not press the
    button shows the public key and stops in KeyError 'sk', before any
    random byte is drawn, whatever the message is. *)
Theorem script_run_with_public_key_only :
  forall (libm_log2 : float -> float) (float_sum : list float -> float)
         (float_round : float -> Z -> float) (message : str) (w : world)
         (pk : bytes),
    dict_get "pk" (session w) = Some pk ->
    dict_get "sk" (session w) = None ->
    rerun libm_log2 float_sum float_round false message w
    = (inr (KeyError "sk"),
       mkWorld (session w) (randomness w)
         [Code (py "Public Key: " ++ hex pk)]).
Proof.
  intros l s f message w pk Hpk Hsk.
  unfold rerun, app. cbn [step1]. rewrite and_then_pass.
  unfold and_then at 1. unfold show_keys.
  rewrite and_then_contains. unfold dict_contains.
  cbn [session]. rewrite Hpk.
  rewrite (and_then_getitem "pk" pk) by exact Hpk.
  rewrite and_then_emit. cbn [session randomness shown app].
  unfold and_then, getitem. cbn [session]. rewrite Hsk. reflexivity.
Qed.

Lemma script_run_with_public_key_only_witness :
  dict_get "pk" (session (mkWorld [("pk"%string, sample_public_key)]
                            sample_entropy [])) = Some sample_public_key
  /\ dict_get "sk" (session (mkWorld [("pk"%string, sample_public_key)]
                               sample_entropy [])) = None
  /\ rerun (fun x => x) (fun _ => 0%float) (fun x _ => x) false (py "hello")
       (mkWorld [("pk"%string, sample_public_key)] sample_entropy [])
     = (inr (KeyError "sk"),
        mkWorld [("pk"%string, sample_public_key)] sample_entropy
          [Code (py "Public Key: " ++ hex sample_public_key)]).
Proof.
  assert (Hpk : dict_get "pk"
                  (session (mkWorld [("pk"%string, sample_public_key)]
                              sample_entropy []))
                = Some sample_public_key) by reflexivity.
  assert (Hsk : dict_get "sk"
                  (session (mkWorld [("pk"%string, sample_public_key)]
                              sample_entropy []))
                = None) by reflexivity.
  split; [exact Hpk|]. split; [exact Hsk|].
  exact (script_run_with_public_key_only (fun x => x) (fun _ => 0%float)
           (fun x _ => x) (py "hello")
           (mkWorld [("pk"%string, sample_public_key)] sample_entropy [])
           sample_public_key Hpk Hsk).
Defined.
